(** * Product catalogue: normalisation, loading and querying

    A shallow embedding of the TypeScript sources

    - [lib/utils.ts]        : [normalizePrice], [extractStorageInGB], [hasGames]
    - [lib/data-loader.ts]  : [loadProducts], [getFilterValues]
    - [lib/types.ts]        : [RawProduct], [Product], [SearchFilters],
                              [SearchResponse]
    - [app/api/products/route.ts] : [GET]
    - [app/page.tsx]        : the query string of [fetchProducts], the
                              page buttons
    - [components/FilterPanel.tsx] : [handleMultiSelectChange]

    Conventions of the embedding.

    - A JavaScript string is the list of its UTF-16 code units.
    - A JavaScript number is [NaN], an infinity, or a finite value that is
      kept as an exact rational: the rounding of binary64 and the sign of
      zero are not modelled.  A decimal text therefore denotes the
      rational it spells, where JavaScript has the nearest binary64
      number; the properties below speak of signs, of the order of
      numbers and of integers far below 2^53, which rounding keeps.
      Nothing is stated about a result being finite, since rounding can
      overflow.  [parseInt] alone rounds its whole number to binary64;
      what is stated about a value that is read off digits is stated
      for digits within the range where binary64 keeps them apart.
    - Arrays live in a heap and are named by locations, because [GET]
      sorts the array it got from [loadProducts] in place.
    - [null] and [undefined] are [None]. *)

From Stdlib Require Import QArith Qcanon Qround String Ascii.
From stdpp Require Import base option list numbers sorting.

Local Open Scope Z_scope.

(* ===================================================================== *)
(** ** Strings *)
(* ===================================================================== *)

Abbreviation code_unit := N.
Abbreviation jsstring := (list code_unit).

(** Reads a literal as the string of its code units (ASCII literals only). *)
Definition str (s : string) : jsstring :=
  map N_of_ascii (list_ascii_of_string s).

Definition ch (c : ascii) : code_unit := N_of_ascii c.

Definition jsstring_eqb (a b : jsstring) : bool := bool_decide (a = b).

(** WhiteSpace and LineTerminator of ECMAScript: what [trim] strips and
    what [\s] matches. *)
Definition isWhiteSpace (c : code_unit) : bool :=
  ((9 <=? c) && (c <=? 13) || (c =? 32) || (c =? 160) || (c =? 5760)
   || (8192 <=? c) && (c <=? 8202)
   || (c =? 8232) || (c =? 8233) || (c =? 8239) || (c =? 8287)
   || (c =? 12288) || (c =? 65279))%N.

(** [\d] *)
Definition isDigit (c : code_unit) : bool := ((48 <=? c) && (c <=? 57))%N.

Definition digitValue (c : code_unit) : Z := Z.of_N c - 48.

Fixpoint trimStart (s : jsstring) : jsstring :=
  match s with
  | c :: r => if isWhiteSpace c then trimStart r else s
  | [] => []
  end.

Definition trimEnd (s : jsstring) : jsstring :=
  reverse (trimStart (reverse s)).

(** [String.prototype.trim] *)
Definition trim (s : jsstring) : jsstring := trimEnd (trimStart s).

(** [s.includes(c)] for a one-character needle *)
Definition includesChar (c : code_unit) (s : jsstring) : bool :=
  existsb (N.eqb c) s.

(** [s.replace(/\s/g, '')] and [s.replace(/\./g, '')] *)
Definition removeAll (p : code_unit → bool) (s : jsstring) : jsstring :=
  filter (λ c, negb (p c)) s.

(** [s.replace(a, b)] for one-character strings: the first occurrence only *)
Fixpoint replaceFirst (a b : code_unit) (s : jsstring) : jsstring :=
  match s with
  | [] => []
  | c :: r => if (c =? a)%N then b :: r else c :: replaceFirst a b r
  end.

(** [s.split(sep)] for a one-character separator *)
Fixpoint split (sep : code_unit) (s : jsstring) : list jsstring :=
  match s with
  | [] => [[]]
  | c :: r =>
      if (c =? sep)%N then [] :: split sep r
      else match split sep r with
           | p :: ps => (c :: p) :: ps
           | [] => [[c]]
           end
  end.

(** [needle] is a prefix of [s] *)
Fixpoint startsWith (needle s : jsstring) : bool :=
  match needle, s with
  | [], _ => true
  | a :: n, c :: r => (a =? c)%N && startsWith n r
  | _ :: _, [] => false
  end.

(** [s.includes(needle)] *)
Fixpoint includes (needle s : jsstring) : bool :=
  startsWith needle s ||
  match s with
  | [] => false
  | _ :: r => includes needle r
  end.

(** [parts.join(sep)] *)
Fixpoint join (sep : jsstring) (parts : list jsstring) : jsstring :=
  match parts with
  | [] => []
  | [p] => p
  | p :: ps => p ++ sep ++ join sep ps
  end.

(** The maximal run of characters satisfying [p] at the front of [s], and
    the rest. *)
Fixpoint span (p : code_unit → bool) (s : jsstring) : jsstring * jsstring :=
  match s with
  | c :: r => if p c then let '(a, b) := span p r in (c :: a, b) else ([], s)
  | [] => ([], [])
  end.

(* ===================================================================== *)
(** ** Numbers *)
(* ===================================================================== *)

(** [Qc] is the type of rationals in lowest terms, so that two finite
    numbers are equal exactly when they are the same constructor
    application. *)
Inductive number :=
  | NaN
  | Infinity (negative : bool)
  | Fin (q : Qc).

Module Num.

Definition ofZ (z : Z) : number := Fin (Q2Qc (inject_Z z)).
Definition ofQ (q : Q) : number := Fin (Q2Qc q).

Definition isNaN (x : number) : bool :=
match x with NaN => true | _ => false end.

Definition Qc_ltb (a b : Qc) : bool := bool_decide (a < b)%Qc.
Definition Qc_leb (a b : Qc) : bool := bool_decide (a ≤ b)%Qc.
Definition Qc_eqb (a b : Qc) : bool := bool_decide (a = b).

(** [x < y]; every comparison with [NaN] is false. *)
Definition lt (x y : number) : bool :=
match x, y with
| NaN, _ | _, NaN => false
| Infinity true, Infinity true => false
| Infinity true, _ => true
| _, Infinity true => false
| Infinity false, _ => false
| _, Infinity false => true
| Fin a, Fin b => Qc_ltb a b
end.

(** [x === y] on numbers *)
Definition eqb (x y : number) : bool :=
match x, y with
| Infinity a, Infinity b => Bool.eqb a b
| Fin a, Fin b => Qc_eqb a b
| _, _ => false
end.

Definition gt (x y : number) : bool := lt y x.
Definition le (x y : number) : bool := lt x y || eqb x y.
Definition ge (x y : number) : bool := le y x.

Definition neg (x : number) : number :=
match x with
| NaN => NaN
| Infinity s => Infinity (negb s)
| Fin a => Fin (- a)%Qc
end.

Definition add (x y : number) : number :=
match x, y with
| NaN, _ | _, NaN => NaN
| Infinity a, Infinity b => if Bool.eqb a b then Infinity a else NaN
| Infinity a, Fin _ => Infinity a
| Fin _, Infinity b => Infinity b
| Fin a, Fin b => Fin (a + b)%Qc
end.

Definition sub (x y : number) : number := add x (neg y).

Definition isZero (x : number) : bool := eqb x (ofZ 0).
Definition isNegative (x : number) : bool := lt x (ofZ 0).

(** The sign of a non-zero, non-[NaN] number: [true] when negative. *)
Definition signBit (x : number) : bool := isNegative x.

Definition mul (x y : number) : number :=
match x, y with
| NaN, _ | _, NaN => NaN
| Fin a, Fin b => Fin (a * b)%Qc
| _, _ =>
    if isZero x || isZero y then NaN
    else Infinity (xorb (signBit x) (signBit y))
end.

(** Division; a zero divisor is taken to be [+0]. *)
Definition div (x y : number) : number :=
match x, y with
| NaN, _ | _, NaN => NaN
| Infinity _, Infinity _ => NaN
| Infinity a, Fin _ => Infinity (xorb a (signBit y))
| Fin _, Infinity _ => ofZ 0
| Fin a, Fin b =>
    if isZero y then
      if isZero x then NaN else Infinity (signBit x)
    else Fin (a / b)%Qc
end.

(** [Math.floor] and [Math.ceil] *)
Definition floor (x : number) : number :=
match x with
| Fin a => ofZ (Qfloor a)
| _ => x
end.

Definition ceil (x : number) : number :=
match x with
| Fin a => ofZ (Qceiling a)
| _ => x
end.

(** [Math.min] and [Math.max] of two arguments *)
Definition min (x y : number) : number :=
match x, y with
| NaN, _ | _, NaN => NaN
| _, _ => if lt y x then y else x
end.

Definition max (x y : number) : number :=
match x, y with
| NaN, _ | _, NaN => NaN
| _, _ => if lt x y then y else x
end.

End Num.

(* ===================================================================== *)
(** ** The global function [parseFloat] *)
(* ===================================================================== *)

(** The value of a run of decimal digits. *)
Definition digitsValue (ds : jsstring) : Z :=
  fold_left (λ acc c, 10 * acc + digitValue c) ds 0.

(** [m * 10^e] *)
Definition decimal (m e : Z) : Qc :=
  Q2Qc (if 0 <=? e then inject_Z (m * 10 ^ e)
        else Qmake m (Z.to_pos (10 ^ (- e)))).

(** The value of an ExponentPart at the front of [s]; [0] when there is
    none (an [e] that no digit follows is not part of the literal). *)
Definition parseExponent (s : jsstring) : Z :=
  match s with
  | c :: r =>
      if ((c =? ch "e") || (c =? ch "E"))%N then
        let '(negative, r') :=
          match r with
          | x :: r' =>
              if (x =? ch "-")%N then (true, r')
              else if (x =? ch "+")%N then (false, r')
              else (false, r)
          | [] => (false, r)
          end in
        match fst (span isDigit r') with
        | [] => 0
        | ds => if negative then - digitsValue ds else digitsValue ds
        end
      else 0
  | [] => 0
  end.

(** [parseFloat(s)]: skips leading white space, reads the longest prefix
    that is a StrDecimalLiteral and returns its value, or [NaN] when there
    is no such prefix. *)
Definition parseFloat (s : jsstring) : number :=
  let t := trimStart s in
  let '(negative, u) :=
    match t with
    | c :: r =>
        if (c =? ch "-")%N then (true, r)
        else if (c =? ch "+")%N then (false, r)
        else (false, t)
    | [] => (false, t)
    end in
  if startsWith (str "Infinity") u then Infinity negative
  else
    let '(ip, r1) := span isDigit u in
    let '(fp, r2) :=
      match r1 with
      | c :: r => if (c =? ch ".")%N then span isDigit r else ([], r1)
      | [] => ([], r1)
      end in
    match ip, fp with
    | [], [] => NaN
    | _, _ =>
        let v := decimal (digitsValue (ip ++ fp))
                         (parseExponent r2 - Z.of_nat (length fp)) in
        Fin (if negative then (- v)%Qc else v)
    end.

(* ===================================================================== *)
(** ** lib/utils.ts *)
(* ===================================================================== *)

Definition isDot (c : code_unit) : bool := (c =? ch ".")%N.

Definition isEmpty (s : jsstring) : bool :=
  match s with [] => true | _ => false end.

(** [normalizePrice(priceStr)] *)
Definition normalizePrice (priceStr : jsstring) : number :=
  if isEmpty priceStr || isEmpty (trim priceStr) then Num.ofZ 0
  else
    let cleaned := removeAll isWhiteSpace (trim priceStr) in
    let cleaned :=
      if includesChar (ch ",") cleaned then
        replaceFirst (ch ",") (ch ".") (removeAll isDot cleaned)
      else if includesChar (ch ".") cleaned then
        let parts := split (ch ".") cleaned in
        if (length parts =? 2)%nat then
          if (length (nth 1 parts []) =? 2)%nat then cleaned
          else removeAll isDot cleaned
        else removeAll isDot cleaned
      else cleaned in
    let num := parseFloat cleaned in
    if Num.isNaN num then Num.ofZ 0 else num.

(** *** The two regular expressions of [extractStorageInGB]

    [/(\d+(?:[.,]\d+)?)\s*TB/i] and the same with [GB].  The matcher is
    the backtracking one of ECMAScript: a quantifier first takes as much
    as it can and gives characters back when what follows fails. *)

(** [p*] followed by [k]; [acc] is the text matched since the start of
    the capture group. *)
Fixpoint star {A} (p : code_unit → bool) (acc : jsstring)
    (k : jsstring → jsstring → option A) (s : jsstring) : option A :=
  match s with
  | c :: r =>
      if p c then
        match star p (acc ++ [c]) k r with
        | Some a => Some a
        | None => k acc s
        end
      else k acc s
  | [] => k acc []
  end.

(** [p+] followed by [k] *)
Definition plus {A} (p : code_unit → bool) (acc : jsstring)
    (k : jsstring → jsstring → option A) (s : jsstring) : option A :=
  match s with
  | c :: r => if p c then star p (acc ++ [c]) k r else None
  | [] => None
  end.

(** A letter of the pattern under the [i] flag. *)
Definition ignoreCase (letter c : code_unit) : bool :=
  ((c =? letter) || (c =? letter + 32))%N.

Definition isSeparator (c : code_unit) : bool :=
  ((c =? ch ".") || (c =? ch ","))%N.

(** [\s*] then the two letters of the unit; yields the capture. *)
Definition unitTail (u : code_unit) (capture s : jsstring) : option jsstring :=
  star isWhiteSpace []
    (λ _ r, match r with
            | a :: b :: _ =>
                if ignoreCase u a && ignoreCase (ch "B") b then Some capture
                else None
            | _ => None
            end) s.

(** The whole pattern, anchored at the front of [s]; yields group 1. *)
Definition matchHere (u : code_unit) (s : jsstring) : option jsstring :=
  plus isDigit []
    (λ d1 r1,
       match
         match r1 with
         | c :: r =>
             if isSeparator c then plus isDigit (d1 ++ [c]) (unitTail u) r
             else None
         | [] => None
         end
       with
       | Some m => Some m
       | None => unitTail u d1 r1
       end) s.

(** [s.match(pattern)]: the first position from the left where the
    pattern matches; yields [match[1]]. *)
Fixpoint search (u : code_unit) (s : jsstring) : option jsstring :=
  match matchHere u s with
  | Some m => Some m
  | None => match s with
            | [] => None
            | _ :: r => search u r
            end
  end.

Record RegExp := {
  source : jsstring;
  exec : jsstring → option jsstring;
}.

Definition patterns : list RegExp :=
  [ {| source := str "(\d+(?:[.,]\d+)?)\s*TB"; exec := search (ch "T") |};
    {| source := str "(\d+(?:[.,]\d+)?)\s*GB"; exec := search (ch "G") |} ].

(** [extractStorageInGB(storageStr)]; [None] is [null]. *)
Definition extractStorageInGB (storageStr : jsstring) : option number :=
  if isEmpty storageStr || isEmpty (trim storageStr) then None
  else
    (fix loop (ps : list RegExp) : option number :=
       match ps with
       | [] => None
       | pattern :: rest =>
           match exec pattern storageStr with
           | Some m1 =>
               let value := parseFloat (replaceFirst (ch ",") (ch ".") m1) in
               if negb (Num.isNaN value) then
                 if includes (str "TB") (source pattern)
                 then Some (Num.mul value (Num.ofZ 1024))
                 else Some value
               else loop rest
           | None => loop rest
           end
       end) patterns.

(** [hasGames(jogosIncluidos)] *)
Definition hasGames (jogosIncluidos : jsstring) : bool :=
  negb (isEmpty (trim jogosIncluidos)).


(* ===================================================================== *)
(** ** lib/types.ts *)
(* ===================================================================== *)

Module Raw.
(** [RawProduct]: a listing as it is in the JSON files. *)
Record RawProduct := {
  preco_vista : jsstring;
  preco_parcelado : jsstring;
  modelo : jsstring;
  nome_anuncio : jsstring;
  link_pagina : jsstring;
  tipo : jsstring;
  console_type : jsstring;
  cor : jsstring;
  com_leitor_disco : jsstring;
  espaco_armazenamento : jsstring;
  jogos_incluidos : jsstring;
  inclui_controles : jsstring;
  marca : jsstring;
  site_origem : jsstring;
  data_coleta : jsstring;
  disponibilidade : jsstring;
}.
End Raw.
Abbreviation RawProduct := Raw.RawProduct.

(** [Product]: a normalised listing. *)
Record Product := {
  preco_vista : number;
  preco_parcelado : jsstring;
  modelo : jsstring;
  nome_anuncio : jsstring;
  link_pagina : jsstring;
  tipo : jsstring;
  console_type : jsstring;
  cor : jsstring;
  com_leitor_disco : jsstring;
  espaco_armazenamento : jsstring;
  espaco_armazenamento_gb : option number;
  jogos_incluidos : jsstring;
  inclui_jogos : bool;
  inclui_controles : jsstring;
  marca : jsstring;
  site_origem : jsstring;
  data_coleta : jsstring;
  disponibilidade : jsstring;
}.

(** What a property read can give here: a number, or [undefined] when the
    object has no such property. *)
Inductive value :=
  | Undefined
  | Number (n : number).

(** [ToNumber] *)
Definition toNumber (v : value) : number :=
  match v with
  | Undefined => NaN
  | Number n => n
  end.

(** [p.originalIndex].  [Product] declares no such property and the object
    literal of [loadProducts] sets none: it spreads the [RawProduct] and
    adds [preco_vista], [espaco_armazenamento_gb] and [inclui_jogos].  The
    read therefore gives [undefined]. *)
Definition originalIndex (p : Product) : value := Undefined.

Module Filters.
(** [SearchFilters]; [None] is [undefined]. *)
Record SearchFilters := {
  query : option jsstring;
  precoMin : option number;
  precoMax : option number;
  modelo : option (list jsstring);
  tipo : option (list jsstring);
  marca : option (list jsstring);
  site_origem : option (list jsstring);
  inclui_controles : option jsstring;
  inclui_jogos : option bool;
  espacoMin : option number;
  espacoMax : option number;
  sortBy : option jsstring;
  page : option number;
  limit : option number;
}.
End Filters.
Abbreviation SearchFilters := Filters.SearchFilters.

Module Response.
(** The [filters] member of [SearchResponse], which is what
    [getFilterValues] returns. *)
Record FilterValues := {
  modelos : list jsstring;
  tipos : list jsstring;
  marcas : list jsstring;
  sites : list jsstring;
  precoMin : number;
  precoMax : number;
  espacoMin : number;
  espacoMax : number;
}.

(** [SearchResponse]; [total] is an array length. *)
Record SearchResponse := {
  products : list Product;
  total : nat;
  page : number;
  limit : number;
  totalPages : number;
  filters : FilterValues;
}.
End Response.
Abbreviation FilterValues := Response.FilterValues.
Abbreviation SearchResponse := Response.SearchResponse.

(* ===================================================================== *)
(** ** Arrays *)
(* ===================================================================== *)

(** *** [Array.prototype.sort]

    ECMAScript asks for a stable sort and fixes the result for a
    consistent comparator; insertion from the right computes it.  A
    comparator result that is [NaN] counts as [+0].  (For a comparator
    that is not consistent the standard leaves the order open; the
    comparators of [GET] are consistent on prices that are not [NaN].) *)

Definition sortCompare {A} (comparefn : A → A → number) (x y : A) : number :=
  let v := comparefn x y in
  if Num.isNaN v then Num.ofZ 0 else v.

Fixpoint insert {A} (comparefn : A → A → number) (x : A) (l : list A)
    : list A :=
  match l with
  | [] => [x]
  | y :: r =>
      if Num.gt (sortCompare comparefn x y) (Num.ofZ 0)
      then y :: insert comparefn x r
      else x :: l
  end.

Definition sort {A} (comparefn : A → A → number) (l : list A) : list A :=
  foldr (insert comparefn) [] l.

(** The comparator of [sort()] without argument, on strings: the order of
    the code units. *)
Definition defaultCompare (a b : jsstring) : number :=
  match list_compare N.compare a b with
  | Lt => Num.ofZ (-1)
  | Eq => Num.ofZ 0
  | Gt => Num.ofZ 1
  end.

(** *** [Array.prototype.slice] *)

Inductive integerOrInfinity :=
  | NegInfinity
  | Int (z : Z)
  | PosInfinity.

Definition toIntegerOrInfinity (x : number) : integerOrInfinity :=
  match x with
  | NaN => Int 0
  | Infinity true => NegInfinity
  | Infinity false => PosInfinity
  | Fin q => Int (Z.quot (Qnum q) (Zpos (Qden q)))
  end.

(** A relative index clamped into [0..len]. *)
Definition clampIndex (len : nat) (i : integerOrInfinity) : nat :=
  match i with
  | NegInfinity => 0%nat
  | Int z =>
      if z <? 0 then Z.to_nat (Z.max (Z.of_nat len + z) 0)
      else Z.to_nat (Z.min z (Z.of_nat len))
  | PosInfinity => len
  end.

Definition slice {A} (startIndex endIndex : number) (l : list A) : list A :=
  let k := clampIndex (length l) (toIntegerOrInfinity startIndex) in
  let final := clampIndex (length l) (toIntegerOrInfinity endIndex) in
  take (final - k) (drop k l).

(** *** [Set] of strings: the members in insertion order *)

Definition Set_add (x : jsstring) (s : list jsstring) : list jsstring :=
  if bool_decide (x ∈ s) then s else s ++ [x].

(* ===================================================================== *)
(** ** The heap and the module state of lib/data-loader.ts *)
(* ===================================================================== *)

Abbreviation loc := nat.

Record state := {
  heap : list (list Product);      (* the arrays of products allocated so far *)
  cachedProducts : option loc;     (* [let cachedProducts: Product[] | null] *)
}.

Definition initial : state := {| heap := []; cachedProducts := None |}.

(** The two JSON files; [None] when [readFileSync] or [JSON.parse] throws. *)
Record files := {
  magazineluiza_products : option (list RawProduct);
  mercadolivre_products : option (list RawProduct);
}.

Definition M (A : Type) : Type := state → A * state.

Global Instance M_ret : MRet M := λ A a st, (a, st).
Global Instance M_bind : MBind M :=
  λ A B k m st, let '(a, st') := m st in k a st'.

(** The elements of the array at [r]. *)
Definition deref (st : state) (r : loc) : list Product :=
  default [] (heap st !! r).

Definition alloc (l : list Product) : M loc :=
  λ st, (length (heap st),
         {| heap := heap st ++ [l]; cachedProducts := cachedProducts st |}).

Definition read (r : loc) : M (list Product) := λ st, (deref st r, st).

Definition write (r : loc) (l : list Product) : M unit :=
  λ st, (tt, {| heap := <[r := l]> (heap st);
                cachedProducts := cachedProducts st |}).

Definition setCachedProducts (r : loc) : M unit :=
  λ st, (tt, {| heap := heap st; cachedProducts := Some r |}).

(** [a.filter(f)]: a new array *)
Definition Array_filter (f : Product → bool) (r : loc) : M loc :=
  l ← read r; alloc (filter (λ p, Is_true (f p)) l).

(** [a.sort(comparefn)]: sorts the array itself *)
Definition Array_sort (comparefn : Product → Product → number) (r : loc)
    : M unit :=
  l ← read r; write r (sort comparefn l).

(** [a.slice(startIndex, endIndex)]: a new array *)
Definition Array_slice (startIndex endIndex : number) (r : loc) : M loc :=
  l ← read r; alloc (slice startIndex endIndex l).

(* ===================================================================== *)
(** ** lib/data-loader.ts *)
(* ===================================================================== *)

(** The object literal of [loadProducts]. *)
Definition normalize (raw : RawProduct) : Product := {|
  preco_vista := normalizePrice (Raw.preco_vista raw);
  preco_parcelado := Raw.preco_parcelado raw;
  modelo := Raw.modelo raw;
  nome_anuncio := Raw.nome_anuncio raw;
  link_pagina := Raw.link_pagina raw;
  tipo := Raw.tipo raw;
  console_type := Raw.console_type raw;
  cor := Raw.cor raw;
  com_leitor_disco := Raw.com_leitor_disco raw;
  espaco_armazenamento := Raw.espaco_armazenamento raw;
  espaco_armazenamento_gb := extractStorageInGB (Raw.espaco_armazenamento raw);
  jogos_incluidos := Raw.jogos_incluidos raw;
  inclui_jogos := hasGames (Raw.jogos_incluidos raw);
  inclui_controles := Raw.inclui_controles raw;
  marca := Raw.marca raw;
  site_origem := Raw.site_origem raw;
  data_coleta := Raw.data_coleta raw;
  disponibilidade := Raw.disponibilidade raw;
|}.

(** [loadProducts()].  An array is truthy even when empty, so a cached
    array is always returned.  Both files are read inside the [try]; when
    either read throws, the [catch] returns a new empty array and the
    cache is not assigned. *)
Definition loadProducts (fs : files) : M loc :=
  λ st,
    match cachedProducts st with
    | Some cached => (cached, st)
    | None =>
        match magazineluiza_products fs, mercadolivre_products fs with
        | Some magazineluizaData, Some mercadolivreData =>
            (let allRawProducts := magazineluizaData ++ mercadolivreData in
             normalizedProducts ← alloc (map normalize allRawProducts);
             setCachedProducts normalizedProducts;;
             mret normalizedProducts) st
        | _, _ => alloc [] st
        end
    end.

(** A string used as a condition: the empty string is falsy. *)
Definition truthy (s : jsstring) : bool := negb (isEmpty s).

Module Locals.
(** The local variables of [getFilterValues]. *)
Record vars := {
  modelos : list jsstring;
  tipos : list jsstring;
  marcas : list jsstring;
  sites : list jsstring;
  precoMin : number;
  precoMax : number;
  espacoMin : number;
  espacoMax : number;
}.
End Locals.

(** [if (field && field.trim()) { set.add(field) }] *)
Definition keep (field : jsstring) (set : list jsstring) : list jsstring :=
  if truthy field && truthy (trim field) then Set_add field set else set.

(** [if (product.preco_vista > 0) { m = f(m, product.preco_vista) }] *)
Definition widenPrice (f : number → number → number) (m : number)
    (product : Product) : number :=
  if Num.gt (preco_vista product) (Num.ofZ 0) then f m (preco_vista product)
  else m.

(** [if (product.espaco_armazenamento_gb !== null) { m = f(m, ...) }] *)
Definition widenStorage (f : number → number → number) (m : number)
    (product : Product) : number :=
  match espaco_armazenamento_gb product with
  | Some gb => f m gb
  | None => m
  end.

(** The body of the [forEach] of [getFilterValues]. *)
Definition visit (v : Locals.vars) (product : Product) : Locals.vars :=
  {| Locals.modelos := keep (modelo product) (Locals.modelos v);
     Locals.tipos := keep (tipo product) (Locals.tipos v);
     Locals.marcas := keep (marca product) (Locals.marcas v);
     Locals.sites := keep (site_origem product) (Locals.sites v);
     Locals.precoMin := widenPrice Num.min (Locals.precoMin v) product;
     Locals.precoMax := widenPrice Num.max (Locals.precoMax v) product;
     Locals.espacoMin := widenStorage Num.min (Locals.espacoMin v) product;
     Locals.espacoMax := widenStorage Num.max (Locals.espacoMax v) product |}.

(** [getFilterValues(products)] *)
Definition getFilterValues (products : list Product) : FilterValues :=
  let v := fold_left visit products
    {| Locals.modelos := []; Locals.tipos := []; Locals.marcas := [];
       Locals.sites := [];
       Locals.precoMin := Infinity false; Locals.precoMax := Num.ofZ 0;
       Locals.espacoMin := Infinity false; Locals.espacoMax := Num.ofZ 0 |} in
  {| Response.modelos := sort defaultCompare (Locals.modelos v);
     Response.tipos := sort defaultCompare (Locals.tipos v);
     Response.marcas := sort defaultCompare (Locals.marcas v);
     Response.sites := sort defaultCompare (Locals.sites v);
     Response.precoMin :=
       if Num.eqb (Locals.precoMin v) (Infinity false) then Num.ofZ 0
       else Num.floor (Locals.precoMin v);
     Response.precoMax :=
       if Num.eqb (Locals.precoMax v) (Num.ofZ 0) then Num.ofZ 10000
       else Num.ceil (Locals.precoMax v);
     Response.espacoMin :=
       if Num.eqb (Locals.espacoMin v) (Infinity false) then Num.ofZ 0
       else Num.floor (Locals.espacoMin v);
     Response.espacoMax :=
       if Num.eqb (Locals.espacoMax v) (Num.ofZ 0) then Num.ofZ 2000
       else Num.ceil (Locals.espacoMax v) |}.

(* ===================================================================== *)
(** ** app/api/products/route.ts *)
(* ===================================================================== *)

(** [x || d] on an optional number: [undefined], [NaN] and [0] are falsy. *)
Definition orDefault (x : option number) (d : number) : number :=
  match x with
  | Some v => if Num.isNaN v || Num.isZero v then d else v
  | None => d
  end.

(** [filters.sortBy === name] *)
Definition sortByIs (filters : SearchFilters) (name : string) : bool :=
  match Filters.sortBy filters with
  | Some s => jsstring_eqb s (str name)
  | None => false
  end.

(** [filters.x && filters.x.length > 0] *)
Definition nonEmpty (x : option (list jsstring)) : bool :=
  match x with
  | Some (_ :: _) => true
  | _ => false
  end.

(** [list.includes(s)] on an array of strings *)
Definition Array_includes (list : option (list jsstring)) (s : jsstring)
    : bool :=
  bool_decide (s ∈ default [] list).

Section Route.

(** [String.prototype.toLowerCase]: the Unicode case mapping is not
    spelled out; everything below holds for any function. *)
Variable toLowerCase : jsstring → jsstring.

Definition searchableText (product : Product) : jsstring :=
  toLowerCase
    (join (str " ")
       (filter (λ s, Is_true (truthy s))
          [nome_anuncio product; modelo product; tipo product;
           marca product; cor product])).

(** [if (cond) { products = products.filter(f) }] *)
Definition filterIf (cond : bool) (f : Product → bool) (products : loc)
    : M loc :=
  if cond then Array_filter f products else mret products.

(** The text search and the ten filters of [GET]: one entry for each
    [if] statement, in the order of the source, with its condition and
    the function it passes to [filter]. *)
Definition filterSteps (filters : SearchFilters)
    : list (bool * (Product → bool)) :=
  [ (from_option truthy false (Filters.query filters),
     λ product,
       let queryLower := toLowerCase (default [] (Filters.query filters)) in
       includes queryLower (searchableText product));
    (bool_decide (Filters.precoMin filters ≠ None),
     λ p, Num.ge (preco_vista p) (default NaN (Filters.precoMin filters)));
    (bool_decide (Filters.precoMax filters ≠ None),
     λ p, Num.le (preco_vista p) (default NaN (Filters.precoMax filters)));
    (nonEmpty (Filters.modelo filters),
     λ p, Array_includes (Filters.modelo filters) (modelo p));
    (nonEmpty (Filters.tipo filters),
     λ p, Array_includes (Filters.tipo filters) (tipo p));
    (nonEmpty (Filters.marca filters),
     λ p, Array_includes (Filters.marca filters) (marca p));
    (nonEmpty (Filters.site_origem filters),
     λ p, Array_includes (Filters.site_origem filters) (site_origem p));
    (bool_decide (Filters.inclui_controles filters ≠ None),
     λ p, bool_decide (Some (inclui_controles p)
                       = Filters.inclui_controles filters));
    (bool_decide (Filters.inclui_jogos filters ≠ None),
     λ p, bool_decide (Some (inclui_jogos p) = Filters.inclui_jogos filters));
    (bool_decide (Filters.espacoMin filters ≠ None),
     λ p, match espaco_armazenamento_gb p with
          | Some gb => Num.ge gb (default NaN (Filters.espacoMin filters))
          | None => false
          end);
    (bool_decide (Filters.espacoMax filters ≠ None),
     λ p, match espaco_armazenamento_gb p with
          | Some gb => Num.le gb (default NaN (Filters.espacoMax filters))
          | None => false
          end) ].

(** The [if] statements run one after the other on the variable
    [products]. *)
Fixpoint runSteps (steps : list (bool * (Product → bool))) (products : loc)
    : M loc :=
  match steps with
  | [] => mret products
  | (cond, f) :: rest =>
      products ← filterIf cond f products;
      runSteps rest products
  end.

Definition applyFilters (filters : SearchFilters) (products : loc) : M loc :=
  runSteps (filterSteps filters) products.

Definition byPriceAscending (a b : Product) : number :=
  Num.sub (preco_vista a) (preco_vista b).

Definition byPriceDescending (a b : Product) : number :=
  Num.sub (preco_vista b) (preco_vista a).

Definition byOriginalIndex (a b : Product) : number :=
  Num.sub (toNumber (originalIndex a)) (toNumber (originalIndex b)).

(** The three branches of the ordering step; any other [sortBy] leaves
    the array as it is. *)
Definition applySort (filters : SearchFilters) (products : loc) : M unit :=
  if sortByIs filters "preco_asc" then Array_sort byPriceAscending products
  else if sortByIs filters "preco_desc" then
    Array_sort byPriceDescending products
  else if sortByIs filters "original"
          || negb (from_option truthy false (Filters.sortBy filters)) then
    Array_sort byOriginalIndex products
  else mret tt.

(** [GET(request)], from the [filters] object on: reading the query
    string into [filters] is [filtersOf], further down.  Nothing in the
    body throws, so the [catch] that answers with status 500 is never
    entered. *)
Definition GET (fs : files) (filters : SearchFilters) : M SearchResponse :=
  products ← loadProducts fs;
  products ← applyFilters filters products;
  applySort filters products;;
  sorted ← read products;
  let total := length sorted in
  let page := orDefault (Filters.page filters) (Num.ofZ 1) in
  let limit := orDefault (Filters.limit filters) (Num.ofZ 20) in
  let startIndex := Num.mul (Num.sub page (Num.ofZ 1)) limit in
  let endIndex := Num.add startIndex limit in
  paginatedProducts ← Array_slice startIndex endIndex products;
  allProducts ← loadProducts fs;
  all ← read allProducts;
  let filterValues := getFilterValues all in
  paginated ← read paginatedProducts;
  mret {| Response.products := paginated;
          Response.total := total;
          Response.page := page;
          Response.limit := limit;
          Response.totalPages :=
            Num.ceil (Num.div (Num.ofZ (Z.of_nat total)) limit);
          Response.filters := filterValues |}.

(** *** Vocabulary for the properties of [GET] *)

(** The record passes every filter that is switched on. *)
Definition selected (filters : SearchFilters) (p : Product) : bool :=
  forallb (λ step : bool * (Product → bool), implb step.1 (step.2 p))
          (filterSteps filters).

(** No filter is switched on. *)
Definition unfiltered (filters : SearchFilters) : bool :=
  forallb (λ step : bool * (Product → bool), negb step.1)
          (filterSteps filters).

(** What the ordering step makes of an array. *)
Definition ordered (filters : SearchFilters) (l : list Product)
    : list Product :=
  if sortByIs filters "preco_asc" then sort byPriceAscending l
  else if sortByIs filters "preco_desc" then sort byPriceDescending l
  else if sortByIs filters "original"
          || negb (from_option truthy false (Filters.sortBy filters)) then
    sort byOriginalIndex l
  else l.

End Route.

(* ===================================================================== *)
(** ** Queries and files for the examples *)
(* ===================================================================== *)

(** A case mapping for the ASCII letters, to run [GET] on examples. *)
Definition asciiLower (s : jsstring) : jsstring :=
  map (λ c, if ((65 <=? c) && (c <=? 90))%N then (c + 32)%N else c) s.

Definition mkRaw (name price storage games site : string) : RawProduct :=
  {| Raw.preco_vista := str price; Raw.preco_parcelado := [];
     Raw.modelo := str "Slim"; Raw.nome_anuncio := str name;
     Raw.link_pagina := []; Raw.tipo := str "Console";
     Raw.console_type := []; Raw.cor := str "Branco";
     Raw.com_leitor_disco := str "Sim";
     Raw.espaco_armazenamento := str storage;
     Raw.jogos_incluidos := str games; Raw.inclui_controles := str "Sim";
     Raw.marca := str "Sony"; Raw.site_origem := str site;
     Raw.data_coleta := []; Raw.disponibilidade := [] |}.

Definition noFilters : SearchFilters :=
  {| Filters.query := None; Filters.precoMin := None; Filters.precoMax := None;
     Filters.modelo := None; Filters.tipo := None; Filters.marca := None;
     Filters.site_origem := None; Filters.inclui_controles := None;
     Filters.inclui_jogos := None; Filters.espacoMin := None;
     Filters.espacoMax := None; Filters.sortBy := Some (str "original");
     Filters.page := Some (Num.ofZ 1); Filters.limit := Some (Num.ofZ 20) |}.

Definition withSort (s : string) (f : SearchFilters) : SearchFilters :=
  {| Filters.query := Filters.query f; Filters.precoMin := Filters.precoMin f;
     Filters.precoMax := Filters.precoMax f; Filters.modelo := Filters.modelo f;
     Filters.tipo := Filters.tipo f; Filters.marca := Filters.marca f;
     Filters.site_origem := Filters.site_origem f;
     Filters.inclui_controles := Filters.inclui_controles f;
     Filters.inclui_jogos := Filters.inclui_jogos f;
     Filters.espacoMin := Filters.espacoMin f;
     Filters.espacoMax := Filters.espacoMax f; Filters.sortBy := Some (str s);
     Filters.page := Filters.page f; Filters.limit := Filters.limit f |}.

Definition withPage (n : number) (f : SearchFilters) : SearchFilters :=
  {| Filters.query := Filters.query f; Filters.precoMin := Filters.precoMin f;
     Filters.precoMax := Filters.precoMax f; Filters.modelo := Filters.modelo f;
     Filters.tipo := Filters.tipo f; Filters.marca := Filters.marca f;
     Filters.site_origem := Filters.site_origem f;
     Filters.inclui_controles := Filters.inclui_controles f;
     Filters.inclui_jogos := Filters.inclui_jogos f;
     Filters.espacoMin := Filters.espacoMin f;
     Filters.espacoMax := Filters.espacoMax f;
     Filters.sortBy := Filters.sortBy f;
     Filters.page := Some n; Filters.limit := Filters.limit f |}.

Definition demoFiles : files :=
  {| magazineluiza_products :=
       Some [mkRaw "PS5 A" "3999.00" "825 GB" "" "magalu";
             mkRaw "PS5 B" "4.499" "1 TB" "GTA" "magalu"];
     mercadolivre_products :=
       Some [mkRaw "PS5 C" "449,90" "" "" "ml"] |}.


(* ===================================================================== *)
(** ** app/api/products/route.ts: the query string *)
(* ===================================================================== *)

(** [URLSearchParams]: the pairs of the query string, in their order. *)
Abbreviation URLSearchParams := (list (jsstring * jsstring)).

(** [searchParams.get(name)]: the value of the first pair of that name,
    [null] when there is none. *)
Fixpoint get (name : jsstring) (searchParams : URLSearchParams)
    : option jsstring :=
  match searchParams with
  | [] => None
  | (n, v) :: rest => if jsstring_eqb n name then Some v else get name rest
  end.

(** [x || undefined] on what [get] returns: [null] and the empty string
    are falsy. *)
Definition orUndefined (x : option jsstring) : option jsstring :=
  match x with
  | Some s => if truthy s then Some s else None
  | None => None
  end.

(** *** The global function [parseInt], without a radix argument *)

Definition isHexDigit (c : code_unit) : bool :=
  (isDigit c || (97 <=? c) && (c <=? 102) || (65 <=? c) && (c <=? 70))%N.

Definition hexDigitValue (c : code_unit) : Z :=
  if isDigit c then Z.of_N c - 48
  else if (97 <=? c)%N then Z.of_N c - 87
  else Z.of_N c - 55.

(** The binary64 number that a whole number [n ≥ 0] is rounded to: [n]
    itself below 2^53; from there on the nearest number with 53
    significant bits, the even one of two nearest, and [+∞] when that is
    2^1024 or more. *)
Definition toBinary64 (n : Z) : number :=
  if n <? 2 ^ 53 then Num.ofZ n
  else
    let e := Z.log2 n - 52 in
    let q := n / 2 ^ e in
    let r := n mod 2 ^ e in
    let half := 2 ^ (e - 1) in
    let q := if (half <? r) || (r =? half) && Z.odd q then q + 1 else q in
    if 2 ^ 1024 <=? q * 2 ^ e then Infinity false else Num.ofZ (q * 2 ^ e).

(** [parseInt(s)]: skips leading white space, reads a sign, takes radix 16
    after a [0x] or [0X] and radix 10 otherwise, and returns the value of
    the longest run of digits that follows, rounded to binary64, or [NaN]
    when there is no digit.  (Past the 20th significant digit ECMAScript
    lets an implementation read the digits as 0; the embedding reads
    them all.) *)
Definition parseInt (s : jsstring) : number :=
  let t := trimStart s in
  let '(negative, u) :=
    match t with
    | c :: r =>
        if (c =? ch "-")%N then (true, r)
        else if (c =? ch "+")%N then (false, r)
        else (false, t)
    | [] => (false, t)
    end in
  let '(radix, v) :=
    match u with
    | a :: b :: r =>
        if ((a =? ch "0") && ((b =? ch "x") || (b =? ch "X")))%N then (16, r)
        else (10, u)
    | _ => (10, u)
    end in
  match fst (span (if radix =? 16 then isHexDigit else isDigit) v) with
  | [] => NaN
  | ds =>
      let n := fold_left (λ acc c, radix * acc + hexDigitValue c) ds 0 in
      if negative then Num.neg (toBinary64 n) else toBinary64 n
  end.

(** [searchParams.get(name) || undefined] *)
Definition param (searchParams : URLSearchParams) (name : string)
    : option jsstring :=
  orUndefined (get (str name) searchParams).

(** *** The object literal [filters] of [GET]

    [get(name) ? f(get(name)!) : undefined] is [f <$> orUndefined (get name)]. *)
Definition filtersOf (searchParams : URLSearchParams) : SearchFilters :=
  {| Filters.query := param searchParams "query";
     Filters.precoMin := parseFloat <$> param searchParams "precoMin";
     Filters.precoMax := parseFloat <$> param searchParams "precoMax";
     Filters.modelo := split (ch ",") <$> param searchParams "modelo";
     Filters.tipo := split (ch ",") <$> param searchParams "tipo";
     Filters.marca := split (ch ",") <$> param searchParams "marca";
     Filters.site_origem :=
       split (ch ",") <$> param searchParams "site_origem";
     Filters.inclui_controles := param searchParams "inclui_controles";
     Filters.inclui_jogos :=
       if bool_decide (get (str "inclui_jogos") searchParams
                       = Some (str "true"))
       then Some true else None;
     Filters.espacoMin := parseFloat <$> param searchParams "espacoMin";
     Filters.espacoMax := parseFloat <$> param searchParams "espacoMax";
     Filters.sortBy :=
       Some (default (str "original") (param searchParams "sortBy"));
     Filters.page :=
       Some (from_option parseInt (Num.ofZ 1) (param searchParams "page"));
     Filters.limit :=
       Some (from_option parseInt (Num.ofZ 20)
               (param searchParams "limit")) |}.

(** [GET(request)] from the query string on. *)
Definition GET_request (toLowerCase : jsstring → jsstring) (fs : files)
    (searchParams : URLSearchParams) : M SearchResponse :=
  GET toLowerCase fs (filtersOf searchParams).

(* ===================================================================== *)
(** ** app/page.tsx *)
(* ===================================================================== *)

(** A number used as a condition: [NaN] and [0] are falsy. *)
Definition numberTruthy (x : option number) : bool :=
  match x with
  | Some v => negb (Num.isNaN v || Num.isZero v)
  | None => false
  end.

(** [if (cond) params.append(name, value)] *)
Definition entry (cond : bool) (name : string) (value : jsstring)
    : option (jsstring * jsstring) :=
  if cond then Some (str name, value) else None.

Section Page.

(** [Number.prototype.toString]: the digits it prints are not spelled out;
    everything below holds for any function. *)
Variable toString : number → jsstring.

(** The query string that [fetchProducts] builds: one entry for each [if]
    statement, in the order of the source; [params] holds the entries
    whose condition is true.  [fetch] sends [params.toString()] and the
    route parses it back: that passage is taken to hand over the pairs as
    they are, which it does for well-formed texts. *)
Definition searchParamsOf (filters : SearchFilters) : URLSearchParams :=
  let text (x : option jsstring) := default [] x in
  let num (x : option number) := toString (default NaN x) in
  let list (x : option (list jsstring)) := join (str ",") (default [] x) in
  omap id
    [ entry (from_option truthy false (Filters.query filters))
        "query" (text (Filters.query filters));
      entry (bool_decide (Filters.precoMin filters ≠ None))
        "precoMin" (num (Filters.precoMin filters));
      entry (bool_decide (Filters.precoMax filters ≠ None))
        "precoMax" (num (Filters.precoMax filters));
      entry (nonEmpty (Filters.modelo filters))
        "modelo" (list (Filters.modelo filters));
      entry (nonEmpty (Filters.tipo filters))
        "tipo" (list (Filters.tipo filters));
      entry (nonEmpty (Filters.marca filters))
        "marca" (list (Filters.marca filters));
      entry (nonEmpty (Filters.site_origem filters))
        "site_origem" (list (Filters.site_origem filters));
      entry (from_option truthy false (Filters.inclui_controles filters))
        "inclui_controles" (text (Filters.inclui_controles filters));
      entry (bool_decide (Filters.inclui_jogos filters ≠ None))
        "inclui_jogos"
        (if default false (Filters.inclui_jogos filters) then str "true"
         else str "false");
      entry (bool_decide (Filters.espacoMin filters ≠ None))
        "espacoMin" (num (Filters.espacoMin filters));
      entry (bool_decide (Filters.espacoMax filters ≠ None))
        "espacoMax" (num (Filters.espacoMax filters));
      entry (from_option truthy false (Filters.sortBy filters))
        "sortBy" (text (Filters.sortBy filters));
      entry (numberTruthy (Filters.page filters))
        "page" (num (Filters.page filters));
      entry (numberTruthy (Filters.limit filters))
        "limit" (num (Filters.limit filters)) ].

End Page.

(** *** The page buttons

    [totalPages] and [currentPage] come from the response and are whole
    numbers there.  The block of the buttons is rendered under a guard,
    which is part of [pageBar] below; [pageButtons] and [pageItems] are
    the two expressions inside it. *)

(** [Array.from({ length: totalPages }, (_, i) => i + 1).filter(...)]: the
    first page, the last one, the current one and its two neighbours. *)
Definition pageButtons (totalPages currentPage : Z) : list Z :=
  filter (λ page, page = 1 ∨ page = totalPages
                  ∨ (currentPage - 1 ≤ page ∧ page ≤ currentPage + 1))
         ((λ i, i + 1) <$> seqZ 0 totalPages).

(** [prevPage && page - prevPage > 1], where [prevPage] is
    [array[index - 1]]: [undefined] at index 0. *)
Definition showEllipsis (array : list Z) (index : nat) (page : Z) : bool :=
  match index with
  | O => false
  | S i =>
      match array !! i with
      | Some prevPage =>
          bool_decide (prevPage ≠ 0) && bool_decide (page - prevPage > 1)
      | None => false
      end
  end.

(** What [map] renders: each button with the mark of an ellipsis before
    it. *)
Definition pageItems (totalPages currentPage : Z) : list (bool * Z) :=
  let array := pageButtons totalPages currentPage in
  imap (λ index page, (showEllipsis array index page, page)) array.

(** [{totalPages > 1 && !loading && (...)}]: the numbered buttons of the
    bar when it is rendered, [None] when it is not.  (The buttons
    [Anterior] and [Próxima] at its two ends are left out.) *)
Definition pageBar (loading : bool) (totalPages currentPage : Z)
    : option (list (bool * Z)) :=
  if (1 <? totalPages) && negb loading
  then Some (pageItems totalPages currentPage)
  else None.

(* ===================================================================== *)
(** ** components/FilterPanel.tsx *)
(* ===================================================================== *)

(** The keys of [handleMultiSelectChange]. *)
Inductive listKey :=
  | key_modelo
  | key_tipo
  | key_marca
  | key_site_origem.

(** [localFilters[key]] *)
Definition listAt (key : listKey) (localFilters : SearchFilters)
    : option (list jsstring) :=
  match key with
  | key_modelo => Filters.modelo localFilters
  | key_tipo => Filters.tipo localFilters
  | key_marca => Filters.marca localFilters
  | key_site_origem => Filters.site_origem localFilters
  end.

(** [handleFilterChange(key, value)] for these keys: the new filters are
    [{ ...localFilters, [key]: value, page: 1 }]. *)
Definition handleFilterChange (key : listKey) (value : option (list jsstring))
    (localFilters : SearchFilters) : SearchFilters :=
  {| Filters.query := Filters.query localFilters;
     Filters.precoMin := Filters.precoMin localFilters;
     Filters.precoMax := Filters.precoMax localFilters;
     Filters.modelo :=
       match key with key_modelo => value | _ => Filters.modelo localFilters end;
     Filters.tipo :=
       match key with key_tipo => value | _ => Filters.tipo localFilters end;
     Filters.marca :=
       match key with key_marca => value | _ => Filters.marca localFilters end;
     Filters.site_origem :=
       match key with
       | key_site_origem => value
       | _ => Filters.site_origem localFilters
       end;
     Filters.inclui_controles := Filters.inclui_controles localFilters;
     Filters.inclui_jogos := Filters.inclui_jogos localFilters;
     Filters.espacoMin := Filters.espacoMin localFilters;
     Filters.espacoMax := Filters.espacoMax localFilters;
     Filters.sortBy := Filters.sortBy localFilters;
     Filters.page := Some (Num.ofZ 1);
     Filters.limit := Filters.limit localFilters |}.

(** [handleMultiSelectChange(key, value)]: a click on the check box of
    [value]. *)
Definition handleMultiSelectChange (key : listKey) (value : jsstring)
    (localFilters : SearchFilters) : SearchFilters :=
  let current := default [] (listAt key localFilters) in
  let newValues :=
    if bool_decide (value ∈ current) then filter (λ v, v ≠ value) current
    else current ++ [value] in
  handleFilterChange key
    (if (0 <? length newValues)%nat then Some newValues else None)
    localFilters.

(* ===================================================================== *)
(** * Vocabulary of the properties *)
(* ===================================================================== *)

(** ** States and collections *)

(** The cache, when set, names an allocated array. *)
Definition wf (st : state) : Prop :=
  ∀ c, cachedProducts st = Some c → (c < length (heap st))%nat.

(** What [loadProducts] hands out in state [st]: the cached array, or
    else what the files give. *)
Definition collection (fs : files) (st : state) : list Product :=
  match cachedProducts st with
  | Some c => deref st c
  | None =>
      match magazineluiza_products fs, mercadolivre_products fs with
      | Some a, Some b => map normalize (a ++ b)
      | _, _ => []
      end
  end.

(** The heap of [st'] is the heap of [st] with arrays added at the end. *)
Definition extends (st st' : state) : Prop :=
  ∃ ext, heap st' = heap st ++ ext.

(** ** Orders *)

(** [after comparefn x y]: the comparator puts [x] after [y]. *)
Definition after {A} (comparefn : A → A → number) (x y : A) : bool :=
  Num.gt (sortCompare comparefn x y) (Num.ofZ 0).

Global Instance number_eq_dec : EqDecision number.
Proof. solve_decision. Defined.

(** The order of [sort()] on strings. *)
Definition str_le (a b : jsstring) : Prop :=
  list_compare N.compare a b ≠ Gt.

(** ** Facets *)

(** One of the four sets of [getFilterValues] after the loop over [l],
    started from [s]. *)
Definition distinct (field : Product → jsstring) (l : list Product)
    (s : list jsstring) : list jsstring :=
  fold_left (λ s p, keep (field p) s) l s.

(** [values] is the facet of [field] over [coll]: the distinct values
    of the field that are not blank, in the order of [sort()]. *)
Definition facetOf (field : Product → jsstring) (coll : list Product)
    (values : list jsstring) : Prop :=
  Sorted str_le values
  ∧ NoDup values
  ∧ ∀ x, x ∈ values
         ↔ (∃ p, p ∈ coll ∧ field p = x)
           ∧ truthy x && truthy (trim x) = true.

(** ** Prices *)

(** "A finite, non-negative number". *)
Definition finiteNonNegative (x : number) : bool :=
  match x with
  | Fin q => Num.Qc_leb (Q2Qc 0) q
  | _ => false
  end.

(** *** The rules of the specification

    [parsePrice] follows the wording of the specification, rule by rule;
    it is compared with [normalizePrice] below. *)

(** The text after the first [sep]. *)
Fixpoint afterFirst (sep : code_unit) (s : jsstring) : jsstring :=
  match s with
  | [] => []
  | c :: r => if (c =? sep)%N then r else afterFirst sep r
  end.

Definition countDots (s : jsstring) : nat :=
  length (filter (λ c, Is_true (isDot c)) s).

Definition parsePrice (text : jsstring) : number :=
  (* 1. empty or white space only *)
  if forallb isWhiteSpace text then Num.ofZ 0
  else
    (* 2. strip the white space *)
    let stripped := removeAll isWhiteSpace text in
    let decimalText :=
      (* 3. a comma: dots separate thousands, the comma is the decimal point *)
      if includesChar (ch ",") stripped then
        replaceFirst (ch ",") (ch ".") (removeAll isDot stripped)
      (* 4. exactly one dot and a fractional part of exactly 2 digits *)
      else if (countDots stripped =? 1)%nat
              && (length (afterFirst (ch ".") stripped) =? 2)%nat
              && forallb isDigit (afterFirst (ch ".") stripped) then
        stripped
      (* 5. one or more dots otherwise: they separate thousands *)
      else if (1 <=? countDots stripped)%nat then removeAll isDot stripped
      else stripped in
    (* 6. parse; 0 on failure *)
    match parseFloat decimalText with
    | NaN => Num.ofZ 0
    | num => num
    end.

(** A price text: digits, dots, commas and white space. *)
Definition priceText (s : jsstring) : Prop :=
  Forall (λ c, isDigit c || isSeparator c || isWhiteSpace c = true) s.

(** ** Capacity tokens *)

(** What the two patterns recognise

    [\d+(?:[.,]\d+)?] is a [numeral]; [\s*TB] and [\s*GB], under the [i]
    flag, are a [unitSuffix]; a capacity token is a numeral with a unit
    suffix right after it, anywhere in the text. *)

Definition digits (d : jsstring) : Prop :=
  d ≠ [] ∧ Forall (λ c, isDigit c = true) d.

Inductive numeral : jsstring → Prop :=
  | numeral_whole d : digits d → numeral d
  | numeral_fraction d1 sep d2 :
      digits d1 → isSeparator sep = true → digits d2 →
      numeral (d1 ++ sep :: d2).

Definition unitSuffix (u : code_unit) (s : jsstring) : Prop :=
  ∃ ws a b rest,
    s = ws ++ a :: b :: rest
    ∧ Forall (λ c, isWhiteSpace c = true) ws
    ∧ ignoreCase u a = true
    ∧ ignoreCase (ch "B") b = true.

Definition capacityToken (u : code_unit) (s : jsstring) : Prop :=
  ∃ before n after, s = before ++ n ++ after ∧ numeral n ∧ unitSuffix u after.

(** The letter that distinguishes the two patterns. *)
Definition isUnitLetter (u : code_unit) : Prop :=
  u = ch "T" ∨ u = ch "G".

(** ** Data for the examples *)

Definition names (l : list Product) : list jsstring :=
  map nome_anuncio l.

Definition mkProduct (name : string) (price : Z) : Product :=
  {| preco_vista := Num.ofZ price; preco_parcelado := [];
     modelo := str "Slim"; nome_anuncio := str name; link_pagina := [];
     tipo := str "Console"; console_type := []; cor := [];
     com_leitor_disco := []; espaco_armazenamento := [];
     espaco_armazenamento_gb := None; jogos_incluidos := [];
     inclui_jogos := false; inclui_controles := str "Sim";
     marca := str "Sony"; site_origem := str "ml"; data_coleta := [];
     disponibilidade := [] |}.

Definition noFiles : files :=
  {| magazineluiza_products := None; mercadolivre_products := None |}.

Definition firstPageOfTwo : SearchFilters :=
  {| Filters.query := None; Filters.precoMin := None; Filters.precoMax := None;
     Filters.modelo := None; Filters.tipo := None; Filters.marca := None;
     Filters.site_origem := None; Filters.inclui_controles := None;
     Filters.inclui_jogos := None; Filters.espacoMin := None;
     Filters.espacoMax := None; Filters.sortBy := Some (str "preco_asc");
     Filters.page := Some (Num.ofZ 1); Filters.limit := Some (Num.ofZ 2) |}.

(** ** Vocabulary of the further properties *)

(** A character with which the text of a number can start: a digit, a
    dot or a comma, a sign, or the [I] of [Infinity]. *)
Definition startsNumber (c : code_unit) : bool :=
  (isDigit c || isSeparator c
   || (c =? ch "+") || (c =? ch "-") || (c =? ch "I"))%N.

(** [p] meets every filter of [filters] that is set, written out filter
    by filter. *)
Definition meets (toLowerCase : jsstring → jsstring)
    (filters : SearchFilters) (p : Product) : Prop :=
  (∀ q, Filters.query filters = Some q → q ≠ [] →
        includes (toLowerCase q) (searchableText toLowerCase p) = true)
  ∧ (∀ m, Filters.precoMin filters = Some m →
          Num.ge (preco_vista p) m = true)
  ∧ (∀ m, Filters.precoMax filters = Some m →
          Num.le (preco_vista p) m = true)
  ∧ (∀ l, Filters.modelo filters = Some l → l ≠ [] → modelo p ∈ l)
  ∧ (∀ l, Filters.tipo filters = Some l → l ≠ [] → tipo p ∈ l)
  ∧ (∀ l, Filters.marca filters = Some l → l ≠ [] → marca p ∈ l)
  ∧ (∀ l, Filters.site_origem filters = Some l → l ≠ [] →
          site_origem p ∈ l)
  ∧ (∀ c, Filters.inclui_controles filters = Some c →
          inclui_controles p = c)
  ∧ (∀ b, Filters.inclui_jogos filters = Some b → inclui_jogos p = b)
  ∧ (∀ m, Filters.espacoMin filters = Some m →
          ∃ gb, espaco_armazenamento_gb p = Some gb ∧ Num.ge gb m = true)
  ∧ (∀ m, Filters.espacoMax filters = Some m →
          ∃ gb, espaco_armazenamento_gb p = Some gb ∧ Num.le gb m = true).

(** A query with a lower bound on the price, for the examples. *)
Definition fromPrice (m : Z) : SearchFilters :=
  {| Filters.query := None; Filters.precoMin := Some (Num.ofZ m);
     Filters.precoMax := None;
     Filters.modelo := None; Filters.tipo := None; Filters.marca := None;
     Filters.site_origem := None; Filters.inclui_controles := None;
     Filters.inclui_jogos := None; Filters.espacoMin := None;
     Filters.espacoMax := None; Filters.sortBy := Some (str "original");
     Filters.page := Some (Num.ofZ 1); Filters.limit := Some (Num.ofZ 20) |}.

(** The parameters of the query string that [GET] reads with
    [parseFloat]. *)
Definition boundNames : list string :=
  ["precoMin"%string; "precoMax"%string; "espacoMin"%string;
   "espacoMax"%string].

(** A record as [loadProducts] builds them: the price is a number, and
    the capacity is absent or a number that is not negative. *)
Definition sound (p : Product) : Prop :=
  Num.isNaN (preco_vista p) = false
  ∧ ∀ gb, espaco_armazenamento_gb p = Some gb →
          Num.isNaN gb = false ∧ Num.isNegative gb = false.

(** The states that requests lead to, from the start of the server. *)
Inductive reachable (toLowerCase : jsstring → jsstring) (fs : files)
    : state → Prop :=
  | reachable_initial : reachable toLowerCase fs initial
  | reachable_GET st filters :
      reachable toLowerCase fs st →
      reachable toLowerCase fs (GET toLowerCase fs filters st).2.

(** A list of selected values that the query string can carry: no value
    is empty and none holds a comma. *)
Definition sendable (x : option (list jsstring)) : Prop :=
  ∀ l, x = Some l → Forall (λ s, s ≠ [] ∧ ch "," ∉ s) l.

(** A query for two models, for the examples. *)
Definition slimOrPro : SearchFilters :=
  {| Filters.query := Some (str "ps5"); Filters.precoMin := None;
     Filters.precoMax := None;
     Filters.modelo := Some [str "Slim"; str "Pro"];
     Filters.tipo := None; Filters.marca := None;
     Filters.site_origem := None; Filters.inclui_controles := None;
     Filters.inclui_jogos := Some false; Filters.espacoMin := None;
     Filters.espacoMax := None; Filters.sortBy := Some (str "preco_desc");
     Filters.page := Some (Num.ofZ 1); Filters.limit := Some (Num.ofZ 20) |}.

(** The whole part of a price, with or without dots between the groups
    of thousands: digits and dots, a digit first. *)
Definition grouped (s : jsstring) : Prop :=
  (∃ c r, s = c :: r ∧ isDigit c = true)
  ∧ Forall (λ c, isDigit c || isDot c = true) s.

(** [filters] with another limit, for the examples. *)
Definition withLimit (n : number) (f : SearchFilters) : SearchFilters :=
  {| Filters.query := Filters.query f; Filters.precoMin := Filters.precoMin f;
     Filters.precoMax := Filters.precoMax f; Filters.modelo := Filters.modelo f;
     Filters.tipo := Filters.tipo f; Filters.marca := Filters.marca f;
     Filters.site_origem := Filters.site_origem f;
     Filters.inclui_controles := Filters.inclui_controles f;
     Filters.inclui_jogos := Filters.inclui_jogos f;
     Filters.espacoMin := Filters.espacoMin f;
     Filters.espacoMax := Filters.espacoMax f;
     Filters.sortBy := Filters.sortBy f;
     Filters.page := Filters.page f; Filters.limit := Some n |}.


(* ===================================================================== *)
(** * Properties *)
(* ===================================================================== *)

(** ** The loader and its cache *)

Lemma wf_initial : wf initial.
Proof. intros c Hc. discriminate Hc. Qed.

Lemma deref_alloc l st :
  deref (alloc l st).2 (alloc l st).1 = l.
Proof.
  unfold deref, alloc; simpl.
  by rewrite list_lookup_middle.
Qed.

Lemma loadProducts_cached fs st c :
  cachedProducts st = Some c → loadProducts fs st = (c, st).
Proof. intros Hc. unfold loadProducts. by rewrite Hc. Qed.

Lemma loadProducts_unreadable fs st :
  cachedProducts st = None →
  magazineluiza_products fs = None ∨ mercadolivre_products fs = None →
  loadProducts fs st = alloc [] st.
Proof.
  intros Hc Hfs. unfold loadProducts. rewrite Hc.
  destruct Hfs as [-> | ->]; [done|].
  by destruct (magazineluiza_products fs).
Qed.

Lemma loadProducts_readable fs st a b :
  cachedProducts st = None →
  magazineluiza_products fs = Some a →
  mercadolivre_products fs = Some b →
  loadProducts fs st
  = (length (heap st),
     {| heap := heap st ++ [map normalize (a ++ b)];
        cachedProducts := Some (length (heap st)) |}).
Proof.
  intros Hc Ha Hb. unfold loadProducts. by rewrite Hc, Ha, Hb.
Qed.

(** [loadProducts] returns the collection of the state, keeps it the
    collection of the state it leaves, and only adds to the heap. *)
Lemma loadProducts_spec fs st r st' :
  wf st →
  loadProducts fs st = (r, st') →
  deref st' r = collection fs st
  ∧ collection fs st' = collection fs st
  ∧ (r < length (heap st'))%nat
  ∧ wf st'
  ∧ (∃ ext, heap st' = heap st ++ ext)
  ∧ (cachedProducts st' = Some r
     ∨ cachedProducts st' = None ∧ collection fs st = []).
Proof.
  intros Hwf Hload. unfold collection.
  destruct (cachedProducts st) as [c|] eqn:Hc.
  - rewrite (loadProducts_cached _ _ _ Hc) in Hload.
    injection Hload as <- <-. rewrite Hc.
    repeat split; auto. by exists []; rewrite app_nil_r.
  - destruct (magazineluiza_products fs) as [a|] eqn:Ha;
      [destruct (mercadolivre_products fs) as [b|] eqn:Hb|].
    + rewrite (loadProducts_readable _ _ _ _ Hc Ha Hb) in Hload.
      injection Hload as <- <-. simpl. unfold deref; simpl.
      rewrite list_lookup_middle by done. simpl.
      repeat split; auto.
      * rewrite length_app; simpl; lia.
      * intros c' [= <-]; simpl. rewrite length_app; simpl; lia.
      * by eexists.
    + rewrite loadProducts_unreadable in Hload by auto.
      injection Hload as <- <-. simpl. rewrite ?Hc, ?Ha, ?Hb.
      unfold deref; simpl. rewrite list_lookup_middle by done.
      repeat split; auto.
      * rewrite length_app; simpl; lia.
      * intros c' Hc'. simpl in Hc'. congruence.
      * by eexists.
    + rewrite loadProducts_unreadable in Hload by auto.
      injection Hload as <- <-. simpl. rewrite ?Hc, ?Ha.
      unfold deref; simpl. rewrite list_lookup_middle by done.
      repeat split; auto.
      * rewrite length_app; simpl; lia.
      * intros c' Hc'. simpl in Hc'. congruence.
      * by eexists.
Qed.

Lemma loadProducts_unreadable_spec fs st r st' :
  cachedProducts st = None →
  magazineluiza_products fs = None ∨ mercadolivre_products fs = None →
  loadProducts fs st = (r, st') →
  deref st' r = [] ∧ cachedProducts st' = None.
Proof.
  intros Hc Hfs Hload.
  rewrite (loadProducts_unreadable _ _ Hc Hfs) in Hload.
  injection Hload as <- <-. split.
  - apply (deref_alloc [] st).
  - exact Hc.
Qed.

(** C9. When one of the two files cannot be read, [loadProducts] fails
    as a whole: it returns an empty array whatever the other file
    holds, and no record of the readable file reaches the caller or the
    cache. *)
Theorem loadProducts_fails_as_a_whole (fs : files) (st : state) :
  cachedProducts st = None →
  magazineluiza_products fs = None ∨ mercadolivre_products fs = None →
  ∀ r st', loadProducts fs st = (r, st') →
    deref st' r = [] ∧ cachedProducts st' = None.
Proof.
  intros Hc Hfs r st' Hload.
  by apply (loadProducts_unreadable_spec fs st).
Qed.

Lemma loadProducts_fails_as_a_whole_witness :
  let fs := {| magazineluiza_products :=
                 Some [mkRaw "PS5 A" "3999.00" "825 GB" "" "magalu"];
               mercadolivre_products := None |} in
  deref (loadProducts fs initial).2 (loadProducts fs initial).1 = []
  ∧ cachedProducts (loadProducts fs initial).2 = None.
Proof.
  intros fs.
  apply (loadProducts_fails_as_a_whole fs initial);
    [reflexivity | right; reflexivity | reflexivity].
Defined.

(** C10. A failed load leaves the cache unset, so the next call reads the
    files again; a load that succeeds is stored, and from then on every
    call returns the stored array itself and changes nothing. *)
Theorem failed_load_is_not_cached (fs : files) (st : state) :
  cachedProducts st = None →
  ∀ r st', loadProducts fs st = (r, st') →
    (magazineluiza_products fs = None ∨ mercadolivre_products fs = None →
       deref st' r = [] ∧ cachedProducts st' = None
       ∧ ∀ fs' a b,
           magazineluiza_products fs' = Some a →
           mercadolivre_products fs' = Some b →
           ∀ r2 st2, loadProducts fs' st' = (r2, st2) →
             deref st2 r2 = map normalize (a ++ b)
             ∧ cachedProducts st2 = Some r2)
    ∧ (∀ a b,
         magazineluiza_products fs = Some a →
         mercadolivre_products fs = Some b →
         deref st' r = map normalize (a ++ b)
         ∧ cachedProducts st' = Some r
         ∧ ∀ fs', loadProducts fs' st' = (r, st')).
Proof.
  intros Hc r st' Hload. split.
  - intros Hfs.
    destruct (loadProducts_unreadable_spec fs st r st' Hc Hfs Hload)
      as [Hempty Hnone].
    split; [done|]. split; [done|].
    intros fs' a b Ha Hb r2 st2 Hload2.
    rewrite (loadProducts_readable _ _ _ _ Hnone Ha Hb) in Hload2.
    injection Hload2 as <- <-. split; [|done].
    unfold deref; simpl. by rewrite list_lookup_middle.
  - intros a b Ha Hb.
    rewrite (loadProducts_readable _ _ _ _ Hc Ha Hb) in Hload.
    injection Hload as <- <-.
    split; [|split; [done|]].
    + unfold deref; simpl. by rewrite list_lookup_middle.
    + intros fs'. by apply loadProducts_cached.
Qed.

Lemma failed_load_is_not_cached_witness :
  let r := (loadProducts demoFiles initial).1 in
  let st' := (loadProducts demoFiles initial).2 in
  deref st' r
  = map normalize
      ([mkRaw "PS5 A" "3999.00" "825 GB" "" "magalu";
        mkRaw "PS5 B" "4.499" "1 TB" "GTA" "magalu"]
       ++ [mkRaw "PS5 C" "449,90" "" "" "ml"])
  ∧ cachedProducts st' = Some r
  ∧ ∀ fs', loadProducts fs' st' = (r, st').
Proof.
  intros r st'.
  apply (proj2 (failed_load_is_not_cached demoFiles initial eq_refl
                  r st' eq_refl)); reflexivity.
Defined.

(* ===================================================================== *)
(** ** Facts about numbers *)
(* ===================================================================== *)

Ltac num_cases :=
  repeat match goal with
         | x : number |- _ => destruct x as [|[]|?]
         end;
  simpl in *; try done.

Lemma Qc_ltb_lt a b : Num.Qc_ltb a b = true ↔ (a < b)%Qc.
Proof. unfold Num.Qc_ltb. by rewrite bool_decide_eq_true. Qed.

Lemma Qc_ltb_nlt a b : Num.Qc_ltb a b = false ↔ (b ≤ a)%Qc.
Proof.
  unfold Num.Qc_ltb. rewrite bool_decide_eq_false. symmetry. apply Qcle_ngt.
Qed.

Lemma Qc_eqb_eq a b : Num.Qc_eqb a b = true ↔ a = b.
Proof. unfold Num.Qc_eqb. by rewrite bool_decide_eq_true. Qed.

Lemma lt_irrefl x : Num.lt x x = false.
Proof.
  num_cases. apply Qc_ltb_nlt. apply Qcle_refl.
Qed.

Lemma eqb_eq x y : Num.eqb x y = true → x = y.
Proof.
  num_cases. intros H. f_equal. by apply Qc_eqb_eq.
Qed.

Lemma eqb_refl x : x ≠ NaN → Num.eqb x x = true.
Proof.
  num_cases. intros _. by apply Qc_eqb_eq.
Qed.

Lemma le_spec x y :
  Num.le x y = true ↔ Num.lt x y = true ∨ (x = y ∧ x ≠ NaN).
Proof.
  unfold Num.le. rewrite orb_true_iff. split; intros [H|H]; auto.
  - right. split; [by apply eqb_eq|]. intros ->. by destruct y.
  - right. destruct H as [-> H]. by apply eqb_refl.
Qed.

Lemma lt_trans x y z :
  Num.lt x y = true → Num.lt y z = true → Num.lt x z = true.
Proof.
  num_cases. rewrite !Qc_ltb_lt. apply Qclt_trans.
Qed.

Lemma lt_asym x y : Num.lt x y = true → Num.lt y x = false.
Proof.
  num_cases. rewrite Qc_ltb_lt, Qc_ltb_nlt. apply Qclt_le_weak.
Qed.

(** On numbers other than [NaN] the order is total. *)
Lemma lt_total x y :
  x ≠ NaN → y ≠ NaN → Num.lt x y = true ∨ x = y ∨ Num.lt y x = true.
Proof.
  num_cases; intros _ _; auto.
  destruct (Qclt_le_dec q0 q) as [H|H].
  - left. by apply Qc_ltb_lt.
  - destruct (Qcle_lt_or_eq _ _ H) as [H'| ->]; auto.
    right; right. by apply Qc_ltb_lt.
Qed.

Global Instance le_transitive : Transitive (λ x y, Num.le x y = true).
Proof.
  intros x y z. rewrite !le_spec.
  intros [Hxy|[-> Hx]] [Hyz|[-> Hy]]; eauto using lt_trans.
Qed.

Global Instance le_antisymm : AntiSymm (=) (λ x y, Num.le x y = true).
Proof.
  intros x y. rewrite !le_spec.
  intros [Hxy|[-> Hx]] [Hyx|[Heq Hy]]; auto.
  apply lt_asym in Hxy. congruence.
Qed.

Lemma not_lt_le x y :
  x ≠ NaN → y ≠ NaN → Num.lt y x = false → Num.le x y = true.
Proof.
  intros Hx Hy Hlt. apply le_spec.
  destruct (lt_total x y Hx Hy) as [H|[H|H]]; auto. congruence.
Qed.

(** The sign that [sort] reads off a difference: [a - b] counts as
    positive exactly when [b < a]. *)
Lemma difference_positive a b :
  Num.gt (let v := Num.sub a b in if Num.isNaN v then Num.ofZ 0 else v)
         (Num.ofZ 0)
  = Num.lt b a.
Proof.
  unfold Num.gt, Num.sub.
  destruct a as [|[]|a], b as [|[]|b]; simpl; try done.
  apply eq_true_iff_eq. rewrite !Qc_ltb_lt. symmetry. apply Qclt_minus_iff.
Qed.

(* ===================================================================== *)
(** ** Facts about [sort] *)
(* ===================================================================== *)

Section sort_facts.
Context {A : Type} (comparefn : A → A → number).

Implicit Types (x y : A) (l : list A).

Lemma insert_cons x y l :
  insert comparefn x (y :: l)
  = if after comparefn x y then y :: insert comparefn x l else x :: y :: l.
Proof. reflexivity. Qed.

Lemma insert_Permutation x l : insert comparefn x l ≡ₚ x :: l.
Proof.
  induction l as [|y l IH]; [done|].
  rewrite insert_cons. destruct (after comparefn x y); [|done].
  rewrite IH. apply Permutation_swap.
Qed.

Lemma sort_Permutation l : sort comparefn l ≡ₚ l.
Proof.
  induction l as [|x l IH]; [done|].
  simpl. fold (sort comparefn l). by rewrite insert_Permutation, IH.
Qed.

(** Stability: elements that the comparator does not separate keep
    their order. *)
Section stable.
Context (P : A → Prop) `{∀ x, Decision (P x)}.
Hypothesis tied : ∀ x y, P x → P y → after comparefn x y = false.

Lemma filter_insert x l :
  filter P (insert comparefn x l) = filter P (x :: l).
Proof.
  induction l as [|y l IH]; [done|].
  rewrite insert_cons. destruct (after comparefn x y) eqn:Hxy; [|done].
  rewrite filter_cons, IH, !filter_cons.
  destruct (decide (P x)) as [Hx|Hx], (decide (P y)) as [Hy|Hy]; try done.
  rewrite tied in Hxy by done. discriminate.
Qed.

Lemma filter_sort l : filter P (sort comparefn l) = filter P l.
Proof.
  induction l as [|x l IH]; [done|].
  simpl. fold (sort comparefn l).
  by rewrite filter_insert, !filter_cons, IH.
Qed.
End stable.

(** Order: when the comparator decides a transitive relation [R] on the
    elements that satisfy [Q], the result is sorted by [R]. *)
Section sorted.
Context (R : relation A) (Q : A → Prop).
Hypothesis before : ∀ x y, Q x → Q y → after comparefn x y = false → R x y.
Hypothesis behind : ∀ x y, Q x → Q y → after comparefn x y = true → R y x.

Lemma HdRel_insert x y l :
  R y x → HdRel R y l → HdRel R y (insert comparefn x l).
Proof.
  intros Hyx Hl. destruct l as [|z l].
  - by constructor.
  - rewrite insert_cons. inversion_clear Hl.
    destruct (after comparefn x z); by constructor.
Qed.

Lemma Sorted_insert x l :
  Q x → Forall Q l → Sorted R l → Sorted R (insert comparefn x l).
Proof.
  intros Hx Hl Hs. induction l as [|y l IH].
  - repeat constructor.
  - rewrite insert_cons.
    inversion_clear Hl. inversion_clear Hs.
    destruct (after comparefn x y) eqn:Hxy.
    + constructor; [by apply IH|].
      apply HdRel_insert; [by apply behind|done].
    + constructor; [by constructor|].
      constructor. by apply before.
Qed.

Lemma Sorted_sort l : Forall Q l → Sorted R (sort comparefn l).
Proof.
  induction 1 as [|x l Hx Hl IH]; simpl; [constructor|].
  fold (sort comparefn l). apply Sorted_insert; [done| |done].
  by rewrite sort_Permutation.
Qed.
End sorted.
End sort_facts.

(* ===================================================================== *)
(** ** The two price orders *)
(* ===================================================================== *)

Lemma after_byPriceAscending a b :
  after byPriceAscending a b = Num.lt (preco_vista b) (preco_vista a).
Proof. apply difference_positive. Qed.

Lemma after_byPriceDescending a b :
  after byPriceDescending a b = Num.lt (preco_vista a) (preco_vista b).
Proof. apply difference_positive. Qed.

Lemma Sorted_byPriceAscending l :
  Forall (λ p, preco_vista p ≠ NaN) l →
  Sorted (λ x y, Num.le x y = true)
         (map preco_vista (sort byPriceAscending l)).
Proof.
  intros Hl.
  apply (Sorted_fmap _ (λ p q, Num.le (preco_vista p) (preco_vista q) = true));
    [done|].
  apply (Sorted_sort _ _ (λ p, preco_vista p ≠ NaN)); [| |done].
  - intros x y Hx Hy. rewrite after_byPriceAscending. by apply not_lt_le.
  - intros x y Hx Hy. rewrite after_byPriceAscending.
    intros H. apply le_spec. by left.
Qed.

Lemma Sorted_byPriceDescending l :
  Forall (λ p, preco_vista p ≠ NaN) l →
  Sorted (flip (λ x y, Num.le x y = true))
         (map preco_vista (sort byPriceDescending l)).
Proof.
  intros Hl.
  apply (Sorted_fmap _ (λ p q, Num.le (preco_vista q) (preco_vista p) = true));
    [done|].
  apply (Sorted_sort _ _ (λ p, preco_vista p ≠ NaN)); [| |done].
  - intros x y Hx Hy. rewrite after_byPriceDescending. by apply not_lt_le.
  - intros x y Hx Hy. rewrite after_byPriceDescending.
    intros H. apply le_spec. by left.
Qed.

Lemma ordered_preco_asc filters l :
  ordered (withSort "preco_asc" filters) l = sort byPriceAscending l.
Proof. reflexivity. Qed.

Lemma ordered_preco_desc filters l :
  ordered (withSort "preco_desc" filters) l = sort byPriceDescending l.
Proof. reflexivity. Qed.

(* ===================================================================== *)
(** ** What [GET] computes *)
(* ===================================================================== *)

Lemma extends_refl st : extends st st.
Proof. exists []. by rewrite app_nil_r. Qed.

Lemma extends_trans st1 st2 st3 :
  extends st1 st2 → extends st2 st3 → extends st1 st3.
Proof.
  intros [e1 H1] [e2 H2]. exists (e1 ++ e2). by rewrite H2, H1, app_assoc.
Qed.

Lemma extends_length st st' :
  extends st st' → (length (heap st) ≤ length (heap st'))%nat.
Proof. intros [e ->]. rewrite length_app. lia. Qed.

Lemma extends_deref st st' r :
  extends st st' → (r < length (heap st))%nat → deref st' r = deref st r.
Proof.
  intros [e He] Hr. unfold deref. by rewrite He, lookup_app_l.
Qed.

Lemma filter_all {A} (P : A → Prop) `{∀ x, Decision (P x)} (l : list A) :
  (∀ x, P x) → filter P l = l.
Proof.
  intros HP. induction l as [|x l IH]; [done|].
  rewrite filter_cons, IH. by rewrite decide_True.
Qed.

Lemma Array_slice_eq startIndex endIndex r st :
  Array_slice startIndex endIndex r st
  = (length (heap st),
     {| heap := heap st ++ [slice startIndex endIndex (deref st r)];
        cachedProducts := cachedProducts st |}).
Proof. reflexivity. Qed.

Section GET_facts.
Variable toLowerCase : jsstring → jsstring.

Implicit Types (st : state) (r : loc) (steps : list (bool * (Product → bool))).

Lemma filterIf_spec cond f r st r' st' :
  (r < length (heap st))%nat →
  filterIf cond f r st = (r', st') →
  extends st st'
  ∧ cachedProducts st' = cachedProducts st
  ∧ deref st' r' = filter (λ p, implb cond (f p)) (deref st r)
  ∧ (r' < length (heap st'))%nat
  ∧ (if cond then (length (heap st) ≤ r')%nat else r' = r ∧ st' = st).
Proof.
  intros Hr. destruct cond; simpl.
  - intros [= <- <-]. simpl. repeat split.
    + by eexists.
    + unfold deref at 1; simpl. by rewrite list_lookup_middle.
    + rewrite length_app; simpl; lia.
    + done.
  - intros [= <- <-]. repeat split; auto using extends_refl.
    symmetry. by apply filter_all.
Qed.

Lemma runSteps_spec steps r st r' st' :
  (r < length (heap st))%nat →
  runSteps steps r st = (r', st') →
  extends st st'
  ∧ cachedProducts st' = cachedProducts st
  ∧ deref st' r'
    = filter (λ p, forallb (λ s : bool * (Product → bool),
                              implb s.1 (s.2 p)) steps)
             (deref st r)
  ∧ (r' < length (heap st'))%nat
  ∧ (if forallb (λ s : bool * (Product → bool), negb s.1) steps
     then r' = r ∧ st' = st else (length (heap st) ≤ r')%nat).
Proof.
  revert r st. induction steps as [|[cond f] steps IH]; intros r st Hr.
  - intros [= <- <-]. repeat split; auto using extends_refl.
    symmetry. by apply filter_all.
  - simpl. unfold mbind, M_bind.
    destruct (filterIf cond f r st) as [r1 st1] eqn:H1. intros H2.
    destruct (filterIf_spec _ _ _ _ _ _ Hr H1) as (E1 & C1 & D1 & L1 & A1).
    destruct (IH _ _ L1 H2) as (E2 & C2 & D2 & L2 & A2).
    repeat split.
    + by eapply extends_trans.
    + congruence.
    + rewrite D2, D1, list_filter_filter. apply list_filter_iff.
      intros p. rewrite andb_True. tauto.
    + done.
    + destruct cond; simpl.
      * destruct (forallb _ steps).
        -- destruct A2 as [-> ->]. done.
        -- pose proof (extends_length _ _ E1). lia.
      * destruct A1 as [-> ->]. done.
Qed.

(** After the filters, [products] names the records that pass them;
    it is still the array it was when no filter is switched on, and a
    new array otherwise. *)
Lemma applyFilters_spec filters r st r' st' :
  (r < length (heap st))%nat →
  applyFilters toLowerCase filters r st = (r', st') →
  extends st st'
  ∧ cachedProducts st' = cachedProducts st
  ∧ deref st' r' = filter (λ p, selected toLowerCase filters p) (deref st r)
  ∧ (r' < length (heap st'))%nat
  ∧ (if unfiltered toLowerCase filters
     then r' = r ∧ st' = st else (length (heap st) ≤ r')%nat).
Proof. apply runSteps_spec. Qed.

Lemma sort_byOriginalIndex l : sort byOriginalIndex l = l.
Proof.
  induction l as [|x l IH]; [done|].
  simpl. fold (sort byOriginalIndex l). rewrite IH. by destruct l.
Qed.

Lemma ordered_Permutation filters l : ordered filters l ≡ₚ l.
Proof.
  unfold ordered. repeat case_match; auto using sort_Permutation.
Qed.

Lemma length_sort_ordered filters l :
  length (ordered filters l) = length l.
Proof. apply Permutation_length, ordered_Permutation. Qed.

Lemma ordered_nil filters : ordered filters [] = [].
Proof. unfold ordered. by repeat case_match. Qed.

(** The ordering step overwrites the array that [products] names. *)
Lemma applySort_spec filters r st :
  (r < length (heap st))%nat →
  applySort filters r st
  = (tt, {| heap := <[r := ordered filters (deref st r)]> (heap st);
            cachedProducts := cachedProducts st |}).
Proof.
  intros Hr. unfold applySort, ordered.
  destruct (sortByIs filters "preco_asc"); [done|].
  destruct (sortByIs filters "preco_desc"); [done|].
  destruct (_ || _); [done|].
  unfold mret, M_ret. f_equal. destruct st as [h c]; simpl. f_equal.
  symmetry. apply list_insert_id. unfold deref; simpl. simpl in Hr.
  destruct (lookup_lt_is_Some_2 h r Hr) as [l Hl]. by rewrite Hl.
Qed.

(** The whole of [GET], in terms of the collection of the state it
    starts in. *)
Lemma GET_spec fs filters st resp st' :
  wf st →
  GET toLowerCase fs filters st = (resp, st') →
  let coll := collection fs st in
  let matching := filter (λ p, selected toLowerCase filters p) coll in
  let page := orDefault (Filters.page filters) (Num.ofZ 1) in
  let limit := orDefault (Filters.limit filters) (Num.ofZ 20) in
  let startIndex := Num.mul (Num.sub page (Num.ofZ 1)) limit in
  Response.products resp
  = slice startIndex (Num.add startIndex limit) (ordered filters matching)
  ∧ Response.total resp = length matching
  ∧ Response.page resp = page
  ∧ Response.limit resp = limit
  ∧ Response.totalPages resp
    = Num.ceil (Num.div (Num.ofZ (Z.of_nat (length matching))) limit)
  ∧ Response.filters resp = getFilterValues (collection fs st')
  ∧ collection fs st'
    = (if unfiltered toLowerCase filters then ordered filters coll else coll)
  ∧ wf st'.
Proof.
  intros Hwf. unfold GET, mbind, M_bind.
  destruct (loadProducts fs st) as [r0 st0] eqn:H0.
  destruct (loadProducts_spec _ _ _ _ Hwf H0)
    as (D0 & K0 & L0 & W0 & E0 & C0).
  destruct (applyFilters toLowerCase filters r0 st0) as [r1 st1] eqn:H1.
  destruct (applyFilters_spec _ _ _ _ _ L0 H1) as (E1 & C1 & D1 & L1 & A1).
  rewrite (applySort_spec _ _ _ L1).
  set (page := orDefault (Filters.page filters) _).
  set (limit := orDefault (Filters.limit filters) _).
  set (startIndex := Num.mul _ _).
  set (endIndex := Num.add _ _).
  remember {| heap := <[r1 := ordered filters (deref st1 r1)]> (heap st1);
              cachedProducts := cachedProducts st1 |} as st2 eqn:Hst2.
  assert (D2 : deref st2 r1 = ordered filters (deref st1 r1)).
  { subst st2. unfold deref at 1; simpl. by rewrite list_lookup_insert_eq. }
  assert (L2 : length (heap st2) = length (heap st1)).
  { subst st2. simpl. by rewrite length_insert. }
  assert (C2 : cachedProducts st2 = cachedProducts st1) by by subst st2.
  change (read r1 st2) with (deref st2 r1, st2). cbv beta iota.
  rewrite Array_slice_eq.
  remember {| heap := heap st2 ++ [slice startIndex endIndex (deref st2 r1)];
              cachedProducts := cachedProducts st2 |} as st3 eqn:Hst3.
  assert (E3 : extends st2 st3) by (subst st3; by eexists).
  assert (D3 : deref st3 (length (heap st2))
               = slice startIndex endIndex (deref st2 r1)).
  { subst st3. unfold deref at 1; simpl. by rewrite list_lookup_middle. }
  assert (L3 : (length (heap st2) < length (heap st3))%nat).
  { subst st3; simpl. rewrite length_app; simpl; lia. }
  assert (C3 : cachedProducts st3 = cachedProducts st2) by by subst st3.
  assert (W3 : wf st3).
  { intros c Hc. rewrite C3, C2, C1 in Hc. apply W0 in Hc.
    pose proof (extends_length _ _ E1). lia. }
  destruct (loadProducts fs st3) as [r4 st4] eqn:H4.
  destruct (loadProducts_spec _ _ _ _ W3 H4)
    as (D4 & K4 & L4 & W4 & E4 & C4).
  change (read r4 st4) with (deref st4 r4, st4). cbv beta iota.
  change (read (length (heap st2)) st4)
    with (deref st4 (length (heap st2)), st4). cbv beta iota.
  intros [= <- <-]. simpl.
  rewrite (extends_deref st3 st4 _ E4 L3), D3, D2, D1, D0, D4, K4.
  rewrite !length_sort_ordered.
  assert (K3 : collection fs st3
               = if unfiltered toLowerCase filters
                 then ordered filters (collection fs st)
                 else collection fs st).
  { pose proof (extends_length _ _ E1) as G1.
    unfold collection at 1. rewrite C3, C2, C1.
    destruct C0 as [C0|[C0 N0]].
    - rewrite C0.
      rewrite (extends_deref st2 st3 r0 E3) by lia.
      destruct (unfiltered toLowerCase filters) eqn:U.
      + destruct A1 as [-> ->]. by rewrite D2, D0.
      + subst st2. unfold deref at 1; simpl.
        rewrite list_lookup_insert_ne by lia.
        fold (deref st1 r0). by rewrite (extends_deref st0 st1 r0 E1 L0).
    - rewrite C0. rewrite N0, ordered_nil.
      transitivity (collection fs st0).
      + unfold collection. by rewrite C0.
      + rewrite K0, N0. by destruct (unfiltered toLowerCase filters). }
  by rewrite K3.
Qed.
End GET_facts.

(* ===================================================================== *)
(** ** Runs of the model *)
(* ===================================================================== *)

Example hasGames_examples :
  hasGames (str "") = false
  ∧ hasGames (str "  ") = false
  ∧ hasGames (str "GTA V") = true.
Proof. by vm_compute. Qed.

(** Three records priced [3999.00], [4.499] and [449,90], two per page,
    cheapest first: the first page holds [C] (449.90) and [A] (3999),
    of three matches on two pages. *)
Example first_page_of_two :
  let resp := (GET asciiLower demoFiles firstPageOfTwo initial).1 in
  names (Response.products resp) = [str "PS5 C"; str "PS5 A"]
  ∧ map preco_vista (Response.products resp)
    = [normalizePrice (str "449,90"); normalizePrice (str "3999.00")]
  ∧ Response.total resp = 3%nat
  ∧ Response.totalPages resp = Num.ofZ 2.
Proof. intros resp. repeat split; by vm_compute. Qed.

(* ===================================================================== *)
(** ** Two defects, shown on runs *)
(* ===================================================================== *)

(** C1. [loadProducts] concatenates the two files in order and normalises
    every record, but it assigns no [originalIndex]: on the three
    records of [demoFiles] the property is [undefined] for each of them,
    not its position.  The comparator of the [original] mode then gives
    [NaN] for every pair and the sort moves nothing, whatever the array;
    so after one unfiltered query sorted by price the [original] mode
    returns the records in price order [C, A, B] instead of the order
    [A, B, C] in which they were loaded. *)
Theorem loadProducts_assigns_no_originalIndex :
  let loaded := loadProducts demoFiles initial in
  let byPrice :=
    GET asciiLower demoFiles (withSort "preco_asc" noFilters) loaded.2 in
  let original := GET asciiLower demoFiles noFilters byPrice.2 in
  names (deref loaded.2 loaded.1) = [str "PS5 A"; str "PS5 B"; str "PS5 C"]
  ∧ Forall (λ p, originalIndex p = Undefined) (deref loaded.2 loaded.1)
  ∧ (∀ a b, Num.isNaN (byOriginalIndex a b) = true)
  ∧ (∀ l, sort byOriginalIndex l = l)
  ∧ names (Response.products byPrice.1)
    = [str "PS5 C"; str "PS5 A"; str "PS5 B"]
  ∧ names (Response.products original.1)
    = [str "PS5 C"; str "PS5 A"; str "PS5 B"].
Proof.
  intros loaded byPrice original.
  split; [by vm_compute|].
  split; [by apply Forall_forall|].
  split; [done|].
  split; [apply sort_byOriginalIndex|].
  split; by vm_compute.
Qed.

(** C2. A query without filters sorts the cached array itself.  With the
    cache holding [A] (price 2) before [B] (price 1), one evaluation
    with [sortBy = preco_asc] leaves the cache holding [B] before [A]. *)
Theorem GET_sorts_the_cache_in_place :
  let st := {| heap := [[mkProduct "A" 2; mkProduct "B" 1]];
               cachedProducts := Some 0%nat |} in
  let st' :=
    (GET asciiLower noFiles (withSort "preco_asc" noFilters) st).2 in
  unfiltered asciiLower (withSort "preco_asc" noFilters) = true
  ∧ cachedProducts st' = cachedProducts st
  ∧ deref st 0%nat = [mkProduct "A" 2; mkProduct "B" 1]
  ∧ deref st' 0%nat = [mkProduct "B" 1; mkProduct "A" 2].
Proof.
  intros st st'. repeat split; by vm_compute.
Qed.

(* ===================================================================== *)
(** ** Pagination *)
(* ===================================================================== *)

Lemma ofZ_add a b : Num.add (Num.ofZ a) (Num.ofZ b) = Num.ofZ (a + b).
Proof.
  unfold Num.ofZ; simpl. f_equal. apply Qc_is_canon; simpl.
  rewrite !Qred_correct. by rewrite inject_Z_plus.
Qed.

Lemma ofZ_sub a b : Num.sub (Num.ofZ a) (Num.ofZ b) = Num.ofZ (a - b).
Proof.
  unfold Num.ofZ, Num.sub; simpl. f_equal. apply Qc_is_canon; simpl.
  rewrite !Qred_correct. unfold Z.sub. by rewrite inject_Z_plus, inject_Z_opp.
Qed.

Lemma ofZ_mul a b : Num.mul (Num.ofZ a) (Num.ofZ b) = Num.ofZ (a * b).
Proof.
  unfold Num.ofZ; simpl. f_equal. apply Qc_is_canon; simpl.
  rewrite !Qred_correct. by rewrite inject_Z_mult.
Qed.

Lemma isZero_ofZ a : Num.isZero (Num.ofZ a) = bool_decide (a = 0).
Proof.
  unfold Num.isZero, Num.ofZ; simpl. unfold Num.Qc_eqb.
  apply bool_decide_ext. rewrite Q2Qc_eq_iff. split.
  - apply inject_Z_injective.
  - by intros ->.
Qed.

Lemma orDefault_ofZ a d : a ≠ 0 → orDefault (Some (Num.ofZ a)) d = Num.ofZ a.
Proof.
  intros Ha. unfold orDefault. rewrite isZero_ofZ.
  by rewrite bool_decide_eq_false_2.
Qed.

Lemma toIntegerOrInfinity_ofZ a : toIntegerOrInfinity (Num.ofZ a) = Int a.
Proof.
  unfold Num.ofZ, toIntegerOrInfinity, Q2Qc, this.
  rewrite inject_Z_Qred. simpl. by rewrite Z.quot_1_r.
Qed.

(** [Math.ceil(t / n)] on integers is the rounded-up quotient. *)
Lemma ceil_div_ofZ t n :
  0 < n →
  Num.ceil (Num.div (Num.ofZ t) (Num.ofZ n)) = Num.ofZ ((t + n - 1) / n).
Proof.
  intros Hn. unfold Num.div. unfold Num.ofZ at 1 2.
  rewrite isZero_ofZ, bool_decide_eq_false_2 by lia.
  unfold Num.ceil. f_equal.
  transitivity (Qceiling (inject_Z t / inject_Z n)).
  - apply Qceiling_comp. simpl. by rewrite !Qred_correct.
  - unfold Qceiling.
    assert (- (inject_Z t / inject_Z n) == inject_Z (- t) / inject_Z n)%Q
      as ->.
    { rewrite inject_Z_opp. unfold Qdiv. ring. }
    rewrite <- Zdiv_Qdiv.
    apply Z.div_unique with (r := (t + n - 1) - n * - (- t / n)).
    + left. pose proof (Z.div_mod (- t) n). pose proof (Z.mod_pos_bound (- t) n).
      lia.
    + lia.
Qed.

Lemma slice_ofZ {A} (s n : Z) (l : list A) :
  0 ≤ s → 0 ≤ n →
  slice (Num.ofZ s) (Num.ofZ (s + n)) l
  = take (Z.to_nat n) (drop (Z.to_nat s) l).
Proof.
  intros Hs Hn. unfold slice. rewrite !toIntegerOrInfinity_ofZ. simpl.
  rewrite !(proj2 (Z.ltb_ge _ _)) by lia.
  destruct (decide (Z.of_nat (length l) ≤ s)) as [Hle|Hgt].
  - rewrite !drop_ge by lia. by rewrite !take_nil.
  - replace (Z.to_nat (Z.min s (Z.of_nat (length l)))) with (Z.to_nat s) by lia.
    destruct (decide (s + n ≤ Z.of_nat (length l))) as [Hin|Hout].
    + f_equal. lia.
    + rewrite !take_ge; [done| |]; rewrite length_drop; lia.
Qed.

Lemma sum_list_app (l k : list nat) :
  sum_list (l ++ k) = (sum_list l + sum_list k)%nat.
Proof. induction l as [|x l IH]; simpl; lia. Qed.

Lemma sum_pages {A} (l : list A) (n K : nat) :
  sum_list (map (λ j, length (take n (drop (j * n) l))) (seq 0 K))
  = Nat.min (K * n) (length l).
Proof.
  induction K as [|K IH]; [done|].
  rewrite seq_S, map_app, sum_list_app, IH. simpl.
  rewrite length_take, length_drop. lia.
Qed.

Lemma page_withPage x f : Filters.page (withPage x f) = Some x.
Proof. reflexivity. Qed.

Lemma limit_withPage x f : Filters.limit (withPage x f) = Filters.limit f.
Proof. reflexivity. Qed.

Lemma ordered_withPage x f l : ordered (withPage x f) l = ordered f l.
Proof. reflexivity. Qed.

Lemma selected_withPage toLowerCase x f :
  selected toLowerCase (withPage x f) = selected toLowerCase f.
Proof. reflexivity. Qed.

(** C6. With a page number [p ≥ 1] and a page size [n > 0]: [total] is
    the number of records that pass the filters, [totalPages] is
    [total / n] rounded up, the page is the [n] records from position
    [(p - 1) * n] on of the ordered matches, cut at the end of the array
    (so a page beyond the last one is empty), [total] is at most the size
    of the collection, and the lengths of the pages [1 .. totalPages] add
    up to [total]. *)
Theorem pagination (toLowerCase : jsstring → jsstring)
    (fs : files) (st : state) (filters : SearchFilters) (p n : Z)
    (resp : SearchResponse) (st' : state) :
  wf st →
  1 ≤ p → 0 < n →
  Filters.page filters = Some (Num.ofZ p) →
  Filters.limit filters = Some (Num.ofZ n) →
  GET toLowerCase fs filters st = (resp, st') →
  let matching :=
    filter (λ r, selected toLowerCase filters r) (collection fs st) in
  let pages := (Z.of_nat (length matching) + n - 1) / n in
  Response.total resp = length matching
  ∧ Response.totalPages resp = Num.ofZ pages
  ∧ Response.products resp
    = take (Z.to_nat n)
        (drop (Z.to_nat ((p - 1) * n)) (ordered filters matching))
  ∧ (pages < p → Response.products resp = [])
  ∧ (Response.total resp ≤ length (collection fs st))%nat
  ∧ sum_list
      (map (λ i : nat,
              length (Response.products
                        (GET toLowerCase fs
                           (withPage (Num.ofZ (Z.of_nat i)) filters) st).1))
           (seq 1 (Z.to_nat pages)))
    = Response.total resp.
Proof.
  intros Hwf Hp Hn Hpage Hlimit HGET matching pages.
  destruct (GET_spec toLowerCase _ _ _ _ _ Hwf HGET)
    as (Hprod & Htotal & _ & _ & Hpages & _).
  fold matching in Hprod, Htotal, Hpages.
  rewrite Hpage, Hlimit in Hprod. rewrite Hlimit in Hpages.
  rewrite !orDefault_ofZ in Hprod by lia. rewrite orDefault_ofZ in Hpages by lia.
  rewrite ofZ_sub, ofZ_mul, ofZ_add, slice_ofZ in Hprod by nia.
  rewrite ceil_div_ofZ in Hpages by done. fold pages in Hpages.
  assert (Hbound : Z.of_nat (length matching) ≤ pages * n
                   ∧ 0 ≤ pages).
  { unfold pages.
    pose proof (Z.div_mod (Z.of_nat (length matching) + n - 1) n).
    pose proof (Z.mod_pos_bound (Z.of_nat (length matching) + n - 1) n).
    split; [nia|]. apply Z.div_pos; lia. }
  split; [done|]. split; [done|]. split; [done|]. split; [|split].
  - intros Hout. rewrite Hprod, drop_ge; [apply take_nil|].
    rewrite length_sort_ordered. nia.
  - rewrite Htotal. apply length_filter.
  - rewrite Htotal, <- seq_shift, map_map.
    rewrite <- (length_sort_ordered filters matching).
    transitivity
      (Nat.min (Z.to_nat pages * Z.to_nat n)
               (length (ordered filters matching))).
    2:{ rewrite length_sort_ordered. nia. }
    rewrite <- sum_pages. f_equal. apply map_ext. intros j.
    destruct (GET toLowerCase fs
                (withPage (Num.ofZ (Z.of_nat (S j))) filters) st)
      as [respj stj] eqn:Hj.
    destruct (GET_spec toLowerCase _ _ _ _ _ Hwf Hj) as (Hprodj & _).
    rewrite page_withPage, limit_withPage, ordered_withPage,
      selected_withPage, Hlimit in Hprodj.
    rewrite !orDefault_ofZ in Hprodj by lia.
    rewrite ofZ_sub, ofZ_mul, ofZ_add, slice_ofZ in Hprodj by nia.
    simpl. rewrite Hprodj. do 3 f_equal. nia.
Qed.

Lemma pagination_witness :
  let resp := (GET asciiLower demoFiles firstPageOfTwo initial).1 in
  let matching :=
    filter (λ r, selected asciiLower firstPageOfTwo r)
           (collection demoFiles initial) in
  let pages := (Z.of_nat (length matching) + 2 - 1) / 2 in
  Response.total resp = length matching
  ∧ Response.totalPages resp = Num.ofZ pages
  ∧ Response.products resp
    = take (Z.to_nat 2)
        (drop (Z.to_nat ((1 - 1) * 2)) (ordered firstPageOfTwo matching))
  ∧ (pages < 1 → Response.products resp = [])
  ∧ (Response.total resp ≤ length (collection demoFiles initial))%nat
  ∧ sum_list
      (map (λ i : nat,
              length (Response.products
                        (GET asciiLower demoFiles
                           (withPage (Num.ofZ (Z.of_nat i)) firstPageOfTwo)
                           initial).1))
           (seq 1 (Z.to_nat pages)))
    = Response.total resp.
Proof.
  apply (pagination asciiLower demoFiles initial firstPageOfTwo 1 2
           (GET asciiLower demoFiles firstPageOfTwo initial).1
           (GET asciiLower demoFiles firstPageOfTwo initial).2).
  - intros c Hc. discriminate Hc.
  - lia.
  - lia.
  - reflexivity.
  - reflexivity.
  - apply surjective_pairing.
Defined.

(* ===================================================================== *)
(** ** The two price orders of [GET] *)
(* ===================================================================== *)

Lemma selected_withSort toLowerCase s f :
  selected toLowerCase (withSort s f) = selected toLowerCase f.
Proof. reflexivity. Qed.

Lemma unfiltered_withSort toLowerCase s f :
  unfiltered toLowerCase (withSort s f) = unfiltered toLowerCase f.
Proof. reflexivity. Qed.

Lemma page_withSort s f : Filters.page (withSort s f) = Filters.page f.
Proof. reflexivity. Qed.

Lemma limit_withSort s f : Filters.limit (withSort s f) = Filters.limit f.
Proof. reflexivity. Qed.

Lemma tied_ascending (v : number) (x y : Product) :
  preco_vista x = v → preco_vista y = v → after byPriceAscending x y = false.
Proof.
  intros Hx Hy. rewrite after_byPriceAscending, Hx, Hy. apply lt_irrefl.
Qed.

Lemma tied_descending (v : number) (x y : Product) :
  preco_vista x = v → preco_vista y = v → after byPriceDescending x y = false.
Proof.
  intros Hx Hy. rewrite after_byPriceDescending, Hx, Hy. apply lt_irrefl.
Qed.

(** The two sorts of one array. *)
Lemma sort_price_orders (l : list Product) :
  Forall (λ p, preco_vista p ≠ NaN) l →
  map preco_vista (sort byPriceDescending l)
  = reverse (map preco_vista (sort byPriceAscending l)).
Proof.
  intros Hl.
  rewrite <- (reverse_involutive (map preco_vista (sort _ l))) at 1.
  f_equal.
  apply (Sorted_unique (λ x y, Num.le x y = true)).
  - exact (Sorted_reverse _ _ (Sorted_byPriceDescending l Hl)).
  - by apply Sorted_byPriceAscending.
  - by rewrite reverse_Permutation, !sort_Permutation.
Qed.

Lemma filter_filter_comm {A} (P Q : A → Prop) `{∀ x, Decision (P x)}
    `{∀ x, Decision (Q x)} (l : list A) :
  filter P (filter Q l) = filter Q (filter P l).
Proof.
  induction l as [|x l IH]; [done|]. rewrite !filter_cons.
  destruct (decide (P x)), (decide (Q x)); rewrite ?filter_cons;
    rewrite ?decide_True by done; rewrite ?decide_False by done;
    by rewrite IH.
Qed.

Global Instance ge_antisymm :
  AntiSymm (=) (flip (λ x y, Num.le x y = true)).
Proof.
  intros x y Hxy Hyx. by apply (anti_symm (λ x y, Num.le x y = true)).
Qed.

(** A list is fixed by the order of its prices and by the order of the
    records of each price. *)
Lemma stable_unique (R : relation number) `{!Transitive R}
    `{!AntiSymm (=) R} (l1 l2 : list Product) :
  Sorted R (map preco_vista l1) → Sorted R (map preco_vista l2) →
  (∀ v : number, filter (λ p, preco_vista p = v) l1
                 = filter (λ p, preco_vista p = v) l2) →
  l1 = l2.
Proof.
  revert l2. induction l1 as [|x l1 IH]; intros l2 H1 H2 Hfilter.
  - destruct l2 as [|y l2]; [done|].
    specialize (Hfilter (preco_vista y)).
    by rewrite filter_nil, filter_cons_True in Hfilter.
  - destruct l2 as [|y l2].
    { specialize (Hfilter (preco_vista x)).
      by rewrite filter_nil, filter_cons_True in Hfilter. }
    apply Sorted_StronglySorted in H1, H2; [|done..].
    rewrite !fmap_cons in H1, H2.
    apply StronglySorted_inv in H1 as [H1 Hx], H2 as [H2 Hy].
    rewrite Forall_fmap, Forall_forall in Hx, Hy.
    assert (preco_vista x = preco_vista y) as Hxy.
    { assert (y ∈ x :: l1) as Hin1.
      { apply (list_elem_of_filter (λ p, preco_vista p = preco_vista y)).
        rewrite Hfilter, filter_cons_True by done. left. }
      assert (x ∈ y :: l2) as Hin2.
      { apply (list_elem_of_filter (λ p, preco_vista p = preco_vista x)).
        rewrite <- Hfilter, filter_cons_True by done. left. }
      apply elem_of_cons in Hin1 as [->|Hin1]; [done|].
      apply elem_of_cons in Hin2 as [->|Hin2]; [done|].
      apply (anti_symm R); [by apply Hx|by apply Hy]. }
    pose proof (Hfilter (preco_vista x)) as Hhead.
    rewrite !filter_cons_True in Hhead by done.
    injection Hhead as <- Htail. f_equal.
    apply IH; [by apply StronglySorted_Sorted..|].
    intros v. destruct (decide (preco_vista x = v)) as [<-|Hv]; [done|].
    specialize (Hfilter v). by rewrite !filter_cons_False in Hfilter.
Qed.

(** C8. From any state whose collection has numbers (not [NaN]) as
    prices, and for any filters, take the response to the request with
    [sortBy = preco_asc] and the response to the same request with
    [sortBy = preco_desc].  Each response is the requested page of an
    array that holds exactly the records that pass the filters: for
    [preco_asc] by rising price, for [preco_desc] by falling price.  The
    prices of the second array are the prices of the first read
    backwards, and for every price the records that have it stand in
    both arrays in the order they have in the collection.  When one page
    holds all matching records, the two responses are these arrays
    themselves.  The response to [preco_desc] is the same when it is
    asked for after the [preco_asc] request instead of in its place. *)
Theorem price_orders_are_reverses (toLowerCase : jsstring → jsstring)
    (fs : files) (st : state) (filters : SearchFilters)
    (respA : SearchResponse) (stA : state)
    (respD : SearchResponse) (stD : state) :
  wf st →
  Forall (λ p, preco_vista p ≠ NaN) (collection fs st) →
  GET toLowerCase fs (withSort "preco_asc" filters) st = (respA, stA) →
  GET toLowerCase fs (withSort "preco_desc" filters) st = (respD, stD) →
  let matching :=
    filter (λ p, selected toLowerCase filters p) (collection fs st) in
  let page := orDefault (Filters.page filters) (Num.ofZ 1) in
  let limit := orDefault (Filters.limit filters) (Num.ofZ 20) in
  let startIndex := Num.mul (Num.sub page (Num.ofZ 1)) limit in
  ∃ ascending descending : list Product,
    Response.products respA
    = slice startIndex (Num.add startIndex limit) ascending
    ∧ Response.products respD
      = slice startIndex (Num.add startIndex limit) descending
    ∧ ascending ≡ₚ matching
    ∧ descending ≡ₚ matching
    ∧ Sorted (λ x y, Num.le x y = true) (map preco_vista ascending)
    ∧ Sorted (flip (λ x y, Num.le x y = true)) (map preco_vista descending)
    ∧ map preco_vista descending = reverse (map preco_vista ascending)
    ∧ (∀ v : number,
         filter (λ p, preco_vista p = v) ascending
         = filter (λ p, preco_vista p = v) matching
         ∧ filter (λ p, preco_vista p = v) descending
           = filter (λ p, preco_vista p = v) matching)
    ∧ (∀ n : Z,
         Filters.page filters = Some (Num.ofZ 1) →
         Filters.limit filters = Some (Num.ofZ n) →
         0 < n → Z.of_nat (length matching) ≤ n →
         Response.products respA = ascending
         ∧ Response.products respD = descending)
    ∧ (∀ resp' st',
         GET toLowerCase fs (withSort "preco_desc" filters) stA
         = (resp', st') →
         Response.products resp' = Response.products respD).
Proof.
  intros Hwf Hcoll HA HD matching page limit startIndex.
  destruct (GET_spec toLowerCase _ _ _ _ _ Hwf HA)
    as (HprodA & _ & _ & _ & _ & _ & HcollA & HwfA).
  destruct (GET_spec toLowerCase _ _ _ _ _ Hwf HD) as (HprodD & _).
  rewrite selected_withSort, page_withSort, limit_withSort in HprodA, HprodD.
  rewrite ordered_preco_asc in HprodA, HcollA.
  rewrite ordered_preco_desc in HprodD.
  rewrite unfiltered_withSort in HcollA.
  fold matching page limit startIndex in HprodA, HprodD.
  assert (Hl : Forall (λ p, preco_vista p ≠ NaN) matching).
  { rewrite Forall_forall in Hcoll. apply Forall_forall.
    intros p [_ Hp]%list_elem_of_filter. by apply Hcoll. }
  exists (sort byPriceAscending matching), (sort byPriceDescending matching).
  split; [done|]. split; [done|].
  split; [apply sort_Permutation|]. split; [apply sort_Permutation|].
  split; [by apply Sorted_byPriceAscending|].
  split; [by apply Sorted_byPriceDescending|].
  split; [by apply sort_price_orders|].
  split; [|split].
  - intros v. split; apply filter_sort.
    + apply tied_ascending.
    + apply tied_descending.
  - intros n Hpage Hlimit Hn Hlen. rewrite HprodA, HprodD.
    unfold startIndex, page, limit. rewrite Hpage, Hlimit.
    rewrite !orDefault_ofZ by lia. rewrite ofZ_sub, ofZ_mul, ofZ_add.
    rewrite !(slice_ofZ ((1 - 1) * n) n) by lia.
    replace (Z.to_nat ((1 - 1) * n)) with 0%nat by lia. rewrite !drop_0.
    split; apply take_ge;
      rewrite (Permutation_length (sort_Permutation _ matching)); lia.
  - intros resp' st' HD'.
    destruct (GET_spec toLowerCase _ _ _ _ _ HwfA HD') as (HprodD' & _).
    rewrite selected_withSort, page_withSort, limit_withSort in HprodD'.
    rewrite ordered_preco_desc in HprodD'.
    fold page limit startIndex in HprodD'.
    rewrite HprodD', HprodD. f_equal.
    set (later := filter _ (collection fs stA)).
    assert (∀ v : number, filter (λ p, preco_vista p = v) later
                          = filter (λ p, preco_vista p = v) matching)
      as Hsame.
    { intros v. unfold later, matching. rewrite HcollA.
      destruct (unfiltered toLowerCase filters); [|done].
      rewrite !(filter_filter_comm (λ p, preco_vista p = v)).
      f_equal. apply filter_sort, tied_ascending. }
    assert (Forall (λ p, preco_vista p ≠ NaN) later) as Hlater.
    { apply Forall_forall. intros p [_ Hp]%list_elem_of_filter.
      rewrite HcollA in Hp. rewrite Forall_forall in Hcoll. apply Hcoll.
      destruct (unfiltered toLowerCase filters); [|done].
      by rewrite sort_Permutation in Hp. }
    apply (stable_unique (flip (λ x y, Num.le x y = true))).
    + by apply Sorted_byPriceDescending.
    + by apply Sorted_byPriceDescending.
    + intros v.
      rewrite !(filter_sort _ _ (tied_descending v)). apply Hsame.
Qed.

Lemma price_orders_are_reverses_witness :
  let runA :=
    GET asciiLower demoFiles (withSort "preco_asc" noFilters) initial in
  let runD :=
    GET asciiLower demoFiles (withSort "preco_desc" noFilters) initial in
  let matching :=
    filter (λ p, selected asciiLower noFilters p)
           (collection demoFiles initial) in
  let page := orDefault (Filters.page noFilters) (Num.ofZ 1) in
  let limit := orDefault (Filters.limit noFilters) (Num.ofZ 20) in
  let startIndex := Num.mul (Num.sub page (Num.ofZ 1)) limit in
  ∃ ascending descending : list Product,
    Response.products runA.1
    = slice startIndex (Num.add startIndex limit) ascending
    ∧ Response.products runD.1
      = slice startIndex (Num.add startIndex limit) descending
    ∧ ascending ≡ₚ matching
    ∧ descending ≡ₚ matching
    ∧ Sorted (λ x y, Num.le x y = true) (map preco_vista ascending)
    ∧ Sorted (flip (λ x y, Num.le x y = true)) (map preco_vista descending)
    ∧ map preco_vista descending = reverse (map preco_vista ascending)
    ∧ (∀ v : number,
         filter (λ p, preco_vista p = v) ascending
         = filter (λ p, preco_vista p = v) matching
         ∧ filter (λ p, preco_vista p = v) descending
           = filter (λ p, preco_vista p = v) matching)
    ∧ (∀ n : Z,
         Filters.page noFilters = Some (Num.ofZ 1) →
         Filters.limit noFilters = Some (Num.ofZ n) →
         0 < n → Z.of_nat (length matching) ≤ n →
         Response.products runA.1 = ascending
         ∧ Response.products runD.1 = descending)
    ∧ (∀ resp' st',
         GET asciiLower demoFiles (withSort "preco_desc" noFilters) runA.2
         = (resp', st') →
         Response.products resp' = Response.products runD.1).
Proof.
  intros runA runD.
  apply (price_orders_are_reverses asciiLower demoFiles initial noFilters
           runA.1 runA.2 runD.1 runD.2).
  - intros c Hc. discriminate Hc.
  - repeat constructor; vm_compute; discriminate.
  - apply surjective_pairing.
  - apply surjective_pairing.
Defined.

(* ===================================================================== *)
(** ** The facets do not depend on the order of the collection *)
(* ===================================================================== *)

Lemma str_compare_antisym (a b : jsstring) :
  list_compare N.compare b a = CompOpp (list_compare N.compare a b).
Proof.
  apply list_compare_antisym.
  - apply N.compare_eq_iff.
  - intros x y. apply N.compare_antisym.
Qed.

Lemma str_compare_trans (a b c : jsstring) (o : comparison) :
  list_compare N.compare a b = o → list_compare N.compare b c = o →
  list_compare N.compare a c = o.
Proof.
  apply list_compare_trans.
  - apply N.compare_eq_iff.
  - intros x y z [] Hxy Hyz.
    + apply N.compare_eq_iff in Hxy, Hyz. subst. apply N.compare_refl.
    + rewrite N.compare_lt_iff in *. by etrans.
    + rewrite N.compare_gt_iff in *. by etrans.
  - intros x y. apply N.compare_antisym.
Qed.

Lemma str_compare_eq (a b : jsstring) :
  list_compare N.compare a b = Eq ↔ a = b.
Proof. apply list_compare_refl, N.compare_eq_iff. Qed.

Global Instance str_le_transitive : Transitive str_le.
Proof.
  intros a b c. unfold str_le.
  destruct (list_compare N.compare a b) eqn:Hab; [| |done].
  - apply str_compare_eq in Hab. by subst.
  - destruct (list_compare N.compare b c) eqn:Hbc; [| |done].
    + apply str_compare_eq in Hbc. subst. by rewrite Hab.
    + by rewrite (str_compare_trans _ _ _ _ Hab Hbc).
Qed.

Global Instance str_le_antisymm : AntiSymm (=) str_le.
Proof.
  intros a b. unfold str_le. rewrite (str_compare_antisym a b).
  destruct (list_compare N.compare a b) eqn:Hab; simpl; try done.
  intros _ _. by apply str_compare_eq.
Qed.

Lemma after_defaultCompare a b :
  after defaultCompare a b = true ↔ list_compare N.compare a b = Gt.
Proof.
  unfold after, sortCompare, defaultCompare, Num.gt.
  destruct (list_compare N.compare a b);
    (split; intros H; [by vm_compute in H | done || by vm_compute]).
Qed.

Lemma Sorted_defaultCompare (l : list jsstring) :
  Sorted str_le (sort defaultCompare l).
Proof.
  apply (Sorted_sort _ _ (λ _, True)).
  - intros x y _ _ H. unfold str_le. rewrite <- after_defaultCompare.
    by rewrite H.
  - intros x y _ _ H%after_defaultCompare. unfold str_le.
    by rewrite str_compare_antisym, H.
  - by apply Forall_true.
Qed.

(** Two duplicate-free lists with the same members sort to the same
    array. *)
Lemma sort_defaultCompare_members (l k : list jsstring) :
  NoDup l → NoDup k → (∀ x, x ∈ l ↔ x ∈ k) →
  sort defaultCompare l = sort defaultCompare k.
Proof.
  intros Hl Hk Hlk.
  apply (Sorted_unique str_le); try apply Sorted_defaultCompare.
  rewrite !sort_Permutation. by apply NoDup_Permutation.
Qed.

Lemma NoDup_Set_add x s : NoDup s → NoDup (Set_add x s).
Proof.
  intros Hs. unfold Set_add. case_bool_decide; [done|].
  apply NoDup_app. repeat split; [done| |apply NoDup_singleton].
  intros y Hy ->%list_elem_of_singleton. done.
Qed.

Lemma elem_of_Set_add y x s : y ∈ Set_add x s ↔ y = x ∨ y ∈ s.
Proof.
  unfold Set_add. case_bool_decide.
  - split; [auto|]. intros [->|]; done.
  - rewrite elem_of_app, list_elem_of_singleton. tauto.
Qed.

Section distinct.
Context (field : Product → jsstring).

Lemma NoDup_distinct l s : NoDup s → NoDup (distinct field l s).
Proof.
  revert s. induction l as [|p l IH]; intros s Hs; [done|].
  apply IH. unfold keep. case_match; auto using NoDup_Set_add.
Qed.

Lemma elem_of_distinct x l s :
  x ∈ distinct field l s
  ↔ x ∈ s ∨ ∃ p, p ∈ l ∧ field p = x
                 ∧ truthy x && truthy (trim x) = true.
Proof.
  revert s. induction l as [|p l IH]; intros s; simpl.
  - split; [auto|]. intros [|(p & Hp & _)]; [done|]. by apply elem_of_nil in Hp.
  - unfold distinct in *. simpl. rewrite IH. unfold keep.
    destruct (truthy (field p) && truthy (trim (field p))) eqn:Hk.
    + rewrite elem_of_Set_add. split.
      * intros [[->|Hs]|(q & Hq & Hx & Ht)]; eauto.
        -- right. exists p. split; [left|done].
        -- right. exists q. split; [by right|done].
      * intros [Hs|(q & Hq & Hx & Ht)]; [auto|].
        apply elem_of_cons in Hq as [->|Hq]; eauto.
    + split.
      * intros [Hs|(q & Hq & Hx & Ht)]; eauto.
        right. exists q. split; [by right|done].
      * intros [Hs|(q & Hq & Hx & Ht)]; [auto|].
        apply elem_of_cons in Hq as [->|Hq]; eauto.
        subst x. congruence.
Qed.

Lemma distinct_Permutation l k :
  l ≡ₚ k →
  sort defaultCompare (distinct field l [])
  = sort defaultCompare (distinct field k []).
Proof.
  intros Hlk. apply sort_defaultCompare_members.
  - apply NoDup_distinct, NoDup_nil_2.
  - apply NoDup_distinct, NoDup_nil_2.
  - intros x. rewrite !elem_of_distinct.
    by setoid_rewrite Hlk.
Qed.
End distinct.

(** [Math.min] and [Math.max] may be applied in any order. *)

Lemma min_NaN_r x : Num.min x NaN = NaN.
Proof. by destruct x as [|[]|]. Qed.

Lemma max_NaN_r x : Num.max x NaN = NaN.
Proof. by destruct x as [|[]|]. Qed.

Lemma min_unfold x y :
  x ≠ NaN → y ≠ NaN → Num.min x y = if Num.lt y x then y else x.
Proof. by destruct x as [|[]|], y as [|[]|]. Qed.

Lemma max_unfold x y :
  x ≠ NaN → y ≠ NaN → Num.max x y = if Num.lt x y then y else x.
Proof. by destruct x as [|[]|], y as [|[]|]. Qed.

(** Decides the order of two numbers that are not [NaN] and rewrites the
    comparisons of the goal accordingly. *)
Ltac order x y Hx Hy :=
  let H := fresh "Hord" in
  destruct (lt_total x y Hx Hy) as [H|[H|H]];
  [ pose proof (lt_asym _ _ H) | idtac | pose proof (lt_asym _ _ H) ].

Ltac order_simpl :=
  repeat match goal with
         | H : Num.lt ?a ?b = _ |- context [Num.lt ?a ?b] => rewrite H
         | |- context [Num.lt ?a ?a] => rewrite (lt_irrefl a)
         | H1 : Num.lt ?a ?b = true, H2 : Num.lt ?b ?c = true |- _ =>
             lazymatch goal with
             | _ : Num.lt a c = true |- _ => fail
             | _ => pose proof (lt_trans _ _ _ H1 H2)
             end
         | H : Num.lt ?a ?a = true |- _ => rewrite lt_irrefl in H; discriminate
         | H1 : Num.lt ?a ?b = true, H2 : Num.lt ?a ?b = false |- _ =>
             rewrite H1 in H2; discriminate
         end.

Lemma min_right_comm b x y :
  Num.min (Num.min b x) y = Num.min (Num.min b y) x.
Proof.
  destruct (decide (b = NaN)) as [->|Hb]; [done|].
  destruct (decide (x = NaN)) as [->|Hx];
    [by rewrite !min_NaN_r|].
  destruct (decide (y = NaN)) as [->|Hy];
    [by rewrite !min_NaN_r|].
  rewrite (min_unfold b x), (min_unfold b y) by done.
  order b x Hb Hx; order b y Hb Hy; order x y Hx Hy; subst; order_simpl;
    rewrite ?min_unfold by done; order_simpl; done.
Qed.

Lemma max_right_comm b x y :
  Num.max (Num.max b x) y = Num.max (Num.max b y) x.
Proof.
  destruct (decide (b = NaN)) as [->|Hb]; [done|].
  destruct (decide (x = NaN)) as [->|Hx];
    [by rewrite !max_NaN_r|].
  destruct (decide (y = NaN)) as [->|Hy];
    [by rewrite !max_NaN_r|].
  rewrite (max_unfold b x), (max_unfold b y) by done.
  order b x Hb Hx; order b y Hb Hy; order x y Hx Hy; subst; order_simpl;
    rewrite ?max_unfold by done; order_simpl; done.
Qed.

Lemma fold_left_Permutation {A B} (f : B → A → B) (l k : list A) (b : B) :
  (∀ b x y, f (f b x) y = f (f b y) x) →
  l ≡ₚ k → fold_left f l b = fold_left f k b.
Proof.
  intros Hf Hlk. revert b.
  induction Hlk as [|x l k _ IH|x y l|l k m _ IH1 _ IH2]; intros b; simpl.
  - done.
  - apply IH.
  - by rewrite Hf.
  - by rewrite IH1.
Qed.

Lemma widenPrice_right_comm f b x y :
  (∀ b x y, f (f b x) y = f (f b y) x) →
  widenPrice f (widenPrice f b x) y = widenPrice f (widenPrice f b y) x.
Proof.
  intros Hf. unfold widenPrice.
  destruct (Num.gt (preco_vista x) _), (Num.gt (preco_vista y) _); auto.
Qed.

Lemma widenStorage_right_comm f b x y :
  (∀ b x y, f (f b x) y = f (f b y) x) →
  widenStorage f (widenStorage f b x) y = widenStorage f (widenStorage f b y) x.
Proof.
  intros Hf. unfold widenStorage.
  destruct (espaco_armazenamento_gb x), (espaco_armazenamento_gb y); auto.
Qed.

(** The eight local variables after the loop, one by one. *)
Lemma fold_visit l v :
  fold_left visit l v
  = {| Locals.modelos := distinct modelo l (Locals.modelos v);
       Locals.tipos := distinct tipo l (Locals.tipos v);
       Locals.marcas := distinct marca l (Locals.marcas v);
       Locals.sites := distinct site_origem l (Locals.sites v);
       Locals.precoMin := fold_left (widenPrice Num.min) l (Locals.precoMin v);
       Locals.precoMax := fold_left (widenPrice Num.max) l (Locals.precoMax v);
       Locals.espacoMin :=
         fold_left (widenStorage Num.min) l (Locals.espacoMin v);
       Locals.espacoMax :=
         fold_left (widenStorage Num.max) l (Locals.espacoMax v) |}.
Proof.
  revert v. induction l as [|p l IH]; intros v; simpl.
  - by destruct v.
  - by rewrite IH.
Qed.

(** [getFilterValues] gives the same facets for any two arrangements of
    the same records. *)
Lemma getFilterValues_Permutation l k :
  l ≡ₚ k → getFilterValues l = getFilterValues k.
Proof.
  intros Hlk. unfold getFilterValues. rewrite !fold_visit. simpl.
  rewrite (distinct_Permutation modelo l k Hlk),
    (distinct_Permutation tipo l k Hlk),
    (distinct_Permutation marca l k Hlk),
    (distinct_Permutation site_origem l k Hlk).
  rewrite (fold_left_Permutation (widenPrice Num.min) l k)
    by auto using widenPrice_right_comm, min_right_comm.
  rewrite (fold_left_Permutation (widenPrice Num.max) l k)
    by auto using widenPrice_right_comm, max_right_comm.
  rewrite (fold_left_Permutation (widenStorage Num.min) l k)
    by auto using widenStorage_right_comm, min_right_comm.
  rewrite (fold_left_Permutation (widenStorage Num.max) l k)
    by auto using widenStorage_right_comm, max_right_comm.
  done.
Qed.

Lemma facetOf_distinct field coll :
  facetOf field coll (sort defaultCompare (distinct field coll [])).
Proof.
  split; [apply Sorted_defaultCompare|]. split.
  - rewrite sort_Permutation. apply NoDup_distinct, NoDup_nil_2.
  - intros x. rewrite sort_Permutation, elem_of_distinct. split.
    + intros [H|(p & Hp & Hx & Ht)]; [by apply elem_of_nil in H|]. eauto.
    + intros [(p & Hp & Hx) Ht]. right. eauto.
Qed.

Lemma getFilterValues_categorical coll :
  facetOf modelo coll (Response.modelos (getFilterValues coll))
  ∧ facetOf tipo coll (Response.tipos (getFilterValues coll))
  ∧ facetOf marca coll (Response.marcas (getFilterValues coll))
  ∧ facetOf site_origem coll (Response.sites (getFilterValues coll)).
Proof.
  unfold getFilterValues. rewrite fold_visit. simpl.
  split; [apply facetOf_distinct|]. split; [apply facetOf_distinct|].
  split; apply facetOf_distinct.
Qed.

(** C7. Whatever the two queries are, the facets of the two responses
    are the same, whether both are evaluated in the same state or one
    after the other: they are the facets of the whole collection, whose
    categorical members are the distinct non-blank values of the field,
    sorted. *)
Theorem facets_do_not_depend_on_the_query (toLowerCase : jsstring → jsstring)
    (fs : files) (st : state) (filters1 filters2 : SearchFilters) :
  wf st →
  ∀ resp1 st1 resp2 st2 resp2' st2',
    GET toLowerCase fs filters1 st = (resp1, st1) →
    GET toLowerCase fs filters2 st = (resp2, st2) →
    GET toLowerCase fs filters2 st1 = (resp2', st2') →
    Response.filters resp1 = getFilterValues (collection fs st)
    ∧ Response.filters resp2 = Response.filters resp1
    ∧ Response.filters resp2' = Response.filters resp1
    ∧ facetOf modelo (collection fs st)
        (Response.modelos (Response.filters resp1))
    ∧ facetOf tipo (collection fs st)
        (Response.tipos (Response.filters resp1))
    ∧ facetOf marca (collection fs st)
        (Response.marcas (Response.filters resp1))
    ∧ facetOf site_origem (collection fs st)
        (Response.sites (Response.filters resp1)).
Proof.
  intros Hwf resp1 st1 resp2 st2 resp2' st2' H1 H2 H2'.
  assert (Hfacets : ∀ filters st resp st',
            wf st → GET toLowerCase fs filters st = (resp, st') →
            Response.filters resp = getFilterValues (collection fs st)
            ∧ collection fs st' ≡ₚ collection fs st ∧ wf st').
  { intros filters s resp s' Hs HGET.
    destruct (GET_spec toLowerCase _ _ _ _ _ Hs HGET)
      as (_ & _ & _ & _ & _ & Hf & Hc & Hw).
    assert (collection fs s' ≡ₚ collection fs s) as Hperm.
    { rewrite Hc. destruct (unfiltered toLowerCase filters); [|done].
      apply ordered_Permutation. }
    split; [|done]. rewrite Hf. by apply getFilterValues_Permutation. }
  destruct (Hfacets _ _ _ _ Hwf H1) as (F1 & P1 & W1).
  destruct (Hfacets _ _ _ _ Hwf H2) as (F2 & _ & _).
  destruct (Hfacets _ _ _ _ W1 H2') as (F2' & _ & _).
  split; [done|]. split; [congruence|]. split.
  - rewrite F2', F1. by apply getFilterValues_Permutation.
  - rewrite F1. apply getFilterValues_categorical.
Qed.

Lemma facets_do_not_depend_on_the_query_witness :
  let run1 := GET asciiLower demoFiles firstPageOfTwo initial in
  let run2 := GET asciiLower demoFiles noFilters initial in
  let run2' := GET asciiLower demoFiles noFilters run1.2 in
  Response.filters run1.1 = getFilterValues (collection demoFiles initial)
  ∧ Response.filters run2.1 = Response.filters run1.1
  ∧ Response.filters run2'.1 = Response.filters run1.1
  ∧ facetOf modelo (collection demoFiles initial)
      (Response.modelos (Response.filters run1.1))
  ∧ facetOf tipo (collection demoFiles initial)
      (Response.tipos (Response.filters run1.1))
  ∧ facetOf marca (collection demoFiles initial)
      (Response.marcas (Response.filters run1.1))
  ∧ facetOf site_origem (collection demoFiles initial)
      (Response.sites (Response.filters run1.1)).
Proof.
  intros run1 run2 run2'.
  apply (facets_do_not_depend_on_the_query asciiLower demoFiles initial
           firstPageOfTwo noFilters
           ltac:(intros c Hc; discriminate Hc)
           run1.1 run1.2 run2.1 run2.2 run2'.1 run2'.2);
    apply surjective_pairing.
Defined.

(* ===================================================================== *)
(** ** Facts about strings and [parseFloat] *)
(* ===================================================================== *)

Lemma includesChar_false c s : includesChar c s = false ↔ c ∉ s.
Proof.
  unfold includesChar. induction s as [|x s IH]; simpl.
  - split; [|done]. intros _ H. by apply elem_of_nil in H.
  - rewrite orb_false_iff, IH, not_elem_of_cons, N.eqb_neq. tauto.
Qed.

Lemma trimStart_suffix s :
  ∃ ws, s = ws ++ trimStart s ∧ Forall (λ c, isWhiteSpace c = true) ws.
Proof.
  induction s as [|c s (ws & Hs & Hws)]; simpl.
  - by exists [].
  - destruct (isWhiteSpace c) eqn:Hc.
    + exists (c :: ws). split; [by rewrite Hs at 1|]. by constructor.
    + by exists [].
Qed.

Lemma elem_of_trimStart c s : c ∈ trimStart s → c ∈ s.
Proof.
  destruct (trimStart_suffix s) as (ws & Hs & _). rewrite Hs at 2.
  rewrite elem_of_app. auto.
Qed.

Lemma elem_of_trim c s : c ∈ trim s → c ∈ s.
Proof.
  unfold trim, trimEnd. rewrite elem_of_reverse.
  intros H%elem_of_trimStart. rewrite elem_of_reverse in H.
  by apply elem_of_trimStart.
Qed.

Lemma elem_of_removeAll c p s : c ∈ removeAll p s → c ∈ s.
Proof. unfold removeAll. rewrite list_elem_of_filter. tauto. Qed.

Lemma elem_of_replaceFirst c a b s :
  c ∈ replaceFirst a b s → c = b ∨ c ∈ s.
Proof.
  induction s as [|x s IH]; simpl; [auto|].
  destruct (x =? a)%N; rewrite !elem_of_cons; [tauto|].
  intros [->|H]; [auto|]. destruct (IH H); auto.
Qed.

Lemma span_spec p s :
  s = (span p s).1 ++ (span p s).2
  ∧ Forall (λ c, p c = true) (span p s).1.
Proof.
  induction s as [|c s [IH1 IH2]]; simpl; [done|].
  destruct (p c) eqn:Hc; [|done].
  destruct (span p s) as [a b]; simpl in *. split; [by f_equal|].
  by constructor.
Qed.

Lemma digitValue_nonneg c : isDigit c = true → 0 ≤ digitValue c.
Proof.
  unfold isDigit, digitValue. rewrite andb_true_iff, !N.leb_le. lia.
Qed.

Lemma fold_digits_nonneg ds acc :
  0 ≤ acc → Forall (λ c, isDigit c = true) ds →
  0 ≤ fold_left (λ acc c, 10 * acc + digitValue c) ds acc.
Proof.
  intros Hacc Hds. revert acc Hacc.
  induction Hds as [|c ds Hc _ IH]; intros acc Hacc; simpl; [done|].
  apply IH. pose proof (digitValue_nonneg c Hc). lia.
Qed.

Lemma digitsValue_nonneg ds :
  Forall (λ c, isDigit c = true) ds → 0 ≤ digitsValue ds.
Proof. by apply fold_digits_nonneg. Qed.

Lemma decimal_nonneg m e : 0 ≤ m → (Q2Qc 0 ≤ decimal m e)%Qc.
Proof.
  intros Hm. unfold decimal, Qcle; simpl. rewrite !Qred_correct.
  destruct (0 <=? e) eqn:He.
  - rewrite <- (Zle_Qle 0). apply Z.mul_nonneg_nonneg; [done|].
    apply Z.pow_nonneg. lia.
  - unfold Qle; simpl. lia.
Qed.

Lemma isNegative_Fin q : Num.isNegative (Fin q) = false ↔ (Q2Qc 0 ≤ q)%Qc.
Proof. unfold Num.isNegative; simpl. apply Qc_ltb_nlt. Qed.

(** Without a minus sign in the text, [parseFloat] gives no negative
    number. *)
Lemma parseFloat_not_negative s :
  ch "-" ∉ s → Num.isNegative (parseFloat s) = false.
Proof.
  intros Hs. unfold parseFloat.
  assert (Ht : ch "-" ∉ trimStart s) by (intros H; by apply elem_of_trimStart in H).
  destruct (trimStart s) as [|c r] eqn:Hts.
  - done.
  - apply not_elem_of_cons in Ht as [Hc Hr].
    rewrite (proj2 (N.eqb_neq c (ch "-"))) by done.
    assert (Hgen : ∀ u,
      Num.isNegative
        (if startsWith (str "Infinity") u then Infinity false
         else
           let '(ip, r1) := span isDigit u in
           let '(fp, r2) :=
             match r1 with
             | c :: r => if (c =? ch ".")%N then span isDigit r else ([], r1)
             | [] => ([], r1)
             end in
           match ip, fp with
           | [], [] => NaN
           | _, _ =>
               Fin (decimal (digitsValue (ip ++ fp))
                            (parseExponent r2 - Z.of_nat (length fp)))
           end) = false).
    { intros u. destruct (startsWith _ u); [done|].
      pose proof (span_spec isDigit u) as [_ Hip].
      destruct (span isDigit u) as [ip r1]; simpl in Hip.
      assert (∃ fp r2, Forall (λ c, isDigit c = true) fp ∧
                match r1 with
                | c :: r => if (c =? ch ".")%N then span isDigit r else ([], r1)
                | [] => ([], r1)
                end = (fp, r2)) as (fp & r2 & Hfp & ->).
      { destruct r1 as [|c' r']; [by exists [], []|].
        destruct (c' =? ch ".")%N; [|by exists [], (c' :: r')].
        pose proof (span_spec isDigit r') as [_ H].
        destruct (span isDigit r') as [fp r2]. by exists fp, r2. }
      assert (Num.isNegative
                (Fin (decimal (digitsValue (ip ++ fp))
                        (parseExponent r2 - Z.of_nat (length fp)))) = false).
      { apply isNegative_Fin, decimal_nonneg, digitsValue_nonneg.
        by apply Forall_app. }
      destruct ip, fp; done. }
    destruct (c =? ch "+")%N; apply Hgen.
Qed.

(* ===================================================================== *)
(** ** [normalizePrice] *)
(* ===================================================================== *)

Lemma Fin_eq (a b : Qc) : (a == b)%Q → Fin a = Fin b.
Proof. intros H. f_equal. by apply Qc_is_canon. Qed.

(** Closes a goal between two computed numbers. *)
Ltac num_eq :=
  vm_compute;
  repeat split;
  first [ reflexivity
        | apply Fin_eq; reflexivity
        | apply (f_equal Some), Fin_eq; reflexivity ].

(** C3, as stated, fails: a leading minus sign gives a negative price,
    and the text [Infinity] gives an infinite one. *)
Lemma normalizePrice_can_be_negative :
  normalizePrice (str "-5") = Num.ofZ (-5)
  ∧ finiteNonNegative (normalizePrice (str "-5")) = false
  ∧ normalizePrice (str "Infinity") = Infinity false
  ∧ finiteNonNegative (normalizePrice (str "Infinity")) = false.
Proof. num_eq. Qed.

Lemma replaceFirst_no_minus s :
  ch "-" ∉ s → ch "-" ∉ replaceFirst (ch ",") (ch ".") s.
Proof.
  intros Hs H. apply elem_of_replaceFirst in H as [H|H]; [discriminate|done].
Qed.

Lemma normalizePrice_isNaN s : Num.isNaN (normalizePrice s) = false.
Proof.
  unfold normalizePrice.
  destruct (isEmpty s || isEmpty (trim s)); [done|].
  match goal with
  | |- context [parseFloat ?t] => by destruct (parseFloat t)
  end.
Qed.

(** Every record that [loadProducts] builds has a price that is a
    number. *)
Lemma normalize_price_not_NaN raws :
  Forall (λ p, preco_vista p ≠ NaN) (map normalize raws).
Proof.
  apply Forall_forall. intros p (raw & -> & _)%list_elem_of_fmap.
  pose proof (normalizePrice_isNaN (Raw.preco_vista raw)) as H.
  simpl. by destruct (normalizePrice (Raw.preco_vista raw)).
Qed.

Lemma normalizePrice_no_minus s :
  ch "-" ∉ s → Num.isNegative (normalizePrice s) = false.
Proof.
  intros Hs. unfold normalizePrice.
  destruct (isEmpty s || isEmpty (trim s)); [done|].
  set (cleaned := removeAll isWhiteSpace (trim s)).
  assert (Hcleaned : ch "-" ∉ cleaned).
  { intros H. by apply elem_of_removeAll, elem_of_trim in H. }
  assert (Hdots : ch "-" ∉ removeAll isDot cleaned).
  { intros H. by apply elem_of_removeAll in H. }
  match goal with
  | |- context [parseFloat ?t] => set (text := t)
  end.
  assert (Htext : ch "-" ∉ text).
  { unfold text. repeat case_match; auto using replaceFirst_no_minus. }
  pose proof (parseFloat_not_negative text Htext).
  by destruct (parseFloat text).
Qed.

(** C3, amended. [normalizePrice] never returns [NaN]; and when the text
    has no minus sign the result is not negative. *)
Theorem normalizePrice_not_NaN (s : jsstring) :
  Num.isNaN (normalizePrice s) = false
  ∧ (includesChar (ch "-") s = false →
     Num.isNegative (normalizePrice s) = false).
Proof.
  split.
  - apply normalizePrice_isNaN.
  - intros Hs%includesChar_false. by apply normalizePrice_no_minus.
Qed.

Lemma normalizePrice_not_NaN_witness :
  Num.isNaN (normalizePrice (str " 4.499,90 ")) = false
  ∧ Num.isNegative (normalizePrice (str " 4.499,90 ")) = false.
Proof.
  split.
  - exact (proj1 (normalizePrice_not_NaN (str " 4.499,90 "))).
  - apply (proj2 (normalizePrice_not_NaN (str " 4.499,90 "))). reflexivity.
Defined.

Lemma trimStart_nil s :
  trimStart s = [] ↔ Forall (λ c, isWhiteSpace c = true) s.
Proof.
  induction s as [|c s IH]; simpl; [done|].
  destruct (isWhiteSpace c) eqn:Hc.
  - rewrite IH. split; [by constructor|by inversion 1].
  - split; [done|]. inversion 1; congruence.
Qed.

Lemma trimStart_head c r s : trimStart s = c :: r → isWhiteSpace c = false.
Proof.
  induction s as [|x s IH]; simpl; [done|].
  destruct (isWhiteSpace x) eqn:Hx; [done|]. by intros [= <- <-].
Qed.

Lemma trim_nil s : trim s = [] ↔ Forall (λ c, isWhiteSpace c = true) s.
Proof.
  unfold trim, trimEnd. split.
  - intros H. apply (f_equal reverse) in H.
    rewrite reverse_involutive, reverse_nil in H.
    apply trimStart_nil in H. apply Forall_reverse in H.
    rewrite reverse_involutive in H.
    destruct (trimStart s) as [|c r] eqn:Hs; [by apply trimStart_nil|].
    apply trimStart_head in Hs. inversion H; congruence.
  - intros H%trimStart_nil. by rewrite H.
Qed.

Lemma forallb_Forall {A} (f : A → bool) (l : list A) :
  forallb f l = true ↔ Forall (λ x, f x = true) l.
Proof.
  induction l as [|x l IH]; simpl; [done|].
  rewrite andb_true_iff, IH. split; [intros []; by constructor|by inversion 1].
Qed.

Lemma blank_forallb s :
  isEmpty s || isEmpty (trim s) = forallb isWhiteSpace s.
Proof.
  apply eq_true_iff_eq. rewrite orb_true_iff, forallb_Forall.
  split.
  - intros [H|H].
    + by destruct s.
    + apply trim_nil. by destruct (trim s).
  - intros H%trim_nil. right. by rewrite H.
Qed.

Lemma removeAll_trimStart s :
  removeAll isWhiteSpace (trimStart s) = removeAll isWhiteSpace s.
Proof.
  destruct (trimStart_suffix s) as (ws & Hs & Hws). rewrite Hs at 2.
  unfold removeAll. rewrite filter_app.
  replace (filter _ ws) with (@nil code_unit); [done|].
  symmetry. clear Hs. induction Hws as [|c ws Hc _ IH]; [done|].
  rewrite filter_cons, <- IH. rewrite Hc. done.
Qed.

Lemma removeAll_trim s :
  removeAll isWhiteSpace (trim s) = removeAll isWhiteSpace s.
Proof.
  unfold trim, trimEnd.
  transitivity (removeAll isWhiteSpace (trimStart s));
    [|apply removeAll_trimStart].
  unfold removeAll at 1. rewrite filter_reverse.
  fold (removeAll isWhiteSpace (trimStart (reverse (trimStart s)))).
  rewrite removeAll_trimStart. unfold removeAll.
  by rewrite filter_reverse, reverse_involutive.
Qed.

Lemma countDots_cons c s :
  countDots (c :: s) = if isDot c then S (countDots s) else countDots s.
Proof.
  unfold countDots. rewrite filter_cons. by destruct (isDot c).
Qed.

Lemma split_cons c s :
  split (ch ".") (c :: s)
  = if isDot c then [] :: split (ch ".") s
    else match split (ch ".") s with
         | p :: ps => (c :: p) :: ps
         | [] => [[c]]
         end.
Proof. reflexivity. Qed.

Lemma length_split s : length (split (ch ".") s) = S (countDots s).
Proof.
  induction s as [|c s IH]; [done|].
  rewrite split_cons, countDots_cons.
  destruct (isDot c); cbn [length]; [by rewrite IH|].
  by destruct (split (ch ".") s).
Qed.

Lemma split_no_dot s : countDots s = 0%nat → split (ch ".") s = [s].
Proof.
  induction s as [|c s IH]; [done|].
  rewrite split_cons, countDots_cons. destruct (isDot c); [done|].
  intros H. by rewrite (IH H).
Qed.

Lemma afterFirst_cons c s :
  afterFirst (ch ".") (c :: s) = if isDot c then s else afterFirst (ch ".") s.
Proof. reflexivity. Qed.

Lemma nth_1_split s :
  countDots s = 1%nat →
  nth 1 (split (ch ".") s) [] = afterFirst (ch ".") s.
Proof.
  induction s as [|c s IH]; [done|].
  rewrite split_cons, countDots_cons, afterFirst_cons.
  destruct (isDot c).
  - intros [= H]. by rewrite (split_no_dot s H).
  - intros H. specialize (IH H).
    pose proof (length_split s) as Hlen.
    destruct (split (ch ".") s) as [|p ps]; [done|]. exact IH.
Qed.

Lemma includesChar_dot s :
  includesChar (ch ".") s = (1 <=? countDots s)%nat.
Proof.
  induction s as [|c s IH]; [done|].
  rewrite countDots_cons. unfold includesChar in *. cbn [existsb].
  rewrite IH. unfold isDot.
  rewrite (N.eqb_sym (ch ".") c). destruct (c =? ch ".")%N; [|done].
  by destruct (countDots s).
Qed.

Lemma afterFirst_one_dot s :
  countDots s = 1%nat →
  countDots (afterFirst (ch ".") s) = 0%nat
  ∧ ∀ c, c ∈ afterFirst (ch ".") s → c ∈ s.
Proof.
  induction s as [|c s IH]; [done|].
  rewrite countDots_cons, afterFirst_cons. destruct (isDot c).
  - intros [= H]. split; [done|]. intros x Hx. by right.
  - intros H. destruct (IH H) as [IH1 IH2]. split; [done|].
    intros x Hx. right. by apply IH2.
Qed.

Lemma countDots_zero s c : countDots s = 0%nat → c ∈ s → isDot c = false.
Proof.
  induction s as [|x s IH]; [by intros _ H%elem_of_nil|].
  rewrite countDots_cons, elem_of_cons. destruct (isDot x) eqn:Hx; [done|].
  intros H [->|Hc]; auto.
Qed.

(** C4. The three price texts of the specification; and on every price
    text [normalizePrice] computes what the ordered rules say: a comma
    makes the dots thousands separators and the comma the decimal point;
    else exactly one dot followed by exactly two digits is a decimal
    point; else all dots are removed. *)
Theorem normalizePrice_follows_the_rules :
  normalizePrice (str "3999.00") = Num.ofQ 3999.00
  ∧ normalizePrice (str "4.499") = Num.ofQ 4499
  ∧ normalizePrice (str "449,90") = Num.ofQ 449.90
  ∧ ∀ s, priceText s → normalizePrice s = parsePrice s.
Proof.
  split; [num_eq|]. split; [num_eq|]. split; [num_eq|].
  intros s Hs. unfold normalizePrice, parsePrice.
  rewrite blank_forallb, removeAll_trim.
  destruct (forallb isWhiteSpace s); [done|].
  set (cleaned := removeAll isWhiteSpace s).
  assert (Hchars : ∀ c, c ∈ cleaned → isDigit c || isSeparator c = true).
  { intros c [Hws Hc]%list_elem_of_filter.
    unfold priceText in Hs. rewrite Forall_forall in Hs. specialize (Hs c Hc).
    destruct (isWhiteSpace c); [done|]. by rewrite orb_false_r in Hs. }
  assert (Hparse : ∀ t,
            (if Num.isNaN (parseFloat t) then Num.ofZ 0 else parseFloat t)
            = match parseFloat t with NaN => Num.ofZ 0 | num => num end).
  { intros t. by destruct (parseFloat t). }
  rewrite Hparse.
  match goal with
  | |- match parseFloat ?a with _ => _ end
       = match parseFloat ?b with _ => _ end =>
      replace a with b; [done|]
  end.
  destruct (includesChar (ch ",") cleaned) eqn:Hcomma; [done|].
  rewrite includesChar_dot, length_split.
  destruct (countDots cleaned) as [|[|n]] eqn:Hdots;
    cbn [Nat.eqb Nat.leb andb]; [done| |done].
  rewrite nth_1_split by done.
  destruct (afterFirst_one_dot cleaned Hdots) as [Hzero Hsub].
  destruct (length (afterFirst (ch ".") cleaned) =? 2)%nat;
    cbn [andb]; [|done].
  replace (forallb isDigit (afterFirst (ch ".") cleaned)) with true; [done|].
  symmetry. apply forallb_Forall, Forall_forall. intros c Hc.
  pose proof (countDots_zero _ _ Hzero Hc) as Hdot.
  pose proof (Hchars c (Hsub c Hc)) as Hds.
  apply includesChar_false in Hcomma.
  assert (c ≠ ch ",") by (intros ->; by apply Hcomma, Hsub).
  unfold isSeparator in Hds. unfold isDot in Hdot. rewrite Hdot in Hds.
  rewrite (proj2 (N.eqb_neq _ _) H) in Hds. by rewrite !orb_false_r in Hds.
Qed.

Lemma normalizePrice_follows_the_rules_witness :
  normalizePrice (str "1.234.567,89") = parsePrice (str "1.234.567,89").
Proof.
  apply (proj2 (proj2 (proj2 normalizePrice_follows_the_rules))).
  unfold priceText. repeat constructor.
Defined.

(* ===================================================================== *)
(** ** [extractStorageInGB] *)
(* ===================================================================== *)

(** *** The matcher finds nothing but tokens *)

Lemma star_sound {A} p acc (k : jsstring → jsstring → option A) s m :
  star p acc k s = Some m →
  ∃ mid rest,
    s = mid ++ rest ∧ Forall (λ c, p c = true) mid
    ∧ k (acc ++ mid) rest = Some m.
Proof.
  revert acc. induction s as [|c s IH]; intros acc; simpl.
  - intros H. exists [], []. rewrite (app_nil_r acc).
        split; [done|]. split; [apply Forall_nil_2|done].
  - destruct (p c) eqn:Hc.
    + destruct (star p (acc ++ [c]) k s) as [a|] eqn:Hstar.
      * intros [= ->]. destruct (IH _ Hstar) as (mid & rest & -> & Hmid & Hk).
        exists (c :: mid), rest. rewrite <- app_assoc in Hk.
        repeat split; [by constructor|done].
      * intros H. exists [], (c :: s). rewrite (app_nil_r acc).
        split; [done|]. split; [apply Forall_nil_2|done].
    + intros H. exists [], (c :: s). rewrite (app_nil_r acc).
        split; [done|]. split; [apply Forall_nil_2|done].
Qed.

Lemma plus_sound {A} p acc (k : jsstring → jsstring → option A) s m :
  plus p acc k s = Some m →
  ∃ mid rest,
    s = mid ++ rest ∧ mid ≠ [] ∧ Forall (λ c, p c = true) mid
    ∧ k (acc ++ mid) rest = Some m.
Proof.
  unfold plus. destruct s as [|c s]; [done|].
  destruct (p c) eqn:Hc; [|done].
  intros (mid & rest & -> & Hmid & Hk)%star_sound.
  exists (c :: mid), rest. rewrite <- app_assoc in Hk.
  repeat split; [done|by constructor|done].
Qed.

Lemma unitTail_sound u capture s m :
  unitTail u capture s = Some m → m = capture ∧ unitSuffix u s.
Proof.
  unfold unitTail. intros (ws & rest & -> & Hws & Hk)%star_sound.
  destruct rest as [|a [|b rest]]; try done.
  destruct (ignoreCase u a && ignoreCase (ch "B") b) eqn:Hab; [|done].
  apply andb_true_iff in Hab as [Ha Hb]. injection Hk as <-.
  split; [done|]. by exists ws, a, b, rest.
Qed.

Lemma matchHere_sound u s m :
  matchHere u s = Some m →
  ∃ after, s = m ++ after ∧ numeral m ∧ unitSuffix u after.
Proof.
  unfold matchHere.
  intros (d1 & r1 & -> & Hne1 & Hd1 & Hk)%plus_sound. simpl in Hk.
  match type of Hk with
  | match ?group with _ => _ end = _ => destruct group as [m'|] eqn:Hgroup
  end.
  - injection Hk as ->. destruct r1 as [|c r]; [done|].
    destruct (isSeparator c) eqn:Hc; [|done].
    apply plus_sound in Hgroup as (d2 & r2 & -> & Hne2 & Hd2 & Htail).
    apply unitTail_sound in Htail as [-> Hunit].
    exists r2. rewrite <- !app_assoc. simpl. repeat split; [|done].
    by apply numeral_fraction.
  - apply unitTail_sound in Hk as [-> Hunit].
    exists r1. repeat split; [|done]. by apply numeral_whole.
Qed.

Lemma search_cons u c s :
  search u (c :: s)
  = match matchHere u (c :: s) with
    | Some m => Some m
    | None => search u s
    end.
Proof. reflexivity. Qed.

Lemma search_sound u s m :
  search u s = Some m →
  ∃ before after,
    s = before ++ m ++ after ∧ numeral m ∧ unitSuffix u after.
Proof.
  induction s as [|c s IH]; [done|].
  rewrite search_cons. destruct (matchHere u (c :: s)) eqn:H.
  - intros [= ->]. apply matchHere_sound in H as (after & ? & ? & ?).
    by exists [], after.
  - intros (before & after & -> & ? & ?)%IH.
    by exists (c :: before), after.
Qed.

(** *** The matcher finds every token *)

(** Turns the character tests of the context and of the goal into
    arithmetic on code units. *)
Ltac chars :=
  unfold isDigit, isSeparator, isWhiteSpace, ignoreCase, isDot, ch in *;
  cbn [N_of_ascii N_of_digits] in *;
  repeat match goal with
         | |- _ = false => apply not_true_is_false; intros ?
         | H : _ = false |- _ => apply not_true_iff_false in H
         end;
  repeat first [ rewrite andb_true_iff in * | rewrite orb_true_iff in *
               | rewrite N.leb_le in * | rewrite N.eqb_eq in * ];
  lia.

Lemma star_complete {A} p acc (k : jsstring → jsstring → option A) mid rest m :
  Forall (λ c, p c = true) mid →
  (∀ c r, rest = c :: r → p c = false) →
  k (acc ++ mid) rest = Some m →
  star p acc k (mid ++ rest) = Some m.
Proof.
  intros Hmid Hrest. revert acc.
  induction Hmid as [|x mid Hx _ IH]; intros acc Hk; simpl.
  - rewrite app_nil_r in Hk. destruct rest as [|c r]; [done|].
    simpl. by rewrite (Hrest c r eq_refl).
  - rewrite Hx. rewrite (IH (acc ++ [x])); [done|].
    by rewrite <- app_assoc.
Qed.

Lemma plus_complete {A} p acc (k : jsstring → jsstring → option A) mid rest m :
  mid ≠ [] →
  Forall (λ c, p c = true) mid →
  (∀ c r, rest = c :: r → p c = false) →
  k (acc ++ mid) rest = Some m →
  plus p acc k (mid ++ rest) = Some m.
Proof.
  intros Hne Hmid Hrest Hk. destruct mid as [|x mid]; [done|].
  inversion_clear Hmid as [|? ? Hx Hmid']. simpl. rewrite Hx.
  apply star_complete; [done|done|]. by rewrite <- app_assoc.
Qed.

Lemma unitSuffix_head u s :
  isUnitLetter u → unitSuffix u s →
  ∃ c r, s = c :: r ∧ isDigit c = false ∧ isSeparator c = false.
Proof.
  intros Hu (ws & a & b & rest & -> & Hws & Ha & Hb).
  destruct Hws as [|w ws Hw _]; simpl.
  - exists a, (b :: rest). split; [done|].
    destruct Hu as [-> | ->]; split; chars.
  - exists w, (ws ++ a :: b :: rest). split; [done|]. split; chars.
Qed.

Lemma unitTail_complete u capture s :
  isUnitLetter u → unitSuffix u s → unitTail u capture s = Some capture.
Proof.
  intros Hu (ws & a & b & rest & -> & Hws & Ha & Hb). unfold unitTail.
  apply star_complete; [done| |].
  - intros c r [= <- <-]. destruct Hu as [-> | ->]; chars.
  - by rewrite Ha, Hb.
Qed.

Lemma matchHere_complete u n after :
  isUnitLetter u → numeral n → unitSuffix u after →
  matchHere u (n ++ after) = Some n.
Proof.
  intros Hu Hn Hafter.
  destruct (unitSuffix_head u after Hu Hafter) as (c & r & -> & Hc1 & Hc2).
  unfold matchHere. destruct Hn as [d [Hne Hd]|d1 sep d2 [Hne1 Hd1] Hsep [Hne2 Hd2]].
  - apply plus_complete; [done|done| |].
    + by intros ? ? [= <- <-].
    + simpl. rewrite Hc2. by apply unitTail_complete.
  - rewrite <- app_assoc. apply plus_complete; [done|done| |].
    + intros ? ? [= <- <-]. chars.
    + simpl. rewrite Hsep.
      rewrite (plus_complete isDigit (d1 ++ [sep]) (unitTail u) d2 (c :: r)
                 (d1 ++ sep :: d2)); [done|done|done| |].
      * by intros ? ? [= <- <-].
      * rewrite <- app_assoc. simpl. by apply unitTail_complete.
Qed.

Lemma search_complete u before token m :
  matchHere u token = Some m → search u (before ++ token) ≠ None.
Proof.
  intros Hm. induction before as [|c before IH]; cbn [app].
  - destruct token; [done|]. by rewrite search_cons, Hm.
  - rewrite search_cons. by destruct (matchHere u (c :: before ++ token)).
Qed.

(** The search succeeds exactly on the texts that hold a token. *)
Lemma search_Some_iff u s :
  isUnitLetter u → (is_Some (search u s) ↔ capacityToken u s).
Proof.
  intros Hu. split.
  - intros [m Hm]. apply search_sound in Hm as (before & after & ? & ? & ?).
    by exists before, m, after.
  - intros (before & n & after & -> & Hn & Hafter).
    pose proof (matchHere_complete u n after Hu Hn Hafter) as Hm.
    apply (search_complete u before) in Hm.
    by destruct (search u (before ++ n ++ after)).
Qed.

Lemma numeral_head n : numeral n → ∃ c r, n = c :: r ∧ isDigit c = true.
Proof.
  intros [d [Hne Hd]|d1 sep d2 [Hne Hd] _ _];
    (destruct Hd as [|c r Hc _]; [done|]); eexists c, _; split; done.
Qed.

Lemma parseFloat_digit c r :
  isDigit c = true → Num.isNaN (parseFloat (c :: r)) = false.
Proof.
  intros Hc. unfold parseFloat.
  assert (isWhiteSpace c = false) as Hws by chars.
  cbn [trimStart]. rewrite Hws.
  assert ((c =? ch "-")%N = false) as -> by chars.
  assert ((c =? ch "+")%N = false) as -> by chars.
  assert (startsWith (str "Infinity") (c :: r) = false) as ->.
  { change (str "Infinity") with (ch "I" :: str "nfinity").
    cbn [startsWith]. assert ((ch "I" =? c)%N = false) as -> by chars. done. }
  cbn [span]. rewrite Hc. destruct (span isDigit r) as [a b].
  by repeat case_match.
Qed.

(** The numeral that a pattern captured is read as a number. *)
Lemma parseFloat_numeral n :
  numeral n →
  Num.isNaN (parseFloat (replaceFirst (ch ",") (ch ".") n)) = false.
Proof.
  intros (c & r & -> & Hc)%numeral_head. cbn [replaceFirst].
  assert ((c =? ch ",")%N = false) as -> by chars.
  by apply parseFloat_digit.
Qed.

Lemma token_not_blank u s :
  capacityToken u s → isEmpty s || isEmpty (trim s) = false.
Proof.
  intros (before & n & after & -> & (c & r & -> & Hc)%numeral_head & _).
  rewrite blank_forallb. apply not_true_is_false.
  rewrite forallb_Forall, Forall_forall. intros H.
  assert (isWhiteSpace c = true) as Hws.
  { apply H. rewrite !elem_of_app. right. left. by left. }
  chars.
Qed.

Lemma extractStorageInGB_unfold s :
  extractStorageInGB s
  = if isEmpty s || isEmpty (trim s) then None
    else
      let gigabytes :=
        match search (ch "G") s with
        | Some m =>
            let value := parseFloat (replaceFirst (ch ",") (ch ".") m) in
            if negb (Num.isNaN value) then Some value else None
        | None => None
        end in
      match search (ch "T") s with
      | Some m =>
          let value := parseFloat (replaceFirst (ch ",") (ch ".") m) in
          if negb (Num.isNaN value)
          then Some (Num.mul value (Num.ofZ 1024))
          else gigabytes
      | None => gigabytes
      end.
Proof. reflexivity. Qed.

Lemma isUnitLetter_T : isUnitLetter (ch "T").
Proof. by left. Qed.

Lemma isUnitLetter_G : isUnitLetter (ch "G").
Proof. by right. Qed.

(** C5. The three storage texts of the specification, a comma in the
    numeral, and a text where the [GB] token comes first but the [TB]
    token wins.  In general: a text with a [TB] token gives 1024 times
    a numeral of the text that a [TB] suffix follows, read with its comma
    as a decimal point; a text with a [GB] token and no [TB] token
    gives such a numeral followed by [GB]; and the result is [null]
    exactly when the text has no token at all. *)
Theorem extractStorageInGB_reads_the_unit :
  extractStorageInGB (str "825 GB") = Some (Num.ofZ 825)
  ∧ extractStorageInGB (str "1 TB") = Some (Num.ofZ 1024)
  ∧ extractStorageInGB (str "1TB") = Some (Num.ofZ 1024)
  ∧ extractStorageInGB (str "1,5 TB") = Some (Num.ofZ 1536)
  ∧ extractStorageInGB (str "500 GB ou 1 TB") = Some (Num.ofZ 1024)
  ∧ ∀ s,
      (capacityToken (ch "T") s →
       ∃ before n after,
         s = before ++ n ++ after ∧ numeral n ∧ unitSuffix (ch "T") after
         ∧ extractStorageInGB s
           = Some (Num.mul (parseFloat (replaceFirst (ch ",") (ch ".") n))
                           (Num.ofZ 1024)))
      ∧ (¬ capacityToken (ch "T") s → capacityToken (ch "G") s →
         ∃ before n after,
           s = before ++ n ++ after ∧ numeral n ∧ unitSuffix (ch "G") after
           ∧ extractStorageInGB s
             = Some (parseFloat (replaceFirst (ch ",") (ch ".") n)))
      ∧ (extractStorageInGB s = None
         ↔ ¬ capacityToken (ch "T") s ∧ ¬ capacityToken (ch "G") s).
Proof.
  do 5 (split; [num_eq|]).
  intros s.
  pose proof (search_Some_iff (ch "T") s isUnitLetter_T) as HT.
  pose proof (search_Some_iff (ch "G") s isUnitLetter_G) as HG.
  rewrite extractStorageInGB_unfold.
  destruct (search (ch "T") s) as [mT|] eqn:HsT.
  - pose proof (search_sound _ _ _ HsT) as (bT & aT & HeqT & HnT & HuT).
    assert (capacityToken (ch "T") s) as HtokT by (apply HT; eauto).
    rewrite (token_not_blank _ _ HtokT). cbn zeta.
    rewrite (parseFloat_numeral mT HnT). cbn [negb].
    split; [|split].
    + intros _. by exists bT, mT, aT.
    + intros Hno. done.
    + split; [done|]. by intros [Hno _].
  - assert (¬ capacityToken (ch "T") s) as HnoT.
    { intros H%HT. by destruct H. }
    destruct (search (ch "G") s) as [mG|] eqn:HsG.
    + pose proof (search_sound _ _ _ HsG) as (bG & aG & HeqG & HnG & HuG).
      assert (capacityToken (ch "G") s) as HtokG by (apply HG; eauto).
      rewrite (token_not_blank _ _ HtokG). cbn zeta.
      rewrite (parseFloat_numeral mG HnG). cbn [negb].
      split; [done|]. split.
      * intros _ _. by exists bG, mG, aG.
      * split; [done|]. by intros [_ Hno].
    + assert (¬ capacityToken (ch "G") s) as HnoG.
      { intros H%HG. by destruct H. }
      split; [done|]. split; [done|].
      split; [done|]. intros _. by destruct (_ || _).
Qed.

Lemma extractStorageInGB_reads_the_unit_witness :
  ∃ before n after,
    str "SSD 1 TB" = before ++ n ++ after
    ∧ numeral n ∧ unitSuffix (ch "T") after
    ∧ extractStorageInGB (str "SSD 1 TB")
      = Some (Num.mul (parseFloat (replaceFirst (ch ",") (ch ".") n))
                      (Num.ofZ 1024)).
Proof.
  apply (proj2 (proj2 (proj2 (proj2 (proj2
           extractStorageInGB_reads_the_unit)))) (str "SSD 1 TB")).
  exists (str "SSD "), (str "1"), (str " TB").
  split; [reflexivity|]. split.
  - apply numeral_whole. split; [discriminate|]. repeat constructor.
  - exists (str " "), (ch "T"), (ch "B"), [].
    split; [reflexivity|]. split; [|split; reflexivity].
    repeat constructor.
Defined.

(* ===================================================================== *)
(** * Further properties *)
(* ===================================================================== *)

(** ** lib/utils.ts *)

Lemma not_Forall_whiteSpace (s : jsstring) :
  ¬ Forall (λ c, isWhiteSpace c = true) s
  ↔ Exists (λ c, isWhiteSpace c = false) s.
Proof.
  induction s as [|c s IH].
  - split; [intros H; by destruct H|by inversion 1].
  - rewrite Forall_cons, Exists_cons, <- IH.
    destruct (isWhiteSpace c); intuition congruence.
Qed.

(** X1. [hasGames] answers [true] exactly when the text has a character
    that is not white space: any visible text counts as a list of games,
    whatever it says. *)
Theorem hasGames_iff_visible (s : jsstring) :
  hasGames s = true ↔ Exists (λ c, isWhiteSpace c = false) s.
Proof.
  rewrite <- not_Forall_whiteSpace, <- trim_nil. unfold hasGames.
  by destruct (trim s).
Qed.

Lemma numeral_no_minus n : numeral n → ch "-" ∉ n.
Proof.
  assert (∀ d, Forall (λ c, isDigit c = true) d → ch "-" ∉ d) as Hd.
  { intros d Hd Hin. rewrite Forall_forall in Hd.
    specialize (Hd _ Hin). chars. }
  intros [d [_ H]|d1 sep d2 [_ H1] Hsep [_ H2]]; [by apply Hd|].
  rewrite elem_of_app, elem_of_cons. intros [Hin|[<-|Hin]].
  - by apply (Hd d1).
  - chars.
  - by apply (Hd d2).
Qed.

Lemma mul_1024 v :
  Num.isNaN v = false → Num.isNegative v = false →
  Num.isNaN (Num.mul v (Num.ofZ 1024)) = false
  ∧ Num.isNegative (Num.mul v (Num.ofZ 1024)) = false.
Proof.
  destruct v as [|[]|q]; try done.
  intros _ Hq%isNegative_Fin. split; [done|].
  unfold Num.ofZ. cbn [Num.mul]. apply isNegative_Fin.
  rewrite <- (Qcmult_0_l (Q2Qc (inject_Z 1024))).
  by apply Qcmult_le_compat_r.
Qed.

Lemma captured_value m :
  numeral m →
  let value := parseFloat (replaceFirst (ch ",") (ch ".") m) in
  Num.isNaN value = false ∧ Num.isNegative value = false.
Proof.
  intros Hm. split; [by apply parseFloat_numeral|].
  by apply parseFloat_not_negative, replaceFirst_no_minus, numeral_no_minus.
Qed.

Lemma extractStorageInGB_value (s : jsstring) (v : number) :
  extractStorageInGB s = Some v →
  Num.isNaN v = false ∧ Num.isNegative v = false.
Proof.
  rewrite extractStorageInGB_unfold.
  destruct (_ || _); [done|]. cbn zeta.
  assert (∀ u m, search u s = Some m →
            let value := parseFloat (replaceFirst (ch ",") (ch ".") m) in
            Num.isNaN value = false ∧ Num.isNegative value = false) as Hv.
  { intros u m (_ & _ & _ & Hm & _)%search_sound. by apply captured_value. }
  destruct (search (ch "T") s) as [mT|] eqn:HT.
  - destruct (Hv _ _ HT) as [HnanT HnegT]. rewrite HnanT. cbn [negb].
    intros [= <-]. by apply mul_1024.
  - destruct (search (ch "G") s) as [mG|] eqn:HG; [|done].
    destruct (Hv _ _ HG) as [HnanG HnegG]. rewrite HnanG. cbn [negb].
    by intros [= <-].
Qed.

(** X2. A capacity that [extractStorageInGB] returns is a number (not
    [NaN]) and is not negative. *)
Theorem extractStorageInGB_not_negative (s : jsstring) (v : number) :
  extractStorageInGB s = Some v →
  Num.isNaN v = false ∧ Num.isNegative v = false.
Proof. apply extractStorageInGB_value. Qed.

Lemma extractStorageInGB_not_negative_witness :
  Num.isNaN (Num.ofZ 825) = false ∧ Num.isNegative (Num.ofZ 825) = false.
Proof.
  apply (extractStorageInGB_not_negative (str "825 GB") (Num.ofZ 825)).
  num_eq.
Defined.

Lemma removeAll_cons p c s :
  removeAll p (c :: s) = if p c then removeAll p s else c :: removeAll p s.
Proof. unfold removeAll. rewrite filter_cons. by destruct (p c). Qed.

Lemma removeAll_idemp p s : removeAll p (removeAll p s) = removeAll p s.
Proof.
  induction s as [|c s IH]; [done|]. rewrite removeAll_cons.
  destruct (p c) eqn:Hc; [done|]. by rewrite removeAll_cons, Hc, IH.
Qed.

Lemma forallb_removeAll s :
  forallb isWhiteSpace (removeAll isWhiteSpace s) = forallb isWhiteSpace s.
Proof.
  induction s as [|c s IH]; [done|]. rewrite removeAll_cons.
  cbn [forallb]. destruct (isWhiteSpace c) eqn:Hc; [done|].
  cbn [forallb]. by rewrite Hc.
Qed.

(** X3. White space counts nowhere in a price text: taking it out, also
    from between the digits, gives the same price. *)
Theorem normalizePrice_ignores_white_space (s : jsstring) :
  normalizePrice (removeAll isWhiteSpace s) = normalizePrice s.
Proof.
  unfold normalizePrice.
  by rewrite !blank_forallb, !removeAll_trim, forallb_removeAll,
    removeAll_idemp.
Qed.

Lemma parseFloat_NaN_head c t :
  isWhiteSpace c = false → startsNumber c = false →
  parseFloat (c :: t) = NaN.
Proof.
  intros Hws Hc. unfold parseFloat. cbn [trimStart]. rewrite Hws.
  unfold startsNumber in Hc. rewrite !orb_false_iff in Hc.
  destruct Hc as ((((Hdigit & Hsep) & ->) & ->) & HI).
  change (str "Infinity") with (ch "I" :: str "nfinity").
  cbn [startsWith]. rewrite N.eqb_sym, HI. cbn [andb span].
  rewrite Hdigit.
  unfold isSeparator in Hsep. apply orb_false_iff in Hsep as [-> _]. done.
Qed.

Lemma removeAll_visible_head ws c rest :
  Forall (λ x, isWhiteSpace x = true) ws → isWhiteSpace c = false →
  removeAll isWhiteSpace (ws ++ c :: rest)
  = c :: removeAll isWhiteSpace rest.
Proof.
  intros Hws Hc. induction Hws as [|x ws Hx _ IH].
  - by rewrite app_nil_l, removeAll_cons, Hc.
  - by rewrite <- app_comm_cons, removeAll_cons, Hx.
Qed.

(** X4. A price text whose first visible character cannot start a number
    (a currency sign, a letter other than the [I] of [Infinity]) gives the
    price 0, whatever follows it. *)
Theorem normalizePrice_needs_a_leading_number (ws : jsstring) (c : code_unit)
    (rest : jsstring) :
  Forall (λ x, isWhiteSpace x = true) ws →
  isWhiteSpace c = false → startsNumber c = false →
  normalizePrice (ws ++ c :: rest) = Num.ofZ 0.
Proof.
  intros Hws Hc Hstart. unfold normalizePrice.
  rewrite blank_forallb, removeAll_trim, (removeAll_visible_head ws c rest)
    by done.
  destruct (forallb _ _); [done|].
  assert (isDot c = false ∧ (c =? ch ",")%N = false) as [Hdot Hcomma].
  { unfold startsNumber, isSeparator in Hstart.
    rewrite !orb_false_iff in Hstart. unfold isDot. tauto. }
  set (r := removeAll isWhiteSpace rest).
  rewrite (removeAll_cons isDot c r), Hdot. cbn [replaceFirst].
  rewrite Hcomma.
  destruct (includesChar (ch ",") (c :: r));
    [|destruct (includesChar (ch ".") (c :: r));
      [destruct (length (split _ _) =? 2)%nat;
       [destruct (length (nth 1 _ _) =? 2)%nat|]|]];
    by rewrite parseFloat_NaN_head.
Qed.

Lemma normalizePrice_needs_a_leading_number_witness :
  normalizePrice (str " R$ 3.999,00") = Num.ofZ 0.
Proof.
  apply (normalizePrice_needs_a_leading_number
           (str " ") (ch "R") (str "$ 3.999,00")).
  - repeat constructor.
  - reflexivity.
  - reflexivity.
Defined.

(** *** The value of a price *)

Lemma span_app p a c r :
  Forall (λ x, p x = true) a → p c = false →
  span p (a ++ c :: r) = (a, c :: r).
Proof.
  intros Ha Hc. induction Ha as [|x a Hx _ IH].
  - cbn [app span]. by rewrite Hc.
  - rewrite <- app_comm_cons. cbn [span]. by rewrite Hx, IH.
Qed.

Lemma span_all p a : Forall (λ x, p x = true) a → span p a = (a, []).
Proof.
  induction 1 as [|x a Hx _ IH]; [done|]. cbn [span]. by rewrite Hx, IH.
Qed.

Lemma parseFloat_digits_head c r :
  isDigit c = true →
  parseFloat (c :: r)
  = let '(ip, r1) := span isDigit (c :: r) in
    let '(fp, r2) :=
      match r1 with
      | c :: r => if (c =? ch ".")%N then span isDigit r else ([], r1)
      | [] => ([], r1)
      end in
    match ip, fp with
    | [], [] => NaN
    | _, _ =>
        Fin (decimal (digitsValue (ip ++ fp))
                     (parseExponent r2 - Z.of_nat (length fp)))
    end.
Proof.
  intros Hc. unfold parseFloat.
  assert (isWhiteSpace c = false) as Hws by chars.
  cbn [trimStart]. rewrite Hws.
  assert ((c =? ch "-")%N = false) as -> by chars.
  assert ((c =? ch "+")%N = false) as -> by chars.
  assert (startsWith (str "Infinity") (c :: r) = false) as ->.
  { change (str "Infinity") with (ch "I" :: str "nfinity").
    cbn [startsWith]. assert ((ch "I" =? c)%N = false) as -> by chars. done. }
  done.
Qed.

Lemma parseFloat_decimal whole frac :
  digits whole → Forall (λ c, isDigit c = true) frac →
  parseFloat (whole ++ ch "." :: frac)
  = Fin (decimal (digitsValue (whole ++ frac)) (- Z.of_nat (length frac))).
Proof.
  intros [Hne Hwhole] Hfrac. destruct whole as [|c r]; [done|].
  rewrite <- app_comm_cons, parseFloat_digits_head by by inversion Hwhole.
  rewrite app_comm_cons, span_app by done.
  rewrite N.eqb_refl, span_all by done. by destruct frac.
Qed.

Lemma parseFloat_integer whole :
  digits whole → parseFloat whole = Num.ofZ (digitsValue whole).
Proof.
  intros [Hne Hwhole]. destruct whole as [|c r]; [done|].
  rewrite parseFloat_digits_head by by inversion Hwhole.
  rewrite span_all by done. rewrite app_nil_r.
  unfold decimal, Num.ofZ. cbn [parseExponent length Z.of_nat Z.sub Z.leb
                                Z.compare Z.opp Z.add].
  by rewrite Z.pow_0_r, Z.mul_1_r.
Qed.

Lemma removeAll_none p s :
  Forall (λ c, p c = false) s → removeAll p s = s.
Proof.
  induction 1 as [|c s Hc _ IH]; [done|]. by rewrite removeAll_cons, Hc, IH.
Qed.

Lemma removeAll_app p a b :
  removeAll p (a ++ b) = removeAll p a ++ removeAll p b.
Proof. apply filter_app. Qed.

Lemma replaceFirst_app a b w r :
  a ∉ w → replaceFirst a b (w ++ a :: r) = w ++ b :: r.
Proof.
  induction w as [|c w IH]; intros Hw.
  - cbn [app replaceFirst]. by rewrite N.eqb_refl.
  - apply not_elem_of_cons in Hw as [Hc Hw].
    rewrite <- !app_comm_cons. cbn [replaceFirst].
    rewrite (proj2 (N.eqb_neq c a)) by done. by rewrite IH.
Qed.

Lemma digit_or_dot c :
  isDigit c || isDot c = true →
  isWhiteSpace c = false ∧ c ≠ ch ",".
Proof. intros Hc. split; [chars|intros ->; chars]. Qed.

Lemma digits_removeAll_isDot whole :
  grouped whole → digits (removeAll isDot whole).
Proof.
  intros [(c & r & -> & Hc) Hall]. split.
  - rewrite removeAll_cons. assert (isDot c = false) as -> by chars. done.
  - apply Forall_forall. intros x [Hx Hin]%list_elem_of_filter.
    rewrite Forall_forall in Hall. specialize (Hall x Hin).
    destruct (isDot x); [done|]. by rewrite orb_false_r in Hall.
Qed.

Lemma digits_no_dot d : Forall (λ c, isDigit c = true) d →
  Forall (λ c, isDot c = false) d.
Proof. intros Hd. eapply Forall_impl; [done|]. intros c Hc. chars. Qed.

(** X5. A price in the notation of Brazil, a comma before the cents and
    dots between the groups of thousands, of at most 15 digits in all,
    gets its value: the digits of the whole part without the dots, with
    as many decimals as digits follow the comma.  (Up to 15 digits
    binary64 tells the decimal numbers apart, and a whole number of 15
    digits is below 2^53; beyond that the code rounds and the embedding
    does not.) *)
Theorem normalizePrice_decimal_comma (whole frac : jsstring) :
  grouped whole → Forall (λ c, isDigit c = true) frac →
  (length (removeAll isDot whole) + length frac ≤ 15)%nat →
  normalizePrice (whole ++ ch "," :: frac)
  = Fin (decimal (digitsValue (removeAll isDot whole ++ frac))
                 (- Z.of_nat (length frac))).
Proof.
  intros Hwhole Hfrac _.
  pose proof (digits_removeAll_isDot whole Hwhole) as Hdigits.
  destruct Hwhole as [(c & r & Hcr & Hc) Hall].
  set (s := whole ++ ch "," :: frac).
  assert (Forall (λ x, isWhiteSpace x = false) s) as Hvisible.
  { apply Forall_app. split; [|constructor; [done|]].
    - eapply Forall_impl; [done|]. intros x Hx. by apply digit_or_dot.
    - eapply Forall_impl; [done|]. intros x Hx. chars. }
  unfold normalizePrice.
  rewrite blank_forallb, removeAll_trim, (removeAll_none _ s) by done.
  assert (forallb isWhiteSpace s = false) as ->.
  { unfold s. rewrite Hcr. cbn [app forallb].
    assert (isWhiteSpace c = false) as -> by chars. done. }
  assert (includesChar (ch ",") s = true) as ->.
  { apply not_false_iff_true. rewrite includesChar_false.
    intros Hno. apply Hno. unfold s. rewrite elem_of_app. right. left. }
  unfold s. rewrite removeAll_app, removeAll_cons.
  change (isDot (ch ",")) with false. cbv iota.
  rewrite (removeAll_none isDot frac) by by apply digits_no_dot.
  rewrite replaceFirst_app.
  - by rewrite parseFloat_decimal.
  - intros [_ Hin]%list_elem_of_filter. rewrite Forall_forall in Hall.
    by destruct (digit_or_dot _ (Hall _ Hin)).
Qed.

Lemma normalizePrice_decimal_comma_witness :
  normalizePrice (str "1.234" ++ ch "," :: str "56")
  = Fin (decimal (digitsValue (removeAll isDot (str "1.234") ++ str "56"))
                 (- Z.of_nat (length (str "56")))).
Proof.
  apply (normalizePrice_decimal_comma (str "1.234") (str "56")).
  - split; [by exists (ch "1"), (str ".234")|repeat constructor].
  - repeat constructor.
  - vm_compute. lia.
Defined.

Lemma first_dot s :
  countDots s = 1%nat →
  ∃ before,
    s = before ++ ch "." :: afterFirst (ch ".") s
    ∧ Forall (λ c, isDot c = false) before
    ∧ Forall (λ c, isDot c = false) (afterFirst (ch ".") s).
Proof.
  induction s as [|c s IH]; [done|].
  rewrite countDots_cons, afterFirst_cons. fold (isDot c).
  destruct (isDot c) eqn:Hc.
  - intros [= Hs]. exists []. split; [|split; [done|]].
    + unfold isDot in Hc. apply N.eqb_eq in Hc. by rewrite Hc.
    + apply Forall_forall. intros x Hx. by apply (countDots_zero s).
  - intros (before & Heq & Hb & Ha)%IH. exists (c :: before).
    split; [|split; [by constructor|done]].
    rewrite <- app_comm_cons. by f_equal.
Qed.

Lemma digits_of_grouped s :
  grouped s → Forall (λ c, isDot c = false) s → digits s.
Proof.
  intros [(c & r & -> & Hc) Hall] Hdots. split; [done|].
  apply Forall_forall. intros x Hx. rewrite Forall_forall in Hall, Hdots.
  specialize (Hall x Hx). by rewrite (Hdots x Hx), orb_false_r in Hall.
Qed.

(** X6. A price without a comma, at most 15 digits with or without dots:
    when there is exactly one dot and exactly two characters follow it,
    the dot is the decimal point and the value is the digits divided by
    100; in every other case the dots are dropped and the value is the
    whole number that the digits write (so that [1.5] gives 15).  (A
    whole number of 15 digits is below 2^53, where binary64 is exact;
    beyond that the code rounds and the embedding does not.) *)
Theorem normalizePrice_dots (s : jsstring) :
  grouped s →
  (length (removeAll isDot s) ≤ 15)%nat →
  normalizePrice s
  = if (countDots s =? 1)%nat && (length (afterFirst (ch ".") s) =? 2)%nat
    then Fin (decimal (digitsValue (removeAll isDot s)) (- 2))
    else Num.ofZ (digitsValue (removeAll isDot s)).
Proof.
  intros Hs _.
  pose proof (digits_removeAll_isDot s Hs) as Hdigits.
  pose proof Hs as [(c & r & Hcr & Hc) Hall].
  assert (Forall (λ x, isWhiteSpace x = false) s) as Hvisible.
  { eapply Forall_impl; [done|]. intros x Hx. by apply digit_or_dot. }
  unfold normalizePrice.
  rewrite blank_forallb, removeAll_trim, (removeAll_none _ s) by done.
  assert (forallb isWhiteSpace s = false) as ->.
  { rewrite Hcr. cbn [forallb].
    assert (isWhiteSpace c = false) as -> by chars. done. }
  assert (includesChar (ch ",") s = false) as ->.
  { apply includesChar_false. intros Hin. rewrite Forall_forall in Hall.
    by destruct (digit_or_dot _ (Hall _ Hin)). }
  rewrite includesChar_dot, length_split.
  destruct (countDots s) as [|[|n]] eqn:Hdots; cbn [Nat.eqb Nat.leb andb].
  - rewrite parseFloat_integer.
    + rewrite removeAll_none; [done|]. apply Forall_forall.
      intros x Hx. by apply (countDots_zero s).
    + apply digits_of_grouped; [done|]. apply Forall_forall.
      intros x Hx. by apply (countDots_zero s).
  - rewrite nth_1_split by done.
    destruct (first_dot s Hdots) as (before & Heq & Hbefore & Hafter).
    set (frac := afterFirst (ch ".") s) in *.
    destruct (length frac =? 2)%nat eqn:Hlen;
      [|by rewrite parseFloat_integer].
    apply Nat.eqb_eq in Hlen.
    assert (removeAll isDot s = before ++ frac) as Hremoved.
    { rewrite Heq at 1. rewrite removeAll_app, removeAll_cons.
      change (isDot (ch ".")) with true. cbv iota.
      by rewrite !removeAll_none. }
    assert (Forall (λ x, isDigit x || isDot x = true) before
            ∧ Forall (λ x, isDigit x || isDot x = true) frac) as [Hb Hf].
    { rewrite Heq in Hall. apply Forall_app in Hall as [Hb Hf].
      by inversion Hf. }
    assert (digits before) as Hwhole.
    { apply digits_of_grouped; [|done]. split; [|done].
      destruct before as [|b before'].
      - rewrite Hcr in Heq. injection Heq as -> _. chars.
      - exists b, before'. split; [done|]. rewrite Hcr in Heq.
        by injection Heq as -> _. }
    assert (Forall (λ x, isDigit x = true) frac) as Hfrac.
    { apply Forall_forall. intros x Hx. rewrite Forall_forall in Hf, Hafter.
      specialize (Hf x Hx). by rewrite (Hafter x Hx), orb_false_r in Hf. }
    rewrite Hremoved, Heq, (parseFloat_decimal before frac) by done.
    cbn [Num.isNaN]. by rewrite Hlen.
  - by rewrite parseFloat_integer.
Qed.

Lemma normalizePrice_dots_witness :
  normalizePrice (str "1.5")
  = if (countDots (str "1.5") =? 1)%nat
       && (length (afterFirst (ch ".") (str "1.5")) =? 2)%nat
    then Fin (decimal (digitsValue (removeAll isDot (str "1.5"))) (- 2))
    else Num.ofZ (digitsValue (removeAll isDot (str "1.5"))).
Proof.
  apply (normalizePrice_dots (str "1.5")).
  - split; [by exists (ch "1"), (str ".5")|repeat constructor].
  - vm_compute. lia.
Defined.

(** ** lib/data-loader.ts: the ranges of [getFilterValues] *)

Lemma le_refl x : x ≠ NaN → Num.le x x = true.
Proof. intros Hx. apply le_spec. auto. Qed.

Lemma lt_le x y : Num.lt x y = true → Num.le x y = true.
Proof. intros H. apply le_spec. auto. Qed.

Lemma lt_not_NaN x y : Num.lt x y = true → x ≠ NaN ∧ y ≠ NaN.
Proof. by destruct x as [|[]|], y as [|[]|]. Qed.

Lemma le_not_NaN x y : Num.le x y = true → x ≠ NaN ∧ y ≠ NaN.
Proof.
  intros [H|[-> H]]%le_spec; [by apply lt_not_NaN|done].
Qed.

Lemma le_lt_false x y : Num.le x y = true → Num.lt y x = false.
Proof.
  intros [H|[-> H]]%le_spec; [by apply lt_asym|apply lt_irrefl].
Qed.

Lemma eqb_false x y : x ≠ NaN → Num.eqb x y = false → x ≠ y.
Proof. intros Hx H <-. by rewrite eqb_refl in H. Qed.

Lemma le_Fin a b : Num.le (Fin a) (Fin b) = true ↔ (a ≤ b)%Qc.
Proof.
  unfold Num.le. cbn [Num.lt Num.eqb].
  rewrite orb_true_iff, Qc_ltb_lt, Qc_eqb_eq. split.
  - intros [H| ->]; [by apply Qclt_le_weak|apply Qcle_refl].
  - intros H. destruct (Qcle_lt_or_eq _ _ H); auto.
Qed.

Lemma floor_le x : x ≠ NaN → Num.le (Num.floor x) x = true.
Proof.
  destruct x as [|[]|q]; [done..|]. intros _.
  unfold Num.floor, Num.ofZ. apply le_Fin.
  unfold Qcle. cbn [this Q2Qc]. rewrite Qred_correct. apply Qfloor_le.
Qed.

Lemma le_ceil x : x ≠ NaN → Num.le x (Num.ceil x) = true.
Proof.
  destruct x as [|[]|q]; [done..|]. intros _.
  unfold Num.ceil, Num.ofZ. apply le_Fin.
  unfold Qcle. cbn [this Q2Qc]. rewrite Qred_correct. apply Qle_ceiling.
Qed.

Lemma min_spec b y :
  b ≠ NaN → y ≠ NaN →
  Num.min b y ≠ NaN ∧ Num.le (Num.min b y) b = true
  ∧ Num.le (Num.min b y) y = true ∧ (Num.min b y = b ∨ Num.min b y = y).
Proof.
  intros Hb Hy. rewrite min_unfold by done.
  destruct (Num.lt y b) eqn:H.
  - auto using lt_le, le_refl.
  - auto using not_lt_le, le_refl.
Qed.

Lemma max_spec b y :
  b ≠ NaN → y ≠ NaN →
  Num.max b y ≠ NaN ∧ Num.le b (Num.max b y) = true
  ∧ Num.le y (Num.max b y) = true ∧ (Num.max b y = b ∨ Num.max b y = y).
Proof.
  intros Hb Hy. rewrite max_unfold by done.
  destruct (Num.lt b y) eqn:H.
  - auto using lt_le, le_refl.
  - auto using not_lt_le, le_refl.
Qed.

Lemma fold_min_spec xs b :
  b ≠ NaN → Forall (λ x, x ≠ NaN) xs →
  let m := fold_left Num.min xs b in
  m ≠ NaN ∧ Num.le m b = true ∧ Forall (λ x, Num.le m x = true) xs
  ∧ (m = b ∨ m ∈ xs).
Proof.
  intros Hb Hxs. revert b Hb.
  induction Hxs as [|x xs Hx _ IH]; intros b Hb; cbn [fold_left].
  - auto using le_refl.
  - destruct (min_spec b x Hb Hx) as (Hm & Hmb & Hmx & Hmeq).
    destruct (IH _ Hm) as (Hn & Hle & Hall & Hin).
    split; [done|]. split; [exact (le_transitive _ _ _ Hle Hmb)|]. split.
    + constructor; [exact (le_transitive _ _ _ Hle Hmx)|done].
    + destruct Hin as [->|Hin]; [|by right; right].
      destruct Hmeq as [->| ->]; [by left|by right; left].
Qed.

Lemma fold_max_spec xs b :
  b ≠ NaN → Forall (λ x, x ≠ NaN) xs →
  let m := fold_left Num.max xs b in
  m ≠ NaN ∧ Num.le b m = true ∧ Forall (λ x, Num.le x m = true) xs
  ∧ (m = b ∨ m ∈ xs).
Proof.
  intros Hb Hxs. revert b Hb.
  induction Hxs as [|x xs Hx _ IH]; intros b Hb; cbn [fold_left].
  - auto using le_refl.
  - destruct (max_spec b x Hb Hx) as (Hm & Hmb & Hmx & Hmeq).
    destruct (IH _ Hm) as (Hn & Hle & Hall & Hin).
    split; [done|]. split; [exact (le_transitive _ _ _ Hmb Hle)|]. split.
    + constructor; [exact (le_transitive _ _ _ Hmx Hle)|done].
    + destruct Hin as [->|Hin]; [|by right; right].
      destruct Hmeq as [->| ->]; [by left|by right; left].
Qed.

Lemma fold_widenPrice f l b :
  fold_left (widenPrice f) l b
  = fold_left f
      (preco_vista <$>
         filter (λ p, Num.gt (preco_vista p) (Num.ofZ 0) = true) l) b.
Proof.
  revert b. induction l as [|p l IH]; intros b; [done|].
  cbn [fold_left]. rewrite IH. unfold widenPrice.
  rewrite filter_cons. destruct (Num.gt (preco_vista p) _) eqn:Hp.
  - by rewrite decide_True.
  - by rewrite decide_False.
Qed.

Lemma fold_widenStorage f l b :
  fold_left (widenStorage f) l b
  = fold_left f (omap espaco_armazenamento_gb l) b.
Proof.
  revert b. induction l as [|p l IH]; intros b; [done|].
  cbn [fold_left omap list_omap]. rewrite IH. unfold widenStorage.
  by destruct (espaco_armazenamento_gb p).
Qed.

Lemma positive_prices products :
  let xs := preco_vista <$>
              filter (λ p, Num.gt (preco_vista p) (Num.ofZ 0) = true)
                     products in
  Forall (λ x, x ≠ NaN) xs
  ∧ ∀ x, x ∈ xs
         ↔ ∃ p, p ∈ products ∧ Num.gt (preco_vista p) (Num.ofZ 0) = true
                ∧ x = preco_vista p.
Proof.
  intros xs.
  assert (∀ x, x ∈ xs
               ↔ ∃ p, p ∈ products
                      ∧ Num.gt (preco_vista p) (Num.ofZ 0) = true
                      ∧ x = preco_vista p) as Hxs.
  { intros x. unfold xs. rewrite list_elem_of_fmap.
    split; intros (p & H1 & H2).
    - apply list_elem_of_filter in H2 as [H2 H3]. by exists p.
    - destruct H2 as [H2 H3]. exists p. split; [done|].
      by apply list_elem_of_filter. }
  split; [|done]. apply Forall_forall. intros x (p & _ & Hp & ->)%Hxs.
  by apply lt_not_NaN in Hp as [_ Hp].
Qed.

(** X7. The price range that [getFilterValues] reports holds every
    price above 0 of the collection: [precoMin] is at most and [precoMax]
    at least each of them.  When a record has a finite price above 0,
    [precoMin] is the floor of a price of the collection and [precoMax]
    the ceiling of one; when no price is above 0, the range is 0 to
    10000. *)
Theorem getFilterValues_price_range (products : list Product) :
  let v := getFilterValues products in
  (∀ p, p ∈ products → Num.gt (preco_vista p) (Num.ofZ 0) = true →
        Num.le (Response.precoMin v) (preco_vista p) = true
        ∧ Num.le (preco_vista p) (Response.precoMax v) = true)
  ∧ ((∃ p q, p ∈ products ∧ preco_vista p = Fin q
             ∧ Num.gt (Fin q) (Num.ofZ 0) = true) →
     ∃ lo hi, lo ∈ products ∧ hi ∈ products
              ∧ Num.gt (preco_vista lo) (Num.ofZ 0) = true
              ∧ Num.gt (preco_vista hi) (Num.ofZ 0) = true
              ∧ Response.precoMin v = Num.floor (preco_vista lo)
              ∧ Response.precoMax v = Num.ceil (preco_vista hi))
  ∧ ((∀ p, p ∈ products → Num.gt (preco_vista p) (Num.ofZ 0) = false) →
     Response.precoMin v = Num.ofZ 0
     ∧ Response.precoMax v = Num.ofZ 10000).
Proof.
  unfold getFilterValues. rewrite fold_visit.
  cbn [Response.precoMin Response.precoMax Locals.precoMin Locals.precoMax].
  rewrite !fold_widenPrice.
  destruct (positive_prices products) as [Hnum Hxs].
  set (xs := preco_vista <$> _) in *.
  destruct (fold_min_spec xs (Infinity false) ltac:(done) Hnum)
    as (Hm & _ & Hmin & Hmin_in).
  destruct (fold_max_spec xs (Num.ofZ 0) ltac:(done) Hnum)
    as (HM & _ & Hmax & Hmax_in).
  set (m := fold_left Num.min xs _) in *.
  set (M := fold_left Num.max xs _) in *.
  rewrite Forall_forall in Hmin, Hmax.
  assert (∀ x, x ∈ xs → Num.eqb M (Num.ofZ 0) = false) as HM0.
  { intros x Hx. destruct (Num.eqb M _) eqn:HM0; [|done].
    apply eqb_eq in HM0. pose proof (Hmax _ Hx) as Hle.
    apply Hxs in Hx as (p & _ & Hp & ->).
    apply le_lt_false in Hle. rewrite HM0 in Hle. unfold Num.gt in Hp.
    congruence. }
  split; [|split].
  - intros p Hp Hpos.
    assert (preco_vista p ∈ xs) as Hin by (apply Hxs; eauto).
    split.
    + destruct (Num.eqb m _); [by apply lt_le|].
      exact (le_transitive _ _ _ (floor_le m Hm) (Hmin _ Hin)).
    + rewrite (HM0 _ Hin).
      exact (le_transitive _ _ _ (Hmax _ Hin) (le_ceil M HM)).
  - intros (p & q & Hp & Hq & Hpos).
    assert (Fin q ∈ xs) as Hin.
    { apply Hxs. exists p. by rewrite Hq. }
    assert (m ≠ Infinity false) as Hfinite.
    { intros Heq. pose proof (Hmin _ Hin) as Hle. by rewrite Heq in Hle. }
    destruct Hmin_in as [?|Hlo]; [done|].
    destruct Hmax_in as [HMb|Hhi].
    { pose proof (HM0 _ Hin) as H0. rewrite HMb, eqb_refl in H0; done. }
    apply Hxs in Hlo as (lo & Hlo & Hlopos & Hloeq).
    apply Hxs in Hhi as (hi & Hhi & Hhipos & Hhieq).
    exists lo, hi. rewrite (HM0 _ Hin).
    destruct (Num.eqb m _) eqn:Heqb; [by apply eqb_eq in Heqb|].
    by rewrite Hloeq, Hhieq.
  - intros Hnone.
    assert (xs = []) as Hnil.
    { destruct xs as [|x xs'] eqn:Heq; [done|].
      destruct (proj1 (Hxs x) ltac:(left)) as (p & Hp & Hpos & _).
      rewrite (Hnone _ Hp) in Hpos. done. }
    unfold m, M. rewrite Hnil. cbn [fold_left].
    by rewrite (eqb_refl (Num.ofZ 0)).
Qed.

Lemma getFilterValues_price_range_witness :
  let products := [mkProduct "A" 3999; mkProduct "B" 450] in
  let v := getFilterValues products in
  Num.le (Response.precoMin v) (preco_vista (mkProduct "B" 450)) = true
  ∧ Num.le (preco_vista (mkProduct "B" 450)) (Response.precoMax v) = true.
Proof.
  apply (proj1 (getFilterValues_price_range
                  [mkProduct "A" 3999; mkProduct "B" 450])
               (mkProduct "B" 450)).
  - right. left.
  - reflexivity.
Defined.

Lemma storages products :
  Forall (λ p, espaco_armazenamento_gb p ≠ Some NaN) products →
  let xs := omap espaco_armazenamento_gb products in
  Forall (λ x, x ≠ NaN) xs
  ∧ ∀ x, x ∈ xs ↔ ∃ p, p ∈ products ∧ espaco_armazenamento_gb p = Some x.
Proof.
  intros Hnum xs.
  assert (∀ x, x ∈ xs
               ↔ ∃ p, p ∈ products ∧ espaco_armazenamento_gb p = Some x)
    as Hxs by (intros x; apply list_elem_of_omap).
  split; [|done]. apply Forall_forall. intros x (p & Hp & Hx)%Hxs ->.
  rewrite Forall_forall in Hnum. by apply (Hnum p).
Qed.

(** X8. When no capacity of the collection is [NaN] (as for every
    collection that [loadProducts] builds), the capacity range that
    [getFilterValues] reports holds every capacity of the collection;
    when no record has a capacity, the range is 0 to 2000. *)
Theorem getFilterValues_storage_range (products : list Product) :
  Forall (λ p, espaco_armazenamento_gb p ≠ Some NaN) products →
  let v := getFilterValues products in
  (∀ p gb, p ∈ products → espaco_armazenamento_gb p = Some gb →
           Num.le (Response.espacoMin v) gb = true
           ∧ Num.le gb (Response.espacoMax v) = true)
  ∧ ((∀ p, p ∈ products → espaco_armazenamento_gb p = None) →
     Response.espacoMin v = Num.ofZ 0
     ∧ Response.espacoMax v = Num.ofZ 2000).
Proof.
  intros Hproducts. unfold getFilterValues. rewrite fold_visit.
  cbn [Response.espacoMin Response.espacoMax Locals.espacoMin
       Locals.espacoMax].
  rewrite !fold_widenStorage.
  destruct (storages products Hproducts) as [Hnum Hxs].
  set (xs := omap _ _) in *.
  destruct (fold_min_spec xs (Infinity false) ltac:(done) Hnum)
    as (Hm & _ & Hmin & _).
  destruct (fold_max_spec xs (Num.ofZ 0) ltac:(done) Hnum)
    as (HM & _ & Hmax & _).
  set (m := fold_left Num.min xs _) in *.
  set (M := fold_left Num.max xs _) in *.
  rewrite Forall_forall in Hmin, Hmax, Hnum.
  split.
  - intros p gb Hp Hgb.
    assert (gb ∈ xs) as Hin by (apply Hxs; eauto).
    split.
    + destruct (Num.eqb m _) eqn:Heqb.
      * apply eqb_eq in Heqb. pose proof (Hmin _ Hin) as Hle.
        rewrite Heqb in Hle. by destruct gb as [|[]|].
      * exact (le_transitive _ _ _ (floor_le m Hm) (Hmin _ Hin)).
    + destruct (Num.eqb M _) eqn:Heqb.
      * apply eqb_eq in Heqb. pose proof (Hmax _ Hin) as Hle.
        rewrite Heqb in Hle.
        exact (le_transitive _ _ (Num.ofZ 2000) Hle eq_refl).
      * exact (le_transitive _ _ _ (Hmax _ Hin) (le_ceil M HM)).
  - intros Hnone.
    assert (xs = []) as Hnil.
    { destruct xs as [|x xs'] eqn:Heq; [done|].
      destruct (proj1 (Hxs x) ltac:(left)) as (p & Hp & Hx).
      rewrite (Hnone _ Hp) in Hx. done. }
    unfold m, M. rewrite Hnil. cbn [fold_left].
    by rewrite (eqb_refl (Num.ofZ 0)).
Qed.

Lemma getFilterValues_storage_range_witness :
  let v := getFilterValues (collection demoFiles initial) in
  (∀ p gb, p ∈ collection demoFiles initial →
           espaco_armazenamento_gb p = Some gb →
           Num.le (Response.espacoMin v) gb = true
           ∧ Num.le gb (Response.espacoMax v) = true)
  ∧ ((∀ p, p ∈ collection demoFiles initial →
           espaco_armazenamento_gb p = None) →
     Response.espacoMin v = Num.ofZ 0
     ∧ Response.espacoMax v = Num.ofZ 2000).
Proof.
  apply (getFilterValues_storage_range (collection demoFiles initial)).
  repeat constructor; vm_compute; discriminate.
Defined.

(** ** app/api/products/route.ts: what a response holds *)

Lemma implb_true_iff (a b : bool) : implb a b = true ↔ (a = true → b = true).
Proof. destruct a, b; simpl; intuition congruence. Qed.

Lemma text_filter_iff (x : option jsstring) (f : jsstring → bool) :
  (from_option truthy false x = true → f (default [] x) = true)
  ↔ (∀ q, x = Some q → q ≠ [] → f q = true).
Proof.
  destruct x as [[|c q]|]; simpl.
  - split; [by intros _ q [= <-]|done].
  - split; [by intros H q' [= <-] _; apply H|by intros H _; apply H].
  - split; [by intros _ q|done].
Qed.

Lemma bound_filter_iff (x : option number) (f : number → bool) :
  (bool_decide (x ≠ None) = true → f (default NaN x) = true)
  ↔ (∀ m, x = Some m → f m = true).
Proof.
  rewrite bool_decide_eq_true. destruct x as [m|]; simpl.
  - split; [by intros H m' [= <-]; apply H|by intros H _; apply H].
  - split; [by intros _ m|done].
Qed.

Lemma equal_filter_iff {A} `{EqDecision A} (x : option A) (v : A) :
  (bool_decide (x ≠ None) = true → bool_decide (Some v = x) = true)
  ↔ (∀ c, x = Some c → v = c).
Proof.
  rewrite !bool_decide_eq_true. destruct x as [c|].
  - split; [intros H c' [= <-]; by injection (H ltac:(done))|].
    intros H _. by rewrite (H c).
  - split; [by intros _ c|done].
Qed.

Lemma list_filter_iff (x : option (list jsstring)) (s : jsstring) :
  (nonEmpty x = true → Array_includes x s = true)
  ↔ (∀ l, x = Some l → l ≠ [] → s ∈ l).
Proof.
  unfold Array_includes. rewrite bool_decide_eq_true.
  destruct x as [[|v l]|]; simpl.
  - split; [by intros _ l [= <-]|done].
  - split; [by intros H l' [= <-] _; apply H|by intros H _; apply H].
  - split; [by intros _ l|done].
Qed.

Lemma storage_filter_iff (x : option number) (gb : option number)
    (cmp : number → number → bool) :
  (bool_decide (x ≠ None) = true →
   match gb with Some g => cmp g (default NaN x) | None => false end = true)
  ↔ (∀ m, x = Some m → ∃ g, gb = Some g ∧ cmp g m = true).
Proof.
  rewrite bool_decide_eq_true. destruct x as [m|]; simpl.
  - split.
    + intros H m' [= <-]. destruct gb as [g|]; [|by discriminate H].
      exists g. split; [done|]. by apply H.
    + intros H _. by destruct (H m eq_refl) as (g & -> & Hg).
  - split; [by intros _ m|done].
Qed.

Ltac rewrite_beta H :=
  let H' := fresh in
  pose proof H as H'; cbv beta in H'; rewrite H'; clear H'.

Lemma selected_meets toLowerCase filters p :
  selected toLowerCase filters p = true ↔ meets toLowerCase filters p.
Proof.
  unfold selected, filterSteps, meets. cbn [forallb fst snd].
  rewrite !andb_true_iff, !implb_true_iff.
  rewrite_beta (text_filter_iff (Filters.query filters)
                  (λ q, includes (toLowerCase q)
                          (searchableText toLowerCase p))).
  rewrite_beta (bound_filter_iff (Filters.precoMin filters)
                  (λ m, Num.ge (preco_vista p) m)).
  rewrite_beta (bound_filter_iff (Filters.precoMax filters)
                  (λ m, Num.le (preco_vista p) m)).
  rewrite !list_filter_iff, !equal_filter_iff.
  rewrite (storage_filter_iff (Filters.espacoMin filters) _ Num.ge).
  rewrite (storage_filter_iff (Filters.espacoMax filters) _ Num.le).
  tauto.
Qed.

Lemma elem_of_slice {A} (x : A) startIndex endIndex (l : list A) :
  x ∈ slice startIndex endIndex l → x ∈ l.
Proof.
  unfold slice. intros H. eapply elem_of_sublist; [done|].
  etrans; [apply sublist_take|apply sublist_drop].
Qed.

Lemma slice_nil {A} startIndex endIndex :
  slice startIndex endIndex (@nil A) = [].
Proof. unfold slice. by rewrite drop_nil, take_nil. Qed.

Lemma filter_nil_iff {A} (P : A → Prop) `{∀ x, Decision (P x)} (l : list A) :
  filter P l = [] ↔ ∀ x, x ∈ l → ¬ P x.
Proof.
  split; [intros Hl x Hx HP; by apply (filter_nil_not_elem_of P l x)|].
  intros Hl. induction l as [|x l IH]; [done|].
  rewrite filter_cons_False by (apply Hl; left).
  apply IH. intros y Hy. apply Hl. by right.
Qed.

Lemma matching_nil toLowerCase filters coll :
  filter (λ p, selected toLowerCase filters p) coll = []
  ↔ ∀ p, p ∈ coll → ¬ meets toLowerCase filters p.
Proof.
  rewrite filter_nil_iff. apply forall_proper; intros p.
  by rewrite Is_true_true, selected_meets.
Qed.

(** X9. Every record of a response belongs to the collection and meets
    each filter that is set: the text is found, the price and the
    capacity lie within the bounds (bounds included; a record without a
    capacity never passes a capacity bound), and the model, type, brand,
    shop, controllers and games are among the ones asked for.  The total
    is 0 exactly when no record of the collection meets the filters. *)
Theorem GET_returns_only_matches (toLowerCase : jsstring → jsstring)
    (fs : files) (st : state) (filters : SearchFilters)
    (resp : SearchResponse) (st' : state) :
  wf st →
  GET toLowerCase fs filters st = (resp, st') →
  (∀ p, p ∈ Response.products resp →
        p ∈ collection fs st ∧ meets toLowerCase filters p)
  ∧ (Response.total resp = 0%nat
     ↔ ∀ p, p ∈ collection fs st → ¬ meets toLowerCase filters p).
Proof.
  intros Hwf HGET.
  destruct (GET_spec toLowerCase _ _ _ _ _ Hwf HGET)
    as (Hprod & Htotal & _).
  split.
  - intros p Hp. rewrite Hprod in Hp. apply elem_of_slice in Hp.
    rewrite ordered_Permutation in Hp.
    apply list_elem_of_filter in Hp as [Hsel Hin].
    split; [done|]. by apply selected_meets, Is_true_true.
  - rewrite Htotal, length_zero_iff_nil. apply matching_nil.
Qed.

Lemma GET_returns_only_matches_witness :
  let resp := (GET asciiLower demoFiles (fromPrice 4000) initial).1 in
  (∀ p, p ∈ Response.products resp →
        p ∈ collection demoFiles initial
        ∧ meets asciiLower (fromPrice 4000) p)
  ∧ (Response.total resp = 0%nat
     ↔ ∀ p, p ∈ collection demoFiles initial →
            ¬ meets asciiLower (fromPrice 4000) p).
Proof.
  apply (GET_returns_only_matches asciiLower demoFiles initial
           (fromPrice 4000)
           (GET asciiLower demoFiles (fromPrice 4000) initial).1
           (GET asciiLower demoFiles (fromPrice 4000) initial).2).
  - intros c Hc. discriminate Hc.
  - apply surjective_pairing.
Defined.

Lemma le_NaN_r x : Num.le x NaN = false.
Proof. by destruct x as [|[]|]. Qed.

Lemma meets_NaN_bound toLowerCase filters p :
  Filters.precoMin filters = Some NaN ∨ Filters.precoMax filters = Some NaN
  ∨ Filters.espacoMin filters = Some NaN
  ∨ Filters.espacoMax filters = Some NaN →
  ¬ meets toLowerCase filters p.
Proof.
  intros Hbound (_ & Hmin & Hmax & _ & _ & _ & _ & _ & _ & Hgmin & Hgmax).
  destruct Hbound as [H|[H|[H|H]]].
  - by specialize (Hmin _ H).
  - specialize (Hmax _ H). by rewrite le_NaN_r in Hmax.
  - by destruct (Hgmin _ H) as (gb & _ & Hgb).
  - destruct (Hgmax _ H) as (gb & _ & Hgb). by rewrite le_NaN_r in Hgb.
Qed.

Lemma GET_no_match toLowerCase fs filters st resp st' :
  wf st →
  GET toLowerCase fs filters st = (resp, st') →
  (∀ p, ¬ meets toLowerCase filters p) →
  Response.products resp = [] ∧ Response.total resp = 0%nat.
Proof.
  intros Hwf HGET Hno.
  destruct (GET_spec toLowerCase _ _ _ _ _ Hwf HGET)
    as (Hprod & Htotal & _).
  assert (filter (λ p, selected toLowerCase filters p) (collection fs st)
          = []) as Hnil by (apply matching_nil; auto).
  rewrite Hnil in Hprod, Htotal.
  by rewrite ordered_nil, slice_nil in Hprod.
Qed.

Lemma param_Some searchParams name s :
  get (str name) searchParams = Some s → s ≠ [] →
  param searchParams name = Some s.
Proof. unfold param. intros -> Hs. by destruct s. Qed.

(** X10. A price or capacity bound in the query string that does not read
    as a number ([precoMin=abc]) is not ignored: it is kept as [NaN], no
    record passes it, and the response is empty with total 0. *)
Theorem GET_request_bound_not_a_number (toLowerCase : jsstring → jsstring)
    (fs : files) (st : state) (searchParams : URLSearchParams)
    (name : string) (s : jsstring) (resp : SearchResponse) (st' : state) :
  wf st →
  name ∈ boundNames →
  get (str name) searchParams = Some s → s ≠ [] → parseFloat s = NaN →
  GET_request toLowerCase fs searchParams st = (resp, st') →
  Response.products resp = [] ∧ Response.total resp = 0%nat.
Proof.
  intros Hwf Hname Hget Hs HNaN HGET.
  apply (GET_no_match toLowerCase fs (filtersOf searchParams) st resp st');
    [done..|].
  intros p. apply meets_NaN_bound.
  pose proof (param_Some _ _ _ Hget Hs) as Hparam.
  unfold boundNames in Hname. rewrite !elem_of_cons in Hname.
  unfold filtersOf. cbn [Filters.precoMin Filters.precoMax Filters.espacoMin
                         Filters.espacoMax].
  destruct Hname as [->|[->|[->|[->|Hname]]]];
    [| | | |by apply elem_of_nil in Hname];
    rewrite Hparam; cbn [fmap option_fmap option_map]; rewrite HNaN; auto.
Qed.

Lemma GET_request_bound_not_a_number_witness :
  let resp :=
    (GET_request asciiLower demoFiles [(str "precoMin", str "abc")]
       initial).1 in
  Response.products resp = [] ∧ Response.total resp = 0%nat.
Proof.
  apply (GET_request_bound_not_a_number asciiLower demoFiles initial
           [(str "precoMin", str "abc")] "precoMin" (str "abc")
           (GET_request asciiLower demoFiles [(str "precoMin", str "abc")]
              initial).1
           (GET_request asciiLower demoFiles [(str "precoMin", str "abc")]
              initial).2).
  - intros c Hc. discriminate Hc.
  - unfold boundNames. left.
  - reflexivity.
  - discriminate.
  - reflexivity.
  - apply surjective_pairing.
Defined.

Lemma ordered_other filters l :
  sortByIs filters "preco_asc" = false →
  sortByIs filters "preco_desc" = false →
  ordered filters l = l.
Proof.
  intros Hasc Hdesc. unfold ordered. rewrite Hasc, Hdesc.
  destruct (_ || _); [apply sort_byOriginalIndex|done].
Qed.

(** X11. With any [sortBy] other than [preco_asc] and [preco_desc] (also
    [original], an unknown name or none) the response lists the matching
    records in the order the collection has, and the cached collection
    stays as it is. *)
Theorem GET_without_price_sort_keeps_the_order
    (toLowerCase : jsstring → jsstring) (fs : files) (st : state)
    (filters : SearchFilters) (resp : SearchResponse) (st' : state) :
  wf st →
  sortByIs filters "preco_asc" = false →
  sortByIs filters "preco_desc" = false →
  GET toLowerCase fs filters st = (resp, st') →
  let page := orDefault (Filters.page filters) (Num.ofZ 1) in
  let limit := orDefault (Filters.limit filters) (Num.ofZ 20) in
  let startIndex := Num.mul (Num.sub page (Num.ofZ 1)) limit in
  Response.products resp
  = slice startIndex (Num.add startIndex limit)
      (filter (λ p, selected toLowerCase filters p) (collection fs st))
  ∧ collection fs st' = collection fs st.
Proof.
  intros Hwf Hasc Hdesc HGET.
  destruct (GET_spec toLowerCase _ _ _ _ _ Hwf HGET)
    as (Hprod & _ & _ & _ & _ & _ & Hcoll & _).
  rewrite !ordered_other in * by done.
  split; [done|]. by destruct (unfiltered toLowerCase filters).
Qed.

Lemma GET_without_price_sort_keeps_the_order_witness :
  let run := GET asciiLower demoFiles noFilters initial in
  Response.products run.1
  = slice (Num.mul (Num.sub (Num.ofZ 1) (Num.ofZ 1)) (Num.ofZ 20))
      (Num.add (Num.mul (Num.sub (Num.ofZ 1) (Num.ofZ 1)) (Num.ofZ 20))
               (Num.ofZ 20))
      (filter (λ p, selected asciiLower noFilters p)
              (collection demoFiles initial))
  ∧ collection demoFiles run.2 = collection demoFiles initial.
Proof.
  apply (GET_without_price_sort_keeps_the_order asciiLower demoFiles initial
           noFilters
           (GET asciiLower demoFiles noFilters initial).1
           (GET asciiLower demoFiles noFilters initial).2).
  - intros c Hc. discriminate Hc.
  - reflexivity.
  - reflexivity.
  - apply surjective_pairing.
Defined.

Lemma GET_cached toLowerCase fs fs' filters st c :
  cachedProducts st = Some c → (c < length (heap st))%nat →
  GET toLowerCase fs filters st = GET toLowerCase fs' filters st.
Proof.
  intros Hc Hlt. unfold GET, mbind, M_bind.
  rewrite !(loadProducts_cached _ _ _ Hc).
  destruct (applyFilters toLowerCase filters c st) as [r1 st1] eqn:H1.
  destruct (applyFilters_spec toLowerCase _ _ _ _ _ Hlt H1)
    as (E1 & C1 & D1 & L1 & A1).
  rewrite (applySort_spec _ _ _ L1).
  unfold read, Array_slice, alloc, read, mbind, M_bind. cbv beta iota.
  cbn [heap cachedProducts].
  rewrite !(loadProducts_cached _ _ c) by (cbn [cachedProducts]; congruence).
  done.
Qed.

Lemma loadProducts_sets_the_cache fs st a b r st' :
  magazineluiza_products fs = Some a → mercadolivre_products fs = Some b →
  loadProducts fs st = (r, st') →
  cachedProducts st' = Some r.
Proof.
  intros Ha Hb. destruct (cachedProducts st) as [c|] eqn:Hc.
  - rewrite (loadProducts_cached _ _ _ Hc). by intros [= <- <-].
  - rewrite (loadProducts_readable _ _ _ _ Hc Ha Hb). by intros [= <- <-].
Qed.

Lemma GET_sets_the_cache toLowerCase fs filters st a b resp st' :
  wf st →
  magazineluiza_products fs = Some a → mercadolivre_products fs = Some b →
  GET toLowerCase fs filters st = (resp, st') →
  ∃ c, cachedProducts st' = Some c.
Proof.
  intros Hwf Ha Hb. unfold GET, mbind, M_bind.
  destruct (loadProducts fs st) as [r0 st0] eqn:H0.
  destruct (loadProducts_spec _ _ _ _ Hwf H0) as (_ & _ & L0 & _).
  pose proof (loadProducts_sets_the_cache _ _ _ _ _ _ Ha Hb H0) as C0.
  destruct (applyFilters toLowerCase filters r0 st0) as [r1 st1] eqn:H1.
  destruct (applyFilters_spec toLowerCase _ _ _ _ _ L0 H1)
    as (_ & C1 & _ & L1 & _).
  rewrite (applySort_spec _ _ _ L1).
  unfold read, Array_slice, alloc, read, mbind, M_bind. cbv beta iota.
  cbn [heap cachedProducts].
  rewrite !(loadProducts_cached _ _ r0) by (cbn [cachedProducts]; congruence).
  intros [= _ <-]. exists r0. cbn [cachedProducts]. congruence.
Qed.

(** X12. The two files are read once.  After a request that found both
    files readable, every later request is answered from the cache: it
    gives the same response and leaves the same state whatever the files
    hold by then, changed or unreadable. *)
Theorem GET_reads_the_files_once (toLowerCase : jsstring → jsstring)
    (fs fs' : files) (st : state) (first later : SearchFilters)
    (a b : list RawProduct) (resp : SearchResponse) (st' : state) :
  wf st →
  magazineluiza_products fs = Some a → mercadolivre_products fs = Some b →
  GET toLowerCase fs first st = (resp, st') →
  GET toLowerCase fs' later st' = GET toLowerCase fs later st'.
Proof.
  intros Hwf Ha Hb HGET.
  destruct (GET_sets_the_cache _ _ _ _ _ _ _ _ Hwf Ha Hb HGET) as [c Hc].
  destruct (GET_spec toLowerCase _ _ _ _ _ Hwf HGET)
    as (_ & _ & _ & _ & _ & _ & _ & Hwf').
  apply (GET_cached _ _ _ _ _ c Hc). by apply Hwf'.
Qed.

Lemma GET_reads_the_files_once_witness :
  let st' := (GET asciiLower demoFiles firstPageOfTwo initial).2 in
  GET asciiLower noFiles noFilters st' = GET asciiLower demoFiles noFilters st'.
Proof.
  apply (GET_reads_the_files_once asciiLower demoFiles noFiles initial
           firstPageOfTwo noFilters
           [mkRaw "PS5 A" "3999.00" "825 GB" "" "magalu";
            mkRaw "PS5 B" "4.499" "1 TB" "GTA" "magalu"]
           [mkRaw "PS5 C" "449,90" "" "" "ml"]
           (GET asciiLower demoFiles firstPageOfTwo initial).1
           (GET asciiLower demoFiles firstPageOfTwo initial).2).
  - intros c Hc. discriminate Hc.
  - reflexivity.
  - reflexivity.
  - apply surjective_pairing.
Defined.

Lemma slice_negative {A} (s e : Z) (l : list A) :
  s ≤ e → e < 0 →
  slice (Num.ofZ s) (Num.ofZ e) l
  = drop (Z.to_nat (Z.of_nat (length l) + s))
         (take (Z.to_nat (Z.of_nat (length l) + e)) l).
Proof.
  intros Hse He. unfold slice. rewrite !toIntegerOrInfinity_ofZ.
  cbn [clampIndex]. rewrite !(proj2 (Z.ltb_lt _ _)) by lia.
  rewrite take_drop_commute. f_equal; [lia|]. f_equal. lia.
Qed.

(** X13. A negative page number is not refused: with page [-k] and [n]
    records a page, the response holds the records that come before the
    last [k * n] of the ordered matches, at most [n] of them. *)
Theorem GET_negative_page (toLowerCase : jsstring → jsstring)
    (fs : files) (st : state) (filters : SearchFilters) (k n : Z)
    (resp : SearchResponse) (st' : state) :
  wf st →
  1 ≤ k → 0 < n →
  Filters.page filters = Some (Num.ofZ (- k)) →
  Filters.limit filters = Some (Num.ofZ n) →
  GET toLowerCase fs filters st = (resp, st') →
  let sorted :=
    ordered filters
      (filter (λ r, selected toLowerCase filters r) (collection fs st)) in
  let len := Z.of_nat (length sorted) in
  Response.products resp
  = drop (Z.to_nat (len - (k + 1) * n)) (take (Z.to_nat (len - k * n)) sorted).
Proof.
  intros Hwf Hk Hn Hpage Hlimit HGET sorted len.
  destruct (GET_spec toLowerCase _ _ _ _ _ Hwf HGET) as (Hprod & _).
  rewrite Hpage, Hlimit in Hprod.
  rewrite !orDefault_ofZ in Hprod by lia.
  rewrite ofZ_sub, ofZ_mul, ofZ_add in Hprod.
  rewrite slice_negative in Hprod by nia.
  rewrite Hprod. fold sorted. fold len. f_equal; [f_equal; lia|].
  f_equal. f_equal. lia.
Qed.

Lemma GET_negative_page_witness :
  let filters := withPage (Num.ofZ (- 1)) firstPageOfTwo in
  let resp := (GET asciiLower demoFiles filters initial).1 in
  let sorted :=
    ordered filters
      (filter (λ r, selected asciiLower filters r)
              (collection demoFiles initial)) in
  let len := Z.of_nat (length sorted) in
  Response.products resp
  = drop (Z.to_nat (len - (1 + 1) * 2)) (take (Z.to_nat (len - 1 * 2)) sorted).
Proof.
  apply (GET_negative_page asciiLower demoFiles initial
           (withPage (Num.ofZ (- 1)) firstPageOfTwo) 1 2
           (GET asciiLower demoFiles
              (withPage (Num.ofZ (- 1)) firstPageOfTwo) initial).1
           (GET asciiLower demoFiles
              (withPage (Num.ofZ (- 1)) firstPageOfTwo) initial).2).
  - intros c Hc. discriminate Hc.
  - lia.
  - lia.
  - reflexivity.
  - reflexivity.
  - apply surjective_pairing.
Defined.

Lemma slice_to_negative {A} (e : Z) (l : list A) :
  e < 0 →
  slice (Num.ofZ 0) (Num.ofZ e) l
  = take (Z.to_nat (Z.of_nat (length l) + e)) l.
Proof.
  intros He. unfold slice. rewrite !toIntegerOrInfinity_ofZ.
  cbn [clampIndex]. rewrite (proj2 (Z.ltb_lt e 0)) by done.
  rewrite (proj2 (Z.ltb_ge 0 0)) by done.
  replace (Z.to_nat (Z.min 0 (Z.of_nat (length l)))) with 0%nat by lia.
  rewrite drop_0. f_equal. lia.
Qed.

Lemma slice_backwards {A} (s e : Z) (l : list A) :
  e ≤ s → s < 0 → slice (Num.ofZ s) (Num.ofZ e) l = [].
Proof.
  intros Hes Hs. unfold slice. rewrite !toIntegerOrInfinity_ofZ.
  cbn [clampIndex]. rewrite !(proj2 (Z.ltb_lt _ 0)) by lia.
  replace (_ - _)%nat with 0%nat by lia. done.
Qed.

(** X14. A negative limit is not refused either: with [limit = -n], page
    1 holds all the ordered matches but the last [n], and every later
    page is empty. *)
Theorem GET_negative_limit (toLowerCase : jsstring → jsstring)
    (fs : files) (st : state) (filters : SearchFilters) (p n : Z)
    (resp : SearchResponse) (st' : state) :
  wf st →
  1 ≤ p → 0 < n →
  Filters.page filters = Some (Num.ofZ p) →
  Filters.limit filters = Some (Num.ofZ (- n)) →
  GET toLowerCase fs filters st = (resp, st') →
  let sorted :=
    ordered filters
      (filter (λ r, selected toLowerCase filters r) (collection fs st)) in
  Response.products resp
  = if p =? 1 then take (Z.to_nat (Z.of_nat (length sorted) - n)) sorted
    else [].
Proof.
  intros Hwf Hp Hn Hpage Hlimit HGET sorted.
  destruct (GET_spec toLowerCase _ _ _ _ _ Hwf HGET) as (Hprod & _).
  rewrite Hpage, Hlimit in Hprod.
  rewrite !orDefault_ofZ in Hprod by lia.
  rewrite ofZ_sub, ofZ_mul, ofZ_add in Hprod. fold sorted in Hprod.
  rewrite Hprod. destruct (p =? 1) eqn:Hp1.
  - apply Z.eqb_eq in Hp1 as ->.
    replace ((1 - 1) * - n + - n) with (- n) by lia.
    replace ((1 - 1) * - n) with 0 by lia.
    by rewrite slice_to_negative by lia.
  - apply Z.eqb_neq in Hp1. apply slice_backwards; nia.
Qed.

Lemma GET_negative_limit_witness :
  let filters := withLimit (Num.ofZ (- 1)) firstPageOfTwo in
  let resp := (GET asciiLower demoFiles filters initial).1 in
  let sorted :=
    ordered filters
      (filter (λ r, selected asciiLower filters r)
              (collection demoFiles initial)) in
  Response.products resp
  = if 1 =? 1 then take (Z.to_nat (Z.of_nat (length sorted) - 1)) sorted
    else [].
Proof.
  apply (GET_negative_limit asciiLower demoFiles initial
           (withLimit (Num.ofZ (- 1)) firstPageOfTwo) 1 1
           (GET asciiLower demoFiles
              (withLimit (Num.ofZ (- 1)) firstPageOfTwo) initial).1
           (GET asciiLower demoFiles
              (withLimit (Num.ofZ (- 1)) firstPageOfTwo) initial).2).
  - intros c Hc. discriminate Hc.
  - lia.
  - lia.
  - reflexivity.
  - reflexivity.
  - apply surjective_pairing.
Defined.

(** ** The collection over a run of requests *)

Lemma sound_normalize raw : sound (normalize raw).
Proof.
  split; [apply normalizePrice_isNaN|].
  intros gb. apply extractStorageInGB_value.
Qed.

Lemma sound_initial fs : Forall sound (collection fs initial).
Proof.
  unfold collection. cbn [cachedProducts initial].
  destruct (magazineluiza_products fs), (mercadolivre_products fs);
    try by constructor.
  apply Forall_fmap, Forall_true. intros raw. apply sound_normalize.
Qed.

(** X15. Whatever requests have been served since the start, the
    collection holds the records that the first load gave, each as often
    as then; every price in it is a number, and every capacity is absent
    or a number that is not negative. *)
Theorem collection_invariant (toLowerCase : jsstring → jsstring)
    (fs : files) (st : state) :
  reachable toLowerCase fs st →
  wf st
  ∧ collection fs st ≡ₚ collection fs initial
  ∧ Forall sound (collection fs st).
Proof.
  induction 1 as [|st filters _ (Hwf & Hperm & Hsound)].
  - split; [apply wf_initial|]. split; [done|apply sound_initial].
  - destruct (GET_spec toLowerCase fs filters st _ _ Hwf
                (surjective_pairing _))
      as (_ & _ & _ & _ & _ & _ & Hcoll & Hwf').
    assert (collection fs (GET toLowerCase fs filters st).2
            ≡ₚ collection fs st) as Hstep.
    { rewrite Hcoll. destruct (unfiltered toLowerCase filters); [|done].
      apply ordered_Permutation. }
    split; [done|]. split; [by rewrite Hstep|]. by rewrite Hstep.
Qed.

Lemma collection_invariant_witness :
  let st := (GET asciiLower demoFiles firstPageOfTwo initial).2 in
  wf st
  ∧ collection demoFiles st ≡ₚ collection demoFiles initial
  ∧ Forall sound (collection demoFiles st).
Proof.
  apply (collection_invariant asciiLower demoFiles
           (GET asciiLower demoFiles firstPageOfTwo initial).2).
  apply reachable_GET. apply reachable_initial.
Defined.

(** ** The query string, from app/page.tsx to app/api/products/route.ts *)

Lemma split_sep_cons sep c s :
  split sep (c :: s)
  = if (c =? sep)%N then [] :: split sep s
    else match split sep s with
         | p :: ps => (c :: p) :: ps
         | [] => [[c]]
         end.
Proof. reflexivity. Qed.

Lemma split_not_nil sep s : split sep s ≠ [].
Proof.
  destruct s as [|c s]; [done|]. rewrite split_sep_cons.
  destruct (c =? sep)%N; [done|]. by destruct (split sep s).
Qed.

Lemma split_no_sep sep p : sep ∉ p → split sep p = [p].
Proof.
  induction p as [|c p IH]; [done|].
  intros [Hc Hp]%not_elem_of_cons. rewrite split_sep_cons.
  rewrite (proj2 (N.eqb_neq c sep)) by done. by rewrite (IH Hp).
Qed.

Lemma split_app_sep sep p rest :
  sep ∉ p → split sep (p ++ sep :: rest) = p :: split sep rest.
Proof.
  induction p as [|c p IH].
  - intros _. rewrite app_nil_l, split_sep_cons. by rewrite N.eqb_refl.
  - intros [Hc Hp]%not_elem_of_cons.
    rewrite <- app_comm_cons, split_sep_cons.
    rewrite (proj2 (N.eqb_neq c sep)) by done. by rewrite (IH Hp).
Qed.

Lemma join_cons sep p q ps :
  join [sep] (p :: q :: ps) = p ++ sep :: join [sep] (q :: ps).
Proof. reflexivity. Qed.

Lemma split_join sep l :
  l ≠ [] → Forall (λ s, sep ∉ s) l → split sep (join [sep] l) = l.
Proof.
  intros Hne Hl. induction Hl as [|p l Hp Hl IH]; [done|].
  destruct l as [|q ps]; [by apply split_no_sep|].
  rewrite join_cons, split_app_sep by done. by rewrite IH.
Qed.

Lemma join_not_empty sep l :
  l ≠ [] → Forall (λ s, s ≠ []) l → join [sep] l ≠ [].
Proof.
  intros Hne Hl. destruct Hl as [|p l Hp Hl]; [done|].
  destruct l as [|q ps]; [done|]. rewrite join_cons. by destruct p.
Qed.

Lemma get_entry_other name cond n v l :
  str n ≠ name →
  get name (omap id (entry cond n v :: l)) = get name (omap id l).
Proof.
  intros Hn. unfold entry. destruct cond; [|done].
  cbn [omap list_omap id get]. unfold jsstring_eqb.
  by rewrite bool_decide_eq_false_2.
Qed.

Lemma get_entry_same cond n v l :
  get (str n) (omap id (entry cond n v :: l))
  = if cond then Some v else get (str n) (omap id l).
Proof.
  unfold entry. destruct cond; [|done].
  cbn [omap list_omap id get]. unfold jsstring_eqb.
  by rewrite bool_decide_eq_true_2.
Qed.

Lemma get_nil name : get name (omap id []) = None.
Proof. reflexivity. Qed.

(** Reads one parameter off the query string that the page builds. *)
Ltac get_param :=
  unfold param, searchParamsOf;
  rewrite ?get_entry_other by (vm_compute; discriminate);
  rewrite get_entry_same;
  rewrite ?get_entry_other by (vm_compute; discriminate);
  rewrite get_nil.

Lemma text_round_trip (x : option jsstring) :
  orUndefined (if from_option truthy false x then Some (default [] x)
               else None)
  = orUndefined x.
Proof. by destruct x as [[|c s]|]. Qed.

Lemma orUndefined_Some s : s ≠ [] → orUndefined (Some s) = Some s.
Proof. by destruct s. Qed.

Lemma list_round_trip (x : option (list jsstring)) :
  sendable x →
  split (ch ",") <$>
    orUndefined (if nonEmpty x then Some (join (str ",") (default [] x))
                 else None)
  = if nonEmpty x then x else None.
Proof.
  intros Hx. destruct x as [[|p l]|]; [done| |done].
  specialize (Hx _ eq_refl). cbn [nonEmpty default].
  change (str ",") with [ch ","].
  assert (join [ch ","] (p :: l) ≠ []) as Hjoin.
  { apply join_not_empty; [done|]. eapply Forall_impl; [done|].
    by intros s [Hs _]. }
  rewrite orUndefined_Some by done.
  cbn [fmap option_fmap option_map]. rewrite split_join; [done..|].
  eapply Forall_impl; [done|]. by intros s [_ Hs].
Qed.

(** X16. What the page puts into the query string is what the route
    reads out of it (the pairs taken to travel as they are), for the
    filters that are texts or lists of texts:
    the search text, the controllers and the sort mode arrive as they
    are (an empty one as none, no sort mode as [original]), a list of
    selected values arrives as it is when none of its values is empty or
    holds a comma, and the games filter arrives only when it is [true]. *)
Theorem query_string_round_trip (toString : number → jsstring)
    (filters : SearchFilters) :
  sendable (Filters.modelo filters) → sendable (Filters.tipo filters) →
  sendable (Filters.marca filters) →
  sendable (Filters.site_origem filters) →
  let received := filtersOf (searchParamsOf toString filters) in
  Filters.query received = orUndefined (Filters.query filters)
  ∧ Filters.modelo received
    = (if nonEmpty (Filters.modelo filters) then Filters.modelo filters
       else None)
  ∧ Filters.tipo received
    = (if nonEmpty (Filters.tipo filters) then Filters.tipo filters
       else None)
  ∧ Filters.marca received
    = (if nonEmpty (Filters.marca filters) then Filters.marca filters
       else None)
  ∧ Filters.site_origem received
    = (if nonEmpty (Filters.site_origem filters)
       then Filters.site_origem filters else None)
  ∧ Filters.inclui_controles received
    = orUndefined (Filters.inclui_controles filters)
  ∧ Filters.inclui_jogos received
    = (if bool_decide (Filters.inclui_jogos filters = Some true)
       then Some true else None)
  ∧ Filters.sortBy received
    = Some (default (str "original")
              (orUndefined (Filters.sortBy filters))).
Proof.
  intros Hmodelo Htipo Hmarca Hsite received. unfold received, filtersOf.
  cbn [Filters.query Filters.modelo Filters.tipo Filters.marca
       Filters.site_origem Filters.inclui_controles Filters.inclui_jogos
       Filters.sortBy].
  repeat split.
  - get_param. apply text_round_trip.
  - get_param. by apply list_round_trip.
  - get_param. by apply list_round_trip.
  - get_param. by apply list_round_trip.
  - get_param. by apply list_round_trip.
  - get_param. apply text_round_trip.
  - get_param. by destruct (Filters.inclui_jogos filters) as [[]|].
  - get_param. by rewrite text_round_trip.
Qed.

Lemma query_string_round_trip_witness :
  let received := filtersOf (searchParamsOf (λ _, str "1") slimOrPro) in
  Filters.query received = orUndefined (Filters.query slimOrPro)
  ∧ Filters.modelo received
    = (if nonEmpty (Filters.modelo slimOrPro)
       then Filters.modelo slimOrPro else None)
  ∧ Filters.tipo received
    = (if nonEmpty (Filters.tipo slimOrPro)
       then Filters.tipo slimOrPro else None)
  ∧ Filters.marca received
    = (if nonEmpty (Filters.marca slimOrPro)
       then Filters.marca slimOrPro else None)
  ∧ Filters.site_origem received
    = (if nonEmpty (Filters.site_origem slimOrPro)
       then Filters.site_origem slimOrPro else None)
  ∧ Filters.inclui_controles received
    = orUndefined (Filters.inclui_controles slimOrPro)
  ∧ Filters.inclui_jogos received
    = (if bool_decide (Filters.inclui_jogos slimOrPro = Some true)
       then Some true else None)
  ∧ Filters.sortBy received
    = Some (default (str "original")
              (orUndefined (Filters.sortBy slimOrPro))).
Proof.
  apply (query_string_round_trip (λ _, str "1") slimOrPro).
  - intros l [= <-].
    repeat constructor; try discriminate;
      by apply includesChar_false.
  - intros l Hl; discriminate Hl.
  - intros l Hl; discriminate Hl.
  - intros l Hl; discriminate Hl.
Defined.

Lemma param_not_empty searchParams name : param searchParams name ≠ Some [].
Proof.
  unfold param, orUndefined.
  by destruct (get (str name) searchParams) as [[|c s]|].
Qed.

Lemma list_param_not_empty searchParams name l :
  split (ch ",") <$> param searchParams name = Some l → l ≠ [].
Proof.
  destruct (param searchParams name) as [s|]; [|done].
  intros [= <-]. apply split_not_nil.
Qed.

(** X17. Whatever the query string holds, the filters that [GET] reads
    off it never hold an empty search text, an empty list of selected
    values or an empty sort mode, never miss the sort mode, and never ask
    for the records without games: [inclui_jogos] is [true] or not
    set. *)
Theorem filtersOf_invariants (searchParams : URLSearchParams) :
  let filters := filtersOf searchParams in
  Filters.query filters ≠ Some []
  ∧ (∀ l, Filters.modelo filters = Some l → l ≠ [])
  ∧ (∀ l, Filters.tipo filters = Some l → l ≠ [])
  ∧ (∀ l, Filters.marca filters = Some l → l ≠ [])
  ∧ (∀ l, Filters.site_origem filters = Some l → l ≠ [])
  ∧ Filters.inclui_controles filters ≠ Some []
  ∧ Filters.inclui_jogos filters ≠ Some false
  ∧ (∃ s, Filters.sortBy filters = Some s ∧ s ≠ []).
Proof.
  unfold filtersOf.
  cbn [Filters.query Filters.modelo Filters.tipo Filters.marca
       Filters.site_origem Filters.inclui_controles Filters.inclui_jogos
       Filters.sortBy].
  split; [apply param_not_empty|].
  do 4 (split; [apply list_param_not_empty|]).
  split; [apply param_not_empty|].
  split; [by destruct (bool_decide _)|].
  eexists. split; [done|].
  pose proof (param_not_empty searchParams "sortBy").
  by destruct (param searchParams "sortBy") as [[|c s]|].
Qed.

Lemma filtersOf_invariants_witness : [str "Slim"; str "Pro"] ≠ [].
Proof.
  apply (proj1 (proj2 (filtersOf_invariants
                         [(str "modelo", str "Slim,Pro")]))).
  reflexivity.
Defined.

Lemma filtersOf_no_parameters searchParams :
  (∀ name, param searchParams name = None) →
  filtersOf searchParams = noFilters.
Proof.
  intros Hnone. unfold filtersOf. rewrite !Hnone.
  pose proof (Hnone "inclui_jogos"%string) as Hjogos. unfold param in Hjogos.
  destruct (get (str "inclui_jogos") searchParams) as [[|c s]|]; done.
Qed.

(** X18. A request whose query string sets no parameter (none is there,
    or only empty ones) is answered with the first 20 records of the
    collection in the order it has, with the number of all its records as
    total, page 1 of the pages of 20; it leaves the collection as it
    is. *)
Theorem GET_request_without_parameters (toLowerCase : jsstring → jsstring)
    (fs : files) (st : state) (searchParams : URLSearchParams)
    (resp : SearchResponse) (st' : state) :
  wf st →
  (∀ name, param searchParams name = None) →
  GET_request toLowerCase fs searchParams st = (resp, st') →
  Response.products resp = take 20 (collection fs st)
  ∧ Response.total resp = length (collection fs st)
  ∧ Response.page resp = Num.ofZ 1
  ∧ Response.limit resp = Num.ofZ 20
  ∧ Response.totalPages resp
    = Num.ofZ ((Z.of_nat (length (collection fs st)) + 19) / 20)
  ∧ collection fs st' = collection fs st.
Proof.
  intros Hwf Hnone HGET. unfold GET_request in HGET.
  rewrite (filtersOf_no_parameters _ Hnone) in HGET.
  destruct (GET_spec toLowerCase _ _ _ _ _ Hwf HGET)
    as (Hprod & Htotal & Hpage & Hlimit & Hpages & _ & Hcoll & _).
  rewrite filter_all in Hprod, Htotal, Hpages by done.
  rewrite (ordered_other noFilters) in Hprod, Hcoll by done.
  cbn [noFilters Filters.page Filters.limit] in *.
  rewrite !orDefault_ofZ in * by done.
  rewrite ofZ_sub, ofZ_mul in Hprod. rewrite ofZ_add in Hprod.
  rewrite (slice_ofZ 0 20) in Hprod by done.
  rewrite ceil_div_ofZ in Hpages by done.
  assert (collection fs st' = collection fs st)
    by (by destruct (unfiltered toLowerCase noFilters)).
  repeat split; try done.
  rewrite Hpages. do 2 f_equal. lia.
Qed.

Lemma GET_request_without_parameters_witness :
  let run := GET_request asciiLower demoFiles [(str "query", [])] initial in
  Response.products run.1 = take 20 (collection demoFiles initial)
  ∧ Response.total run.1 = length (collection demoFiles initial)
  ∧ Response.page run.1 = Num.ofZ 1
  ∧ Response.limit run.1 = Num.ofZ 20
  ∧ Response.totalPages run.1
    = Num.ofZ ((Z.of_nat (length (collection demoFiles initial)) + 19) / 20)
  ∧ collection demoFiles run.2 = collection demoFiles initial.
Proof.
  apply (GET_request_without_parameters asciiLower demoFiles initial
           [(str "query", [])]
           (GET_request asciiLower demoFiles [(str "query", [])] initial).1
           (GET_request asciiLower demoFiles [(str "query", [])] initial).2).
  - intros c Hc. discriminate Hc.
  - intros name. unfold param. cbn [get].
    by destruct (jsstring_eqb (str "query") (str name)).
  - apply surjective_pairing.
Defined.

(** *** The page and the limit of a request *)

Lemma fold_decimal_digits ds acc :
  Forall (λ c, isDigit c = true) ds →
  fold_left (λ acc c, 10 * acc + hexDigitValue c) ds acc
  = fold_left (λ acc c, 10 * acc + digitValue c) ds acc.
Proof.
  intros Hds. revert acc.
  induction Hds as [|c ds Hc _ IH]; intros acc; [done|].
  cbn [fold_left]. rewrite IH. unfold hexDigitValue. by rewrite Hc.
Qed.

Lemma toBinary64_exact n : n < 2 ^ 53 → toBinary64 n = Num.ofZ n.
Proof.
  intros Hn. unfold toBinary64. by rewrite (proj2 (Z.ltb_lt _ _) Hn).
Qed.

Lemma parseInt_digits d :
  digits d → digitsValue d < 2 ^ 53 →
  parseInt d = Num.ofZ (digitsValue d).
Proof.
  intros [Hne Hd] Hexact. destruct d as [|c r]; [done|].
  pose proof (Forall_inv Hd) as Hc. unfold parseInt.
  assert (isWhiteSpace c = false) as Hws by chars.
  cbn [trimStart]. rewrite Hws.
  assert ((c =? ch "-")%N = false) as -> by chars.
  assert ((c =? ch "+")%N = false) as -> by chars.
  assert (match r with
          | b :: r' =>
              if ((c =? ch "0") && ((b =? ch "x") || (b =? ch "X")))%N
              then (16, r') else (10, c :: r)
          | [] => (10, c :: r)
          end = (10, c :: r)) as ->.
  { destruct r as [|b r']; [done|].
    assert (isDigit b = true) as Hb
      by (apply Forall_inv_tail, Forall_inv in Hd; done).
    assert ((b =? ch "x")%N = false) as -> by chars.
    assert ((b =? ch "X")%N = false) as -> by chars.
    by rewrite andb_false_r. }
  change (10 =? 16) with false. cbv iota.
  rewrite span_all by done. cbn [fst].
  rewrite fold_decimal_digits by done. by apply toBinary64_exact.
Qed.

Lemma orDefault_ofZ_or a d :
  orDefault (Some (Num.ofZ a)) d = if a =? 0 then d else Num.ofZ a.
Proof.
  destruct (a =? 0) eqn:Ha.
  - apply Z.eqb_eq in Ha as ->. unfold orDefault.
    by rewrite isZero_ofZ, bool_decide_eq_true_2, orb_true_r.
  - apply Z.eqb_neq in Ha. by apply orDefault_ofZ.
Qed.

(** X19. When the [page] and [limit] parameters are decimal digits that
    write numbers below 2^53 (where [parseInt] does not round), the page
    and the limit of the response are these numbers; a parameter that
    writes 0 gives page 1, or 20 records a page. *)
Theorem GET_request_page_and_limit (toLowerCase : jsstring → jsstring)
    (fs : files) (st : state) (searchParams : URLSearchParams)
    (page limit : jsstring) (resp : SearchResponse) (st' : state) :
  wf st →
  get (str "page") searchParams = Some page → digits page →
  digitsValue page < 2 ^ 53 →
  get (str "limit") searchParams = Some limit → digits limit →
  digitsValue limit < 2 ^ 53 →
  GET_request toLowerCase fs searchParams st = (resp, st') →
  Response.page resp
  = (if digitsValue page =? 0 then Num.ofZ 1
     else Num.ofZ (digitsValue page))
  ∧ Response.limit resp
    = (if digitsValue limit =? 0 then Num.ofZ 20
       else Num.ofZ (digitsValue limit)).
Proof.
  intros Hwf Hpage Hp Hpexact Hlimit Hl Hlexact HGET.
  destruct (GET_spec toLowerCase _ _ _ _ _ Hwf HGET)
    as (_ & _ & -> & -> & _).
  unfold filtersOf. cbn [Filters.page Filters.limit].
  rewrite (param_Some _ _ _ Hpage) by apply Hp.
  rewrite (param_Some _ _ _ Hlimit) by apply Hl.
  cbn [from_option]. rewrite !parseInt_digits by done.
  by rewrite !orDefault_ofZ_or.
Qed.

Lemma GET_request_page_and_limit_witness :
  let searchParams := [(str "page", str "2"); (str "limit", str "0")] in
  let resp := (GET_request asciiLower demoFiles searchParams initial).1 in
  Response.page resp
  = (if digitsValue (str "2") =? 0 then Num.ofZ 1
     else Num.ofZ (digitsValue (str "2")))
  ∧ Response.limit resp
    = (if digitsValue (str "0") =? 0 then Num.ofZ 20
       else Num.ofZ (digitsValue (str "0"))).
Proof.
  apply (GET_request_page_and_limit asciiLower demoFiles initial
           [(str "page", str "2"); (str "limit", str "0")]
           (str "2") (str "0")
           (GET_request asciiLower demoFiles
              [(str "page", str "2"); (str "limit", str "0")] initial).1
           (GET_request asciiLower demoFiles
              [(str "page", str "2"); (str "limit", str "0")] initial).2).
  - intros c Hc. discriminate Hc.
  - reflexivity.
  - split; [discriminate|repeat constructor].
  - reflexivity.
  - reflexivity.
  - split; [discriminate|repeat constructor].
  - reflexivity.
  - apply surjective_pairing.
Defined.

(** ** app/page.tsx: the page buttons *)

Lemma StronglySorted_filter {A} (R : relation A) (P : A → Prop)
    `{∀ x, Decision (P x)} (l : list A) :
  StronglySorted R l → StronglySorted R (filter P l).
Proof.
  induction 1 as [|x l _ IH Hx]; [constructor|].
  rewrite filter_cons. destruct (decide (P x)); [|done].
  constructor; [done|].
  apply Forall_forall. intros y [_ Hy]%list_elem_of_filter.
  rewrite Forall_forall in Hx. by apply Hx.
Qed.

Lemma StronglySorted_seqZ m n : StronglySorted Z.lt (seqZ m n).
Proof.
  remember (Z.to_nat n) as k eqn:Hk. revert m n Hk.
  induction k as [|k IH]; intros m n Hk.
  - rewrite seqZ_nil by lia. constructor.
  - rewrite seqZ_cons by lia. constructor; [apply IH; lia|].
    apply Forall_forall. intros y Hy%elem_of_seqZ. lia.
Qed.

Lemma pageButtons_seqZ totalPages currentPage :
  pageButtons totalPages currentPage
  = filter (λ page, page = 1 ∨ page = totalPages
                    ∨ (currentPage - 1 ≤ page ∧ page ≤ currentPage + 1))
           (seqZ 1 totalPages).
Proof.
  unfold pageButtons. f_equal.
  rewrite <- (fmap_add_seqZ 1 0). apply list_fmap_ext. intros _ i _. lia.
Qed.

Lemma elem_of_pageButtons totalPages currentPage page :
  page ∈ pageButtons totalPages currentPage
  ↔ 1 ≤ page ≤ totalPages
    ∧ (page = 1 ∨ page = totalPages
       ∨ (currentPage - 1 ≤ page ∧ page ≤ currentPage + 1)).
Proof.
  rewrite pageButtons_seqZ, list_elem_of_filter, elem_of_seqZ. intuition lia.
Qed.

Lemma StronglySorted_pageButtons totalPages currentPage :
  StronglySorted Z.lt (pageButtons totalPages currentPage).
Proof.
  rewrite pageButtons_seqZ. apply StronglySorted_filter, StronglySorted_seqZ.
Qed.

Lemma NoDup_pageButtons totalPages currentPage :
  NoDup (pageButtons totalPages currentPage).
Proof. rewrite pageButtons_seqZ. apply NoDup_filter, NoDup_seqZ. Qed.

Lemma pageItems_buttons totalPages currentPage :
  (pageItems totalPages currentPage).*2 = pageButtons totalPages currentPage.
Proof.
  unfold pageItems. apply list_eq. intros i.
  rewrite list_lookup_fmap, list_lookup_imap.
  by destruct (pageButtons totalPages currentPage !! i).
Qed.

(** X20. The bar of page buttons is rendered exactly when there is more
    than one page and the page is not loading.  When it is rendered, it
    shows the first page, the last page and the current page (when it is
    one of the pages), only pages that exist, in increasing order, and
    never more than five buttons. *)
Theorem pageBar_spec (loading : bool) (totalPages currentPage : Z) :
  (pageBar loading totalPages currentPage = None
   ↔ totalPages ≤ 1 ∨ loading = true)
  ∧ ∀ items,
      pageBar loading totalPages currentPage = Some items →
      let buttons := items.*2 in
      1 ∈ buttons
      ∧ totalPages ∈ buttons
      ∧ (1 ≤ currentPage ≤ totalPages → currentPage ∈ buttons)
      ∧ (∀ page, page ∈ buttons → 1 ≤ page ≤ totalPages)
      ∧ StronglySorted Z.lt buttons
      ∧ (length buttons ≤ 5)%nat.
Proof.
  split.
  { unfold pageBar.
    destruct (Z.ltb_spec 1 totalPages), loading; cbn [andb negb];
      split; try done; try (intros [?|?]; [lia|done]); intros _; auto. }
  intros items Hbar buttons. unfold pageBar in Hbar.
  destruct (Z.ltb_spec 1 totalPages) as [Hpages|]; [|done].
  destruct loading; [done|]. injection Hbar as <-.
  unfold buttons. rewrite pageItems_buttons.
  split; [|split; [|split; [|split; [|split]]]].
  - rewrite elem_of_pageButtons. lia.
  - rewrite elem_of_pageButtons. lia.
  - intros Hc. rewrite elem_of_pageButtons. lia.
  - intros page Hpage%elem_of_pageButtons. lia.
  - apply StronglySorted_pageButtons.
  - change 5%nat
      with (length [1; totalPages; currentPage - 1; currentPage;
                    currentPage + 1]).
    apply submseteq_length, NoDup_submseteq; [apply NoDup_pageButtons|].
    intros page Hpage%elem_of_pageButtons.
    rewrite !elem_of_cons.
    destruct (decide (page = currentPage)); [tauto|].
    destruct Hpage as [_ [?|[?|?]]]; [tauto|tauto|].
    assert (page = currentPage - 1 ∨ page = currentPage + 1) by lia.
    tauto.
Qed.

Lemma pageBar_spec_witness :
  let buttons := (pageItems 10 5).*2 in
  1 ∈ buttons
  ∧ 10 ∈ buttons
  ∧ (1 ≤ 5 ≤ 10 → 5 ∈ buttons)
  ∧ (∀ page, page ∈ buttons → 1 ≤ page ≤ 10)
  ∧ StronglySorted Z.lt buttons
  ∧ (length buttons ≤ 5)%nat.
Proof.
  apply (proj2 (pageBar_spec false 10 5) (pageItems 10 5)). reflexivity.
Defined.

Lemma sorted_lookup_lt (l : list Z) i j x y :
  StronglySorted Z.lt l → l !! i = Some x → l !! j = Some y →
  (i < j)%nat → x < y.
Proof.
  intros Hl. revert i j. induction Hl as [|a l _ IH Ha]; [done|].
  intros [|i] [|j] Hi Hj Hij; try lia.
  - injection Hi as <-. rewrite Forall_forall in Ha. apply Ha.
    by eapply list_elem_of_lookup_2.
  - apply (IH i j); [done..|lia].
Qed.

(** X21. The bar lists the buttons in the order of [pageButtons], and an
    ellipsis stands before a button exactly when the page just before it
    exists and has no button. *)
Theorem showEllipsis_marks_the_gaps (totalPages currentPage : Z) :
  (pageItems totalPages currentPage).*2 = pageButtons totalPages currentPage
  ∧ ∀ index ellipsis page,
      pageItems totalPages currentPage !! index = Some (ellipsis, page) →
      (ellipsis = true
       ↔ 1 < page ∧ page - 1 ∉ pageButtons totalPages currentPage).
Proof.
  unfold pageItems. set (buttons := pageButtons totalPages currentPage).
  split.
  { apply list_eq. intros i.
    rewrite list_lookup_fmap, list_lookup_imap.
    by destruct (buttons !! i). }
  intros index ellipsis page Hitem. rewrite list_lookup_imap in Hitem.
  destruct (buttons !! index) as [b|] eqn:Hb; [|done].
  injection Hitem as <- <-.
  pose proof (StronglySorted_pageButtons totalPages currentPage) as Hsorted.
  fold buttons in Hsorted.
  assert (1 ≤ b ≤ totalPages) as Hrange.
  { apply list_elem_of_lookup_2 in Hb.
    by apply elem_of_pageButtons in Hb as [? _]. }
  destruct index as [|j]; cbn [showEllipsis].
  - split; [done|]. intros [Hgt _].
    assert (1 ∈ buttons) as [k Hk]%list_elem_of_lookup_1
      by (apply elem_of_pageButtons; lia).
    destruct k as [|k]; [rewrite Hb in Hk; injection Hk; lia|].
    pose proof (sorted_lookup_lt _ _ _ _ _ Hsorted Hb Hk). lia.
  - destruct (lookup_lt_is_Some_2 buttons j) as [a Ha].
    { apply lookup_lt_Some in Hb. lia. }
    rewrite Ha.
    assert (1 ≤ a).
    { apply list_elem_of_lookup_2 in Ha.
      apply elem_of_pageButtons in Ha. lia. }
    pose proof (sorted_lookup_lt _ _ _ _ _ Hsorted Ha Hb).
    rewrite andb_true_iff, !bool_decide_eq_true. split.
    + intros [_ Hgap]. split; [lia|].
      intros [k Hk]%list_elem_of_lookup_1.
      destruct (decide (k < j)%nat).
      { pose proof (sorted_lookup_lt _ _ _ _ _ Hsorted Hk Ha). lia. }
      destruct (decide (k = j)) as [->|]; [rewrite Ha in Hk; injection Hk; lia|].
      destruct (decide (k = S j)) as [->|]; [rewrite Hb in Hk; injection Hk; lia|].
      pose proof (sorted_lookup_lt _ _ _ _ _ Hsorted Hb Hk). lia.
    + intros [Hgt Hno]. split; [lia|].
      destruct (decide (a = b - 1)) as [->|]; [|lia].
      destruct Hno. by eapply list_elem_of_lookup_2.
Qed.

Lemma showEllipsis_marks_the_gaps_witness :
  true = true ↔ 1 < 4 ∧ 4 - 1 ∉ pageButtons 10 5.
Proof.
  apply (proj2 (showEllipsis_marks_the_gaps 10 5) 1%nat true 4).
  reflexivity.
Defined.

(** ** components/FilterPanel.tsx *)

Lemma listAt_handleFilterChange key value localFilters :
  listAt key (handleFilterChange key value localFilters) = value.
Proof. by destruct key. Qed.

Lemma listAt_handleFilterChange_ne k key value localFilters :
  k ≠ key →
  listAt k (handleFilterChange key value localFilters) = listAt k localFilters.
Proof. by destruct k, key. Qed.

Lemma default_if_not_empty (l : list jsstring) :
  default [] (if (0 <? length l)%nat then Some l else None) = l.
Proof. by destruct l. Qed.

Lemma listAt_handleMultiSelectChange key value localFilters :
  let current := default [] (listAt key localFilters) in
  default [] (listAt key (handleMultiSelectChange key value localFilters))
  = if bool_decide (value ∈ current) then filter (λ v, v ≠ value) current
    else current ++ [value].
Proof.
  unfold handleMultiSelectChange.
  by rewrite listAt_handleFilterChange, default_if_not_empty.
Qed.

Lemma filter_other_values (value : jsstring) (l : list jsstring) :
  value ∉ l → filter (λ v, v ≠ value) l = l.
Proof.
  intros Hl. induction l as [|x l IH]; [done|].
  apply not_elem_of_cons in Hl as [Hx Hl].
  rewrite filter_cons_True by done. by rewrite IH.
Qed.

(** X22. A click on the check box of a value switches that value in the
    list of its key and nothing else: the value is selected afterwards
    exactly when it was not before, every other value and every other
    list stay as they are, the list is never left empty (it is removed
    instead), and the page goes back to 1.  A second click on a value
    that was not selected brings the selection back. *)
Theorem handleMultiSelectChange_toggles (key : listKey) (value : jsstring)
    (localFilters : SearchFilters) :
  let newFilters := handleMultiSelectChange key value localFilters in
  let before := default [] (listAt key localFilters) in
  let after := default [] (listAt key newFilters) in
  (value ∈ after ↔ value ∉ before)
  ∧ (∀ v, v ≠ value → v ∈ after ↔ v ∈ before)
  ∧ listAt key newFilters ≠ Some []
  ∧ (∀ k, k ≠ key → listAt k newFilters = listAt k localFilters)
  ∧ Filters.page newFilters = Some (Num.ofZ 1)
  ∧ (value ∉ before →
     default [] (listAt key (handleMultiSelectChange key value newFilters))
     = before).
Proof.
  intros newFilters before after.
  assert (after = if bool_decide (value ∈ before)
                  then filter (λ v, v ≠ value) before
                  else before ++ [value]) as Hafter
    by apply listAt_handleMultiSelectChange.
  split; [|split; [|split; [|split; [|split]]]].
  - rewrite Hafter. case_bool_decide as Hin.
    + rewrite list_elem_of_filter. tauto.
    + rewrite elem_of_app, list_elem_of_singleton. tauto.
  - intros v Hv. rewrite Hafter. case_bool_decide as Hin.
    + rewrite list_elem_of_filter. tauto.
    + rewrite elem_of_app, list_elem_of_singleton. tauto.
  - unfold newFilters, handleMultiSelectChange.
    rewrite listAt_handleFilterChange. by destruct (0 <? _)%nat eqn:Hlen;
      [destruct (if bool_decide _ then _ else _)|].
  - intros k Hk. by apply listAt_handleFilterChange_ne.
  - done.
  - intros Hout. rewrite listAt_handleMultiSelectChange. fold after.
    rewrite Hafter, (bool_decide_eq_false_2 _ Hout).
    rewrite bool_decide_eq_true_2
      by (rewrite elem_of_app, list_elem_of_singleton; tauto).
    rewrite filter_app, filter_other_values by done.
    rewrite filter_cons_False by tauto. apply app_nil_r.
Qed.

Lemma handleMultiSelectChange_toggles_witness :
  let newFilters := handleMultiSelectChange key_modelo (str "Pro") noFilters in
  default []
    (listAt key_modelo
       (handleMultiSelectChange key_modelo (str "Pro") newFilters))
  = default [] (listAt key_modelo noFilters).
Proof.
  apply (proj2 (proj2 (proj2 (proj2 (proj2
           (handleMultiSelectChange_toggles key_modelo (str "Pro")
              noFilters)))))).
  apply not_elem_of_nil.
Defined.
